(** * YoloEats: the Neo4j relationalizer

    A shallow embedding of [scripts/mongo_x_neo4j/neo4j_relationalizer.py]:
    the ingredient normalizer and splitter, the keyword tables, and the
    row generator [generate_csv_data] with its de-duplication ledger,
    followed by the properties of the specification that concern them.

    The generator is a computation in a monad of state and exceptions over
    the local variables of [generate_csv_data], the log and the sink; a
    sink accepts a given number of rows and then raises [IOError].  A
    Python set is a [gset]; the order in which a loop visits it is that of
    [elements], which, as in Python, is not specified.

    Python text is a sequence of Unicode code points.  What Python and the
    Unidecode package do on code points below 128 is written out; what they
    do above is data of the Unicode character database and of Unidecode's
    tables, and is a parameter of the development (record [unicode]). *)

From Stdlib Require Import NArith String Ascii List Bool Lia.
From stdpp Require Import gmap list.
Import ListNotations.

Local Open Scope string_scope.
Local Open Scope list_scope.
Local Open Scope N_scope.

(** ** Text *)

Abbreviation char := N.
Abbreviation str := (list N).

(** A Python string literal of the source that is plain ASCII. *)
Definition py (s : string) : str := map N_of_ascii (list_ascii_of_string s).

Definition is_ascii (c : char) : bool := c <? 128.

Definition in_range (lo hi c : char) : bool := (lo <=? c) && (c <=? hi).

Definition ascii_upper (c : char) : bool := in_range 65 90 c.
Definition ascii_digit (c : char) : bool := in_range 48 57 c.
Definition ascii_alnum (c : char) : bool :=
  in_range 97 122 c || in_range 65 90 c || in_range 48 57 c.

(** [Py_UNICODE_ISSPACE] below 128: TAB, LF, VT, FF, CR, FS, GS, RS, US and
    SPACE. *)
Definition ascii_space (c : char) : bool :=
  in_range 9 13 c || in_range 28 31 c || (c =? 32).

Definition ascii_lower (c : char) : char := if ascii_upper c then c + 32 else c.

(** The character data the program takes from its platform for code points
    from 128 on: the Unicode classes behind [\s], [\w], [\d] and
    [str.strip], [str.lower] on text that is not plain ASCII, the caseless
    equivalence of [re.IGNORECASE] between a pattern character and a
    non-ASCII subject character, and Unidecode's transliteration table. *)
Record unicode : Type := {
  uni_isspace : char -> bool;
  uni_isalnum : char -> bool;
  uni_isdecimal : char -> bool;
  uni_lower : str -> str;
  uni_caseless : char -> char -> bool;
  unidecode_table : char -> str
}.

Section Text.

Context (U : unicode).

Definition is_space (c : char) : bool :=
  if is_ascii c then ascii_space c else uni_isspace U c.

Definition is_digit (c : char) : bool :=
  if is_ascii c then ascii_digit c else uni_isdecimal U c.

(** [\w]: alphanumeric or underscore. *)
Definition is_word (c : char) : bool :=
  if is_ascii c then ascii_alnum c || (c =? 95) else uni_isalnum U c.

(** [str.lower()] *)
Definition str_lower (s : str) : str :=
  if forallb is_ascii s then map ascii_lower s else uni_lower U s.

(** [unidecode(s)]: code points below 128 are kept, every other one is
    replaced by its table entry. *)
Definition unidecode (s : str) : str :=
  flat_map (fun c => if is_ascii c then [c] else unidecode_table U c) s.

Fixpoint drop_while (P : char -> bool) (s : str) : str :=
  match s with
  | c :: s' => if P c then drop_while P s' else s
  | [] => []
  end.

(** [str.strip()] *)
Definition lstrip (s : str) : str := drop_while is_space s.
Definition rstrip (s : str) : str := rev (lstrip (rev s)).
Definition strip (s : str) : str := rstrip (lstrip s).

Fixpoint starts_with (sep s : str) : option str :=
  match sep, s with
  | [], _ => Some s
  | a :: sep', b :: s' => if a =? b then starts_with sep' s' else None
  | _ :: _, [] => None
  end.

(** [s.split(sep)[0]] for a non-empty [sep]: the text before the first
    occurrence of [sep], the whole text when there is none. *)
Fixpoint split_head (sep s : str) : str :=
  match starts_with sep s with
  | Some _ => []
  | None =>
      match s with
      | [] => []
      | c :: s' => c :: split_head sep s'
      end
  end.

(** [s.split(c)] for a one-character separator; [cur] is the piece being
    read, reversed. *)
Fixpoint split_on_acc (sep : char) (cur : str) (s : str) : list str :=
  match s with
  | [] => [rev cur]
  | c :: s' =>
      if c =? sep then rev cur :: split_on_acc sep [] s'
      else split_on_acc sep (c :: cur) s'
  end.

Definition split_on (sep : char) (s : str) : list str := split_on_acc sep [] s.

(** ** Regular expressions

    The fragment of Python's [re] the program uses, with the backtracking
    semantics of the [sre] engine: alternatives are tried in order, a
    greedy repetition tries one more iteration first, a lazy one tries to
    stop first. *)

Inductive citem : Type :=
| CChar (c : char)
| CRange (lo hi : char)
| CWord
| CSpace
| CDigit.

Inductive regex : Type :=
| Eps
| Lit (c : char)
| Dot
| Cls (neg : bool) (items : list citem)
| Cat (r1 r2 : regex)
| Alt (r1 r2 : regex)
| Star (greedy : bool) (r : regex)
| NotAhead (r : regex)
| WordB
| EndS.

(** Equality of a pattern character and a subject character; under
    [re.IGNORECASE] two ASCII characters are compared lower-cased.  The one
    range of the program's patterns, [[0-8]], holds no cased character, so
    ranges are compared as they are. *)
Definition char_eq (icase : bool) (p c : char) : bool :=
  if icase then
    if is_ascii c then ascii_lower c =? ascii_lower p
    else uni_caseless U p c
  else c =? p.

Definition citem_match (icase : bool) (i : citem) (c : char) : bool :=
  match i with
  | CChar p => char_eq icase p c
  | CRange lo hi => in_range lo hi c
  | CWord => is_word c
  | CSpace => is_space c
  | CDigit => is_digit c
  end.

Definition cls_match (icase neg : bool) (items : list citem) (c : char)
  : bool :=
  xorb neg (existsb (fun i => citem_match icase i c) items).

Definition word_at (o : option char) : bool :=
  match o with Some c => is_word c | None => false end.

(** A position in the subject: the character before it, if any, and the
    text from it on. *)
Definition cont : Type := option char -> str -> option (option char * str).

(** The loop of a repetition, over the matcher [step] of its body.  An
    iteration has to consume something; [n] bounds the iterations by the
    length of the text. *)
Definition star_loop
    (step : option char -> str -> cont -> option (option char * str))
    (greedy : bool) (k : cont)
  : nat -> option char -> str -> option (option char * str) :=
  fix loop (n : nat) (prev : option char) (s : str) :=
    match n with
    | O => k prev s
    | S n' =>
        let again p' s' :=
          if (length s' <? length s)%nat then loop n' p' s' else None in
        if greedy then
          match step prev s again with
          | Some x => Some x
          | None => k prev s
          end
        else
          match k prev s with
          | Some x => Some x
          | None => step prev s again
          end
    end.

Fixpoint rmatch (icase : bool) (r : regex) (prev : option char) (s : str)
    (k : cont) {struct r} : option (option char * str) :=
  match r with
  | Eps => k prev s
  | Lit p =>
      match s with
      | c :: s' => if char_eq icase p c then k (Some c) s' else None
      | [] => None
      end
  | Dot =>
      match s with
      | c :: s' => if c =? 10 then None else k (Some c) s'
      | [] => None
      end
  | Cls neg items =>
      match s with
      | c :: s' => if cls_match icase neg items c then k (Some c) s' else None
      | [] => None
      end
  | Cat r1 r2 =>
      rmatch icase r1 prev s (fun p' s' => rmatch icase r2 p' s' k)
  | Alt r1 r2 =>
      match rmatch icase r1 prev s k with
      | Some x => Some x
      | None => rmatch icase r2 prev s k
      end
  | Star greedy r1 =>
      star_loop (rmatch icase r1) greedy k (length s) prev s
  | NotAhead r1 =>
      match rmatch icase r1 prev s (fun p' s' => Some (p', s')) with
      | Some _ => None
      | None => k prev s
      end
  | WordB =>
      if xorb (word_at prev) (word_at (head s)) then k prev s else None
  | EndS =>
      match s with
      | [] => k prev s
      | [c] => if c =? 10 then k prev s else None
      | _ => None
      end
  end.

(** A match of [r] that starts at the given position: the position where
    it ends. *)
Definition match_here (icase : bool) (r : regex) (prev : option char) (s : str)
  : option (option char * str) :=
  rmatch icase r prev s (fun p' s' => Some (p', s')).

(** [re.search(r, s)] as a truth value. *)
Fixpoint search_from (icase : bool) (r : regex) (prev : option char) (s : str)
  : bool :=
  match match_here icase r prev s with
  | Some _ => true
  | None =>
      match s with
      | [] => false
      | c :: s' => search_from icase r (Some c) s'
      end
  end.

Definition re_search (icase : bool) (r : regex) (s : str) : bool :=
  search_from icase r None s.

(** [re.sub(r, rep, s)] with a literal replacement; [n] bounds the steps
    of the scan by the length of the text.  A match that consumes nothing
    is replaced and the scan moves on by one character (no pattern of the
    program matches the empty text). *)
Fixpoint sub_from (r : regex) (rep : str) (n : nat) (prev : option char)
    (s : str) : str :=
  match n with
  | O => s
  | S n' =>
      match match_here false r prev s with
      | Some (p', s') =>
          if (length s' <? length s)%nat then rep ++ sub_from r rep n' p' s'
          else
            match s with
            | [] => rep
            | c :: t => rep ++ c :: sub_from r rep n' (Some c) t
            end
      | None =>
          match s with
          | [] => []
          | c :: t => c :: sub_from r rep n' (Some c) t
          end
      end
  end.

Definition re_sub (r : regex) (rep s : str) : str :=
  sub_from r rep (S (length s)) None s.

(** [re.split(r, s)] for a pattern without capture groups; [cur] is the
    piece being read, reversed.  Only matches that consume something
    split. *)
Fixpoint split_from (r : regex) (n : nat) (prev : option char) (cur : str)
    (s : str) : list str :=
  match n with
  | O => [rev cur ++ s]
  | S n' =>
      match match_here false r prev s with
      | Some (p', s') =>
          if (length s' <? length s)%nat
          then rev cur :: split_from r n' p' [] s'
          else
            match s with
            | [] => [rev cur]
            | c :: t => split_from r n' (Some c) (c :: cur) t
            end
      | None =>
          match s with
          | [] => [rev cur]
          | c :: t => split_from r n' (Some c) (c :: cur) t
          end
      end
  end.

Definition re_split (r : regex) (s : str) : list str :=
  split_from r (S (length s)) None [] s.

(** Pattern combinators. *)
Definition lits (s : str) : regex :=
  fold_right (fun c r => Cat (Lit c) r) Eps s.
Definition opt (r : regex) : regex := Alt r Eps.
Definition plus (r : regex) : regex := Cat r (Star true r).

End Text.

#[global] Arguments star_loop : simpl never.

(** ** The normalizer and the splitter *)

Section Ingredients.

Context (U : unicode).

(** [r'[\(\[].*?[\)\]]'] *)
Definition re_bracketed : regex :=
  Cat (Cls false [CChar 40; CChar 91])
      (Cat (Star false Dot) (Cls false [CChar 41; CChar 93])).

(** [r'[^\w\s-]'] *)
Definition re_not_name_char : regex := Cls true [CWord; CSpace; CChar 45].

(** [r'\s+'] *)
Definition re_spaces : regex := plus (Cls false [CSpace]).

Definition normalize_ingredient_name (name : str) : option str :=
  match name with
  | [] => None
  | _ =>
      let name := str_lower U name in
      let name := unidecode U name in
      let name := re_sub U re_bracketed [] name in
      let name := re_sub U re_not_name_char [] name in
      let name := strip U (re_sub U re_spaces (py " ") name) in
      match name with
      | [] => None
      | _ => Some name
      end
  end.

(** [r',\s*(?![^()]*\))'] *)
Definition re_top_comma : regex :=
  Cat (Lit 44)
      (Cat (Star true (Cls false [CSpace]))
           (NotAhead
              (Cat (Star true (Cls true [CChar 40; CChar 41])) (Lit 41)))).

(** [\d+(\.\d+)?] *)
Definition re_number : regex :=
  Cat (plus (Cls false [CDigit]))
      (opt (Cat (Lit 46) (plus (Cls false [CDigit])))).

Definition re_ws : regex := Star true (Cls false [CSpace]).

(** [r'\s*\(\s*\d+(\.\d+)?\s*%\s*\)\s*$'] *)
Definition re_paren_percent : regex :=
  Cat re_ws (Cat (Lit 40) (Cat re_ws (Cat re_number (Cat re_ws
    (Cat (Lit 37) (Cat re_ws (Cat (Lit 41) (Cat re_ws EndS)))))))).

(** [r'\s*\d+(\.\d+)?\s*%\s*$'] *)
Definition re_bare_percent : regex :=
  Cat re_ws (Cat re_number (Cat re_ws (Cat (Lit 37) (Cat re_ws EndS)))).

(** The separator of the second [split] as the source file holds it: the
    three code points U+00E2, U+20AC, U+201C. *)
Definition dash_separator : str := [226; 8364; 8220].

Definition clean_item (item : str) : str :=
  let item_clean := split_head (py ":") item in
  let item_clean := split_head dash_separator item_clean in
  let item_clean :=
    strip U (re_sub U re_paren_percent [] (strip U item_clean)) in
  strip U (re_sub U re_bare_percent [] (strip U item_clean)).

(** The loop of [parse_ingredients_from_text] over the fragments. *)
Definition collect_ingredients (raw_ingredients : list str) : gset str :=
  fold_left
    (fun (normalized_ingredients : gset str) item =>
       match normalize_ingredient_name (clean_item item) with
       | Some normalized => {[ normalized ]} ∪ normalized_ingredients
       | None => normalized_ingredients
       end)
    raw_ingredients ∅.

Definition parse_text (ingredients_text_str : str) : gset str :=
  match ingredients_text_str with
  | [] => ∅
  | _ => collect_ingredients (re_split U re_top_comma ingredients_text_str)
  end.

End Ingredients.

(** ** The static tables *)

Definition KNOWN_ALLERGENS : gset str :=
  list_to_set (map py
    [ "en:milk"; "en:eggs"; "en:fish"; "en:crustaceans"; "en:molluscs";
      "en:peanuts"; "en:nuts"; "en:soybeans"; "en:gluten"; "en:celery";
      "en:mustard"; "en:sesame-seeds"; "en:sulphur-dioxide-and-sulphites";
      "en:lupin" ]).

(** [r"\bword\b"] *)
Definition kw (word : string) : regex :=
  Cat WordB (Cat (lits (py word)) WordB).

(** [r"\bword(s)?\b"] *)
Definition kws (word : string) : regex :=
  Cat WordB (Cat (lits (py word)) (Cat (opt (Lit 115)) WordB)).

Definition INGREDIENT_TO_ALLERGEN_MAP : list (regex * str) :=
  [ (kw "milk", py "en:milk"); (kw "butter", py "en:milk");
    (kw "cheese", py "en:milk"); (kw "cream", py "en:milk");
    (kw "yogurt", py "en:milk");
    (* \bcasein(?:ate)?\b *)
    (Cat WordB (Cat (lits (py "casein")) (Cat (opt (lits (py "ate"))) WordB)),
     py "en:milk");
    (kw "whey", py "en:milk"); (kw "lactose", py "en:milk");
    (kws "egg", py "en:eggs"); (kw "ovalbumin", py "en:eggs");
    (kw "lysozyme", py "en:eggs"); (kw "albumin", py "en:eggs");
    (kw "fish", py "en:fish"); (kw "salmon", py "en:fish");
    (kw "tuna", py "en:fish"); (kw "cod", py "en:fish");
    (kw "anchovy", py "en:fish"); (kw "trout", py "en:fish");
    (kw "haddock", py "en:fish");
    (kw "shrimp", py "en:crustaceans"); (kws "prawn", py "en:crustaceans");
    (kw "crab", py "en:crustaceans"); (kw "lobster", py "en:crustaceans");
    (kw "crayfish", py "en:crustaceans"); (kw "krill", py "en:crustaceans");
    (kws "mollusc", py "en:molluscs"); (kws "mussel", py "en:molluscs");
    (kws "oyster", py "en:molluscs"); (kw "squid", py "en:molluscs");
    (kw "octopus", py "en:molluscs"); (kws "snail", py "en:molluscs");
    (kws "clam", py "en:molluscs"); (kws "scallop", py "en:molluscs");
    (kws "peanut", py "en:peanuts"); (kw "arachis", py "en:peanuts");
    (kws "nut", py "en:nuts");
    (kws "almond", py "en:nuts"); (kws "hazelnut", py "en:nuts");
    (kws "walnut", py "en:nuts"); (kws "cashew", py "en:nuts");
    (kws "pecan", py "en:nuts"); (kws "brazil nut", py "en:nuts");
    (kws "pistachio", py "en:nuts"); (kws "macadamia", py "en:nuts");
    (kws "queensland nut", py "en:nuts");
    (kw "soy", py "en:soybeans"); (kw "soya", py "en:soybeans");
    (kw "lecithin", py "en:soybeans"); (kw "tofu", py "en:soybeans");
    (kw "edamame", py "en:soybeans"); (kw "miso", py "en:soybeans");
    (kw "tempeh", py "en:soybeans"); (kw "bean curd", py "en:soybeans");
    (kw "wheat", py "en:gluten"); (kw "gluten", py "en:gluten");
    (kw "barley", py "en:gluten"); (kw "rye", py "en:gluten");
    (kws "oat", py "en:gluten"); (kw "spelt", py "en:gluten");
    (kw "kamut", py "en:gluten"); (kw "khorasan wheat", py "en:gluten");
    (kw "semolina", py "en:gluten"); (kw "durum", py "en:gluten");
    (kw "couscous", py "en:gluten"); (kw "triticale", py "en:gluten");
    (kw "flour", py "en:gluten");
    (kw "celery", py "en:celery"); (kw "celeriac", py "en:celery");
    (kw "mustard", py "en:mustard");
    (kw "sesame", py "en:sesame-seeds"); (kw "tahini", py "en:sesame-seeds");
    (kws "sulphite", py "en:sulphur-dioxide-and-sulphites");
    (kws "sulfite", py "en:sulphur-dioxide-and-sulphites");
    (kw "sulphur dioxide", py "en:sulphur-dioxide-and-sulphites");
    (kw "sulfur dioxide", py "en:sulphur-dioxide-and-sulphites");
    (* \bE22[0-8]\b *)
    (Cat WordB (Cat (lits (py "E22")) (Cat (Cls false [CRange 48 56]) WordB)),
     py "en:sulphur-dioxide-and-sulphites");
    (kws "lupin", py "en:lupin") ].

Definition DIETARY_PREFERENCES_MAP : list (str * gset str) :=
  [ (py "vegan", list_to_set (map py ["en:vegan"; "vegan"]));
    (py "vegetarian", list_to_set (map py ["en:vegetarian"; "vegetarian"]));
    (py "gluten_free",
     list_to_set (map py ["en:gluten-free"; "gluten-free"; "sans gluten"]));
    (py "lactose_free",
     list_to_set (map py ["en:lactose-free"; "lactose-free"; "sans lactose"])) ].

Definition DIETARY_CONFLICT_MAP : list (str * gset str) :=
  [ (py "vegan",
     list_to_set (map py
       [ "en:non-vegan"; "en:milk"; "en:eggs"; "en:fish"; "en:crustaceans";
         "en:molluscs"; "en:meat"; "en:dairy"; "en:honey"; "en:collagen";
         "en:gelatin"; "en:cheese" ]));
    (py "vegetarian",
     list_to_set (map py
       [ "en:non-vegetarian"; "en:fish"; "en:crustaceans"; "en:molluscs";
         "en:meat"; "en:collagen"; "en:gelatin" ]));
    (py "gluten_free", list_to_set (map py ["en:gluten"]));
    (py "lactose_free", list_to_set (map py ["en:milk"; "en:lactose"])) ].

(** ** Records, rows and the sink *)

(** A field value of a record of the source collection.  Of a value that
    is neither null, a Boolean, an integer, a string nor a list the
    program observes the truth value only. *)
#[local] Set Warnings "-register-all".
Inductive pyval : Type :=
| PNone
| PBool (b : bool)
| PInt (n : Z)
| PStr (s : str)
| PList (l : list pyval)
| POther (truth : bool).

Definition truthy (v : pyval) : bool :=
  match v with
  | PNone => false
  | PBool b => b
  | PInt n => negb (n =? 0)%Z
  | PStr s => match s with [] => false | _ => true end
  | PList l => match l with [] => false | _ => true end
  | POther t => t
  end.

(** [a or b] *)
Definition py_or (a b : pyval) : pyval := if truthy a then a else b.

Abbreviation doc := (gmap str pyval).

(** [d.get(key)] and [d.get(key, dflt)] *)
Definition get (d : doc) (key : string) : pyval := default PNone (d !! py key).
Definition get_or (d : doc) (key : string) (dflt : pyval) : pyval :=
  default dflt (d !! py key).

Inductive label : Type := Product | Ingredient | Allergen | DietaryPreference.

Inductive reltype : Type :=
| HAS_INGREDIENT
| IS_ALLERGEN
| CONFLICTS_WITH_DIET
| MAY_CONTAIN_ALLERGEN
| IS_SUITABLE_FOR.

(** The rows handed to [writer.writerow]. *)
Inductive row : Type :=
| HeaderRow
| NodeRow (id : str) (name : pyval) (lbl : label)
| RelRow (rel : reltype) (from_id : str) (from_lbl : label)
         (to_id : str) (to_lbl : label).

Definition label_name (l : label) : str :=
  match l with
  | Product => py "Product"
  | Ingredient => py "Ingredient"
  | Allergen => py "Allergen"
  | DietaryPreference => py "DietaryPreference"
  end.

Definition reltype_name (r : reltype) : str :=
  match r with
  | HAS_INGREDIENT => py "HAS_INGREDIENT"
  | IS_ALLERGEN => py "IS_ALLERGEN"
  | CONFLICTS_WITH_DIET => py "CONFLICTS_WITH_DIET"
  | MAY_CONTAIN_ALLERGEN => py "MAY_CONTAIN_ALLERGEN"
  | IS_SUITABLE_FOR => py "IS_SUITABLE_FOR"
  end.

Definition CSV_HEADER : list pyval :=
  map (fun s => PStr (py s))
    [ "LineType"; "ID"; "Name"; "Label"; "RelationshipType"; "FromID";
      "FromLabel"; "ToID"; "ToLabel" ].

(** The nine cells of a row. *)
Definition row_cells (r : row) : list pyval :=
  let e := PStr [] in
  match r with
  | HeaderRow => CSV_HEADER
  | NodeRow id name lbl =>
      [PStr (py "Node"); PStr id; name; PStr (label_name lbl); e; e; e; e; e]
  | RelRow rel f fl t tl =>
      [PStr (py "Relationship"); e; e; e; PStr (reltype_name rel); PStr f;
       PStr (label_name fl); PStr t; PStr (label_name tl)]
  end.

Inductive logmsg : Type :=
| INFO_found (total_products : nat)
| INFO_no_products
| INFO_allergen_nodes (n : nat)
| INFO_diet_nodes (n : nat)
| WARNING_skipping (id : pyval)
| INFO_finished (processed_count : nat)
| WARNING_skipped (missing_code_skipped : nat)
| ERROR_writing
| ERROR_unexpected
| INFO_generated.

(** The state of a run: the three ledgers, the counters, the log, the rows
    the sink holds, and how many more rows the sink accepts before a write
    raises [IOError] ([None]: every write succeeds). *)
Record state : Type := mkState {
  written_ingredients : gset str;
  written_allergens : gset str;
  written_diet_prefs : gset str;
  processed_count : nat;
  missing_code_skipped : nat;
  log : list logmsg;
  out : list row;
  quota : option nat
}.

Inductive exn : Type := IOError | TypeError.

Inductive result (A : Type) : Type :=
| Ok (a : A) (st : state)
| Raised (e : exn) (st : state).
Arguments Ok {A} a st.
Arguments Raised {A} e st.

Definition final {A} (r : result A) : state :=
  match r with Ok _ st => st | Raised _ st => st end.

Definition M (A : Type) : Type := state -> result A.

#[global] Instance M_ret : MRet M := fun A a st => Ok a st.
#[global] Instance M_bind : MBind M := fun A B f m st =>
  match m st with
  | Ok a st' => f a st'
  | Raised e st' => Raised e st'
  end.

Definition raise {A} (e : exn) : M A := fun st => Raised e st.
Definition lift {A} (r : exn + A) : M A :=
  match r with inl e => raise e | inr a => mret a end.
Definition read {A} (f : state -> A) : M A := fun st => Ok (f st) st.
Definition update (f : state -> state) : M unit := fun st => Ok tt (f st).

Definition when (b : bool) (m : M unit) : M unit := if b then m else mret tt.

Fixpoint for_each {A} (l : list A) (body : A -> M unit) : M unit :=
  match l with
  | [] => mret tt
  | x :: l' => body x ;; for_each l' body
  end.

Definition writerow (r : row) : M unit := fun st =>
  match quota st with
  | Some O => Raised IOError st
  | q =>
      Ok tt (mkState (written_ingredients st) (written_allergens st)
               (written_diet_prefs st) (processed_count st)
               (missing_code_skipped st) (log st) (out st ++ [r])
               (Nat.pred <$> q))
  end.

Definition logging (m : logmsg) : M unit :=
  update (fun st =>
    mkState (written_ingredients st) (written_allergens st)
      (written_diet_prefs st) (processed_count st) (missing_code_skipped st)
      (log st ++ [m]) (out st) (quota st)).

Definition add_written_ingredient (x : str) : M unit :=
  update (fun st =>
    mkState ({[ x ]} ∪ written_ingredients st) (written_allergens st)
      (written_diet_prefs st) (processed_count st) (missing_code_skipped st)
      (log st) (out st) (quota st)).

Definition add_written_allergen (x : str) : M unit :=
  update (fun st =>
    mkState (written_ingredients st) ({[ x ]} ∪ written_allergens st)
      (written_diet_prefs st) (processed_count st) (missing_code_skipped st)
      (log st) (out st) (quota st)).

Definition add_written_diet_pref (x : str) : M unit :=
  update (fun st =>
    mkState (written_ingredients st) (written_allergens st)
      ({[ x ]} ∪ written_diet_prefs st) (processed_count st)
      (missing_code_skipped st) (log st) (out st) (quota st)).

Definition incr_processed : M unit :=
  update (fun st =>
    mkState (written_ingredients st) (written_allergens st)
      (written_diet_prefs st) (S (processed_count st))
      (missing_code_skipped st) (log st) (out st) (quota st)).

Definition incr_skipped : M unit :=
  update (fun st =>
    mkState (written_ingredients st) (written_allergens st)
      (written_diet_prefs st) (processed_count st)
      (S (missing_code_skipped st)) (log st) (out st) (quota st)).

(** ** The row generator *)

Section Engine.

Context (U : unicode).

(** [parse_ingredients_from_text]: a false value gives the empty set, and
    [re.split] raises [TypeError] on a value that is not a string. *)
Definition parse_ingredients_from_text (ingredients_text_str : pyval)
  : exn + gset str :=
  if negb (truthy ingredients_text_str) then inr ∅
  else
    match ingredients_text_str with
    | PStr s => inr (parse_text U s)
    | _ => inl TypeError
    end.

(** The text the ingredients of a record are parsed from. *)
Definition ingredients_text (product_doc : doc) : pyval :=
  py_or (get product_doc "ingredients_text_en")
    (get_or product_doc "ingredients_text" (PStr [])).

Definition clean_tag (tag : pyval) : option str :=
  match tag with
  | PStr s => Some (str_lower U (strip U s))
  | _ => None
  end.

(** [cleaned_tag and cleaned_tag in KNOWN_ALLERGENS] *)
Definition known_tag (cleaned_tag : option str) : option str :=
  match cleaned_tag with
  | Some ((_ :: _) as t) =>
      if decide (t ∈ KNOWN_ALLERGENS) then Some t else None
  | _ => None
  end.

Definition add_known (acc : gset str) (tag : pyval) : gset str :=
  match known_tag (clean_tag tag) with
  | Some t => {[ t ]} ∪ acc
  | None => acc
  end.

Definition explicit_product_allergens (product_doc : doc) : gset str :=
  match get_or product_doc "allergens_tags" (PList []) with
  | PList l => fold_left add_known l ∅
  | PStr s => fold_left add_known (map PStr (split_on 44 s)) ∅
  | _ => ∅
  end.

(** The comprehension that turns a comma-joined tag string into a list:
    the stripped pieces that are not empty. *)
Definition split_tags (data : str) : list pyval :=
  map PStr
    (filter (fun t => negb (bool_decide (t = [])))
       (map (strip U) (split_on 44 data))).

Definition tag_list (data : pyval) : pyval :=
  match data with
  | PStr s => PList (split_tags s)
  | _ => data
  end.

Definition processed_traces_allergens (product_doc : doc) : gset str :=
  match tag_list (get_or product_doc "traces_tags" (PList [])) with
  | PList l => fold_left add_known l ∅
  | _ => ∅
  end.

Definition add_label (acc : gset str) (tag : pyval) : gset str :=
  match clean_tag tag with
  | Some ((_ :: _) as t) => {[ t ]} ∪ acc
  | _ => acc
  end.

Definition product_dietary_labels (product_doc : doc) : gset str :=
  match tag_list (get_or product_doc "labels_tags" (PList [])) with
  | PList l => fold_left add_label l ∅
  | _ => ∅
  end.

Definition suitable_diet_prefs_for_product (product_doc : doc) : gset str :=
  fold_left
    (fun (acc : gset str) '(diet_name_key, diet_keywords_set) =>
       if decide (diet_keywords_set ## product_dietary_labels product_doc)
       then acc else {[ diet_name_key ]} ∪ acc)
    DIETARY_PREFERENCES_MAP ∅.

(** The inner loop with [break] of the dietary-conflict test. *)
Definition is_conflicting_ingredient (ing_name : str) (conflicting : gset str)
  : bool :=
  existsb
    (fun '(keyword_pattern, mapped_allergen) =>
       re_search U true keyword_pattern ing_name
       && bool_decide (mapped_allergen ∈ conflicting))
    INGREDIENT_TO_ALLERGEN_MAP.

(** The two nested loops with [break] of the proxy test. *)
Definition is_explained_by_ingredient (parsed : gset str) (allergen_name : str)
  : bool :=
  existsb
    (fun ing_name =>
       existsb
         (fun '(keyword_pattern, mapped_allergen) =>
            re_search U true keyword_pattern ing_name
            && bool_decide (mapped_allergen = allergen_name))
         INGREDIENT_TO_ALLERGEN_MAP)
    (elements parsed).

Definition proxy_ingredient_name (allergen_name product_code : str) : str :=
  allergen_name ++ py "_source_for_" ++ product_code.

Definition write_ingredient_node (name : str) : M unit :=
  seen ← read written_ingredients;
  when (negb (bool_decide (name ∈ seen)))
    (writerow (NodeRow name (PStr []) Ingredient) ;;
     add_written_ingredient name).

Definition ingredient_rows (product_code ing_name : str) : M unit :=
  write_ingredient_node ing_name ;;
  writerow (RelRow HAS_INGREDIENT product_code Product ing_name Ingredient) ;;
  for_each INGREDIENT_TO_ALLERGEN_MAP
    (fun '(keyword_pattern, allergen_tag_value) =>
       when (re_search U true keyword_pattern ing_name)
         (when (bool_decide (allergen_tag_value ∈ KNOWN_ALLERGENS))
            (writerow (RelRow IS_ALLERGEN ing_name Ingredient
                         allergen_tag_value Allergen)))) ;;
  for_each DIETARY_CONFLICT_MAP
    (fun '(diet_pref_name, conflicting_allergen_tags_for_diet) =>
       when (is_conflicting_ingredient ing_name
               conflicting_allergen_tags_for_diet)
         (writerow (RelRow CONFLICTS_WITH_DIET ing_name Ingredient
                      diet_pref_name DietaryPreference))).

Definition proxy_rows (product_code : str) (parsed : gset str)
    (allergen_name : str) : M unit :=
  when (negb (is_explained_by_ingredient parsed allergen_name))
    (let proxy := proxy_ingredient_name allergen_name product_code in
     write_ingredient_node proxy ;;
     writerow (RelRow HAS_INGREDIENT product_code Product proxy Ingredient) ;;
     writerow (RelRow IS_ALLERGEN proxy Ingredient allergen_name Allergen)).

(** The body of the loop over the records once the code is accepted. *)
Definition accepted_product (product_doc : doc) (product_code : str) : M unit :=
  let product_name :=
    py_or (get product_doc "product_name_en")
      (py_or (get product_doc "product_name")
         (py_or (get product_doc "generic_name_en")
            (py_or (get product_doc "generic_name")
               (PStr (py "Product " ++ product_code))))) in
  writerow (NodeRow product_code product_name Product) ;;
  parsed_ingredient_names ←
    lift (parse_ingredients_from_text (ingredients_text product_doc)) ;
  for_each (elements parsed_ingredient_names) (ingredient_rows product_code) ;;
  for_each (elements (explicit_product_allergens product_doc))
    (proxy_rows product_code parsed_ingredient_names) ;;
  for_each (elements (processed_traces_allergens product_doc))
    (fun trace_allergen_name =>
       writerow (RelRow MAY_CONTAIN_ALLERGEN product_code Product
                   trace_allergen_name Allergen)) ;;
  for_each (elements (suitable_diet_prefs_for_product product_doc))
    (fun diet_name =>
       writerow (RelRow IS_SUITABLE_FOR product_code Product
                   diet_name DietaryPreference)) ;;
  incr_processed.

(** The test that rejects a record: the code is false, or not a string,
    or blank once stripped. *)
Definition accepted_code (product_code : pyval) : option str :=
  match product_code with
  | PStr s =>
      if negb (truthy product_code) || bool_decide (strip U s = [])
      then None else Some s
  | _ => None
  end.

Definition process_product (product_doc : doc) : M unit :=
  match accepted_code (get product_doc "code") with
  | None =>
      logging (WARNING_skipping (get product_doc "_id")) ;;
      incr_skipped
  | Some product_code => accepted_product product_doc product_code
  end.

(** The body of the [try] block. *)
Definition write_tsv (products_cursor : list doc) : M unit :=
  writerow HeaderRow ;;
  for_each (elements KNOWN_ALLERGENS)
    (fun allergen_name =>
       seen ← read written_allergens;
       when (negb (bool_decide (allergen_name ∈ seen)))
         (writerow (NodeRow allergen_name (PStr []) Allergen) ;;
          add_written_allergen allergen_name)) ;;
  n ← read (fun st => size (written_allergens st)) ;
  logging (INFO_allergen_nodes n) ;;
  for_each (map fst DIETARY_PREFERENCES_MAP)
    (fun diet_name =>
       seen ← read written_diet_prefs;
       when (negb (bool_decide (diet_name ∈ seen)))
         (writerow (NodeRow diet_name (PStr []) DietaryPreference) ;;
          add_written_diet_pref diet_name)) ;;
  n ← read (fun st => size (written_diet_prefs st)) ;
  logging (INFO_diet_nodes n) ;;
  for_each products_cursor process_product ;;
  n ← read processed_count ;
  logging (INFO_finished n) ;;
  k ← read missing_code_skipped ;
  when (negb (k =? 0)%nat) (logging (WARNING_skipped k)).

(** The two [except] clauses: each logs the error and falls through. *)
Definition try_logged (m : M unit) : M unit := fun st =>
  match m st with
  | Ok a st' => Ok a st'
  | Raised IOError st' => logging ERROR_writing st'
  | Raised _ st' => logging ERROR_unexpected st'
  end.

(** [generate_csv_data], given the records the cursor yields. *)
Definition generate_csv_data (products_cursor : list doc) : M unit :=
  let total_products := length products_cursor in
  logging (INFO_found total_products) ;;
  if (total_products =? 0)%nat then logging INFO_no_products
  else try_logged (write_tsv products_cursor).

(** The [try] block of the script's entry point. *)
Definition main (products_cursor : list doc) : M unit :=
  generate_csv_data products_cursor ;;
  logging INFO_generated.

End Engine.

(** A fresh run: empty ledgers, nothing written. *)
Definition start (q : option nat) : state := mkState ∅ ∅ ∅ 0 0 [] [] q.


(** * Vocabulary of the properties *)

Section TextVocabulary.

Context (U : unicode).

(** The characters the normalizer keeps. *)
Definition name_char (c : char) : bool :=
  is_word U c || is_space U c || (c =? 45).

(** Every run of white space replaced by one space: a white-space
    character is dropped when another one follows it and becomes a space
    otherwise. *)
Fixpoint collapse (s : str) : str :=
  match s with
  | [] => []
  | c :: s' =>
      if is_space U c then
        match s' with
        | d :: _ => if is_space U d then collapse s' else 32 :: collapse s'
        | [] => [32]
        end
      else c :: collapse s'
  end.

(** The only white space is the space character, and never two in a row. *)
Fixpoint tidy (s : str) : bool :=
  match s with
  | [] => true
  | c :: s' =>
      (negb (is_space U c)
       || ((c =? 32)
           && match s' with d :: _ => negb (is_space U d) | [] => true end))
      && tidy s'
  end.

Definition head_ok (s : str) : Prop :=
  match s with c :: _ => is_space U c = false | [] => True end.

Definition no_upper (s : str) : Prop :=
  Forall (fun c => ascii_upper c = false) s.
Definition all_ascii (s : str) : Prop := Forall (fun c => is_ascii c = true) s.

(** The property of the specification: normalizing a normalized name
    gives the same name. *)
Definition normalize_idempotent : Prop :=
  forall s t : str,
    normalize_ingredient_name U s = Some t ->
    normalize_ingredient_name U t = Some t.

End TextVocabulary.

(** The platform data on one code point outside ASCII, U+5317 (a CJK
    ideograph): it is alphanumeric, not white space, not a digit, has no
    case, and Unidecode transliterates it to ["Bei "].  No other code
    point from 128 on occurs in the examples that use this record; they
    are given no transliteration here. *)
Definition unicode_u5317 : unicode :=
  {| uni_isspace := fun _ => false;
     uni_isalnum := fun c => c =? 21271;
     uni_isdecimal := fun _ => false;
     uni_lower := fun s => s;
     uni_caseless := fun _ _ => false;
     unidecode_table := fun c => if c =? 21271 then py "Bei " else [] |}.

(** ** States, rows and specifications of computations *)

Definition push (r : row) (st : state) : state :=
  mkState (written_ingredients st) (written_allergens st)
    (written_diet_prefs st) (processed_count st) (missing_code_skipped st)
    (log st) (out st ++ [r]) (Nat.pred <$> quota st).

Definition logged (m : logmsg) (st : state) : state :=
  mkState (written_ingredients st) (written_allergens st)
    (written_diet_prefs st) (processed_count st) (missing_code_skipped st)
    (log st ++ [m]) (out st) (quota st).

(** The key of a node row that is kept in a ledger. *)
Definition node_key (r : row) : option (label * str) :=
  match r with
  | NodeRow id _ Product => None
  | NodeRow id _ lbl => Some (lbl, id)
  | _ => None
  end.

Definition node_keys (rows : list row) : list (label * str) :=
  omap node_key rows.

Definition product_id (r : row) : option str :=
  match r with
  | NodeRow id _ Product => Some id
  | _ => None
  end.

Definition product_ids (rows : list row) : list str := omap product_id rows.

Definition ledger_of (lbl : label) (st : state) : gset str :=
  match lbl with
  | Product => ∅
  | Ingredient => written_ingredients st
  | Allergen => written_allergens st
  | DietaryPreference => written_diet_prefs st
  end.

#[global] Instance label_eq_dec : EqDecision label.
Proof. solve_decision. Defined.

#[global] Instance reltype_eq_dec : EqDecision reltype.
Proof. solve_decision. Defined.

(** The rows of the sink and the ledgers agree: no key twice, every key
    written is in its ledger, and every name in a ledger has its node row. *)
Definition ledger_inv (st : state) : Prop :=
  NoDup (node_keys (out st))
  /\ (forall lbl id, (lbl, id) ∈ node_keys (out st) -> id ∈ ledger_of lbl st)
  /\ (forall lbl id, id ∈ ledger_of lbl st ->
        NodeRow id (PStr []) lbl ∈ out st).

(** The outcomes of [m] from a state in [P]: [Q] on return, [E] when an
    exception is raised. *)
Definition hoare {A} (P : state -> Prop) (m : M A)
    (Q : A -> state -> Prop) (E : state -> Prop) : Prop :=
  forall st, P st ->
    match m st with
    | Ok a st' => Q a st'
    | Raised _ st' => E st'
    end.

(** [m] keeps [I], whatever the outcome. *)
Definition preserves {A} (I : state -> Prop) (m : M A) : Prop :=
  hoare I m (fun _ => I) I.

(** Whatever the outcome, the rows [m] writes are some of the rows of
    [full], in their order. *)
Definition writes_within {A} (m : M A) (full : list row) : Prop :=
  forall st, exists rs,
    out (final (m st)) = out st ++ rs /\ rs `sublist_of` full.

(** The sink never fails, the rows of [R] were written since the sink
    held [o], and the names of [N] are in the ingredient ledger. *)
Definition sure (o : list row) (R : list row) (N : list str) (st : state)
  : Prop :=
  quota st = None
  /\ (exists rs, out st = o ++ rs /\ forall r, r ∈ R -> r ∈ rs)
  /\ (forall n, n ∈ N -> n ∈ written_ingredients st).

(** On a sink that never fails [m] returns, having written the rows of
    [R] and entered the names of [N] in the ingredient ledger. *)
Definition adds {A} (m : M A) (R : list row) (N : list str) : Prop :=
  forall o R0 N0,
    hoare (sure o R0 N0) m (fun _ => sure o (R ++ R0) (N ++ N0))
      (fun _ => False).

(** Every endpoint of every relationship row in the sink has a node row
    in the sink. *)
Definition endpoint_ok (rows : list row) (lbl : label) (id : str) : Prop :=
  exists name, NodeRow id name lbl ∈ rows.

Definition endpoints_inv (st : state) : Prop :=
  forall rel f fl t tl,
    RelRow rel f fl t tl ∈ out st ->
    endpoint_ok (out st) fl f /\ endpoint_ok (out st) tl t.

(** The two catalogs are in their ledgers. *)
Definition catalog_written (st : state) : Prop :=
  (forall a, a ∈ KNOWN_ALLERGENS -> a ∈ written_allergens st)
  /\ (forall d, d ∈ map fst DIETARY_PREFERENCES_MAP ->
        d ∈ written_diet_prefs st).

(** The state between two statements of the loop over the records: the
    rows of [R] are in the sink and the names of [N] in the ingredient
    ledger. *)
Definition stage (R : list row) (N : list str) (st : state) : Prop :=
  ledger_inv st /\ endpoints_inv st /\ catalog_written st
  /\ (forall r, r ∈ R -> r ∈ out st)
  /\ (forall n, n ∈ N -> n ∈ written_ingredients st).

Definition consistent (st : state) : Prop := ledger_inv st /\ endpoints_inv st.

(** [st'] holds the rows and the ledger entries of [st], and maybe more. *)
Definition extends (st st' : state) : Prop :=
  (forall r, r ∈ out st -> r ∈ out st')
  /\ (forall lbl, ledger_of lbl st ⊆ ledger_of lbl st').

(** The catalog loops: the names of [A] are in the allergen ledger and
    those of [D] in the ledger of dietary preferences. *)
Definition prestage (A D : list str) (st : state) : Prop :=
  consistent st
  /\ (forall a, a ∈ A -> a ∈ written_allergens st)
  /\ (forall d, d ∈ D -> d ∈ written_diet_prefs st).

Definition is_rel (rel : reltype) (from_id to_id : str) (r : row) : bool :=
  match r with
  | RelRow rel' f _ t _ =>
      bool_decide (rel' = rel) && bool_decide (f = from_id)
      && bool_decide (t = to_id)
  | _ => false
  end.

Definition is_node (lbl : label) (id : str) (r : row) : bool :=
  match r with
  | NodeRow id' _ lbl' => bool_decide (lbl' = lbl) && bool_decide (id' = id)
  | _ => false
  end.

Definition count (P : row -> bool) (rows : list row) : nat :=
  length (List.filter P rows).

(** ** The rows of a record

    The rows the generator writes for an accepted record when no write
    fails and no ingredient is in the ledger yet, as lists. *)

Section FullRows.

Context (U : unicode).

(** The ingredient names of a record ([∅] where parsing raises). *)
Definition parsed_of (product_doc : doc) : gset str :=
  match parse_ingredients_from_text U (ingredients_text product_doc) with
  | inr parsed => parsed
  | inl _ => ∅
  end.

(** Parsing the ingredient text of the record does not raise. *)
Definition parses (product_doc : doc) : Prop :=
  exists parsed,
    parse_ingredients_from_text U (ingredients_text product_doc) = inr parsed.

Definition allergen_full (ing_name : str) : list row :=
  flat_map
    (fun '(keyword_pattern, allergen_tag_value) =>
       if re_search U true keyword_pattern ing_name
          && bool_decide (allergen_tag_value ∈ KNOWN_ALLERGENS)
       then [RelRow IS_ALLERGEN ing_name Ingredient allergen_tag_value Allergen]
       else [])
    INGREDIENT_TO_ALLERGEN_MAP.

Definition conflict_full (ing_name : str) : list row :=
  flat_map
    (fun '(diet_pref_name, conflicting) =>
       if is_conflicting_ingredient U ing_name conflicting
       then [RelRow CONFLICTS_WITH_DIET ing_name Ingredient diet_pref_name
               DietaryPreference]
       else [])
    DIETARY_CONFLICT_MAP.

Definition ingredient_full (product_code ing_name : str) : list row :=
  [ NodeRow ing_name (PStr []) Ingredient;
    RelRow HAS_INGREDIENT product_code Product ing_name Ingredient ]
  ++ allergen_full ing_name ++ conflict_full ing_name.

Definition proxy_full (product_code : str) (parsed : gset str)
    (allergen_name : str) : list row :=
  if is_explained_by_ingredient U parsed allergen_name then []
  else
    let proxy := proxy_ingredient_name allergen_name product_code in
    [ NodeRow proxy (PStr []) Ingredient;
      RelRow HAS_INGREDIENT product_code Product proxy Ingredient;
      RelRow IS_ALLERGEN proxy Ingredient allergen_name Allergen ].

Definition trace_row (product_code allergen_name : str) : row :=
  RelRow MAY_CONTAIN_ALLERGEN product_code Product allergen_name Allergen.

Definition label_row (product_code diet_name : str) : row :=
  RelRow IS_SUITABLE_FOR product_code Product diet_name DietaryPreference.

Definition product_name_of (product_doc : doc) (product_code : str) : pyval :=
  py_or (get product_doc "product_name_en")
    (py_or (get product_doc "product_name")
       (py_or (get product_doc "generic_name_en")
          (py_or (get product_doc "generic_name")
             (PStr (py "Product " ++ product_code))))).

Definition product_full (product_doc : doc) (product_code : str) : list row :=
  [NodeRow product_code (product_name_of product_doc product_code) Product]
  ++ flat_map (ingredient_full product_code) (elements (parsed_of product_doc))
  ++ flat_map (proxy_full product_code (parsed_of product_doc))
       (elements (explicit_product_allergens U product_doc))
  ++ map (trace_row product_code)
       (elements (processed_traces_allergens U product_doc))
  ++ map (label_row product_code)
       (elements (suitable_diet_prefs_for_product U product_doc)).

Definition record_full (product_doc : doc) : list row :=
  match accepted_code U (get product_doc "code") with
  | Some product_code => product_full product_doc product_code
  | None => []
  end.

(** The rows of a whole run. *)
Definition run_full (products_cursor : list doc) : list row :=
  [HeaderRow]
  ++ flat_map (fun a => [NodeRow a (PStr []) Allergen])
       (elements KNOWN_ALLERGENS)
  ++ flat_map (fun x => [NodeRow x (PStr []) DietaryPreference])
       (map fst DIETARY_PREFERENCES_MAP)
  ++ flat_map record_full products_cursor.

(** Some cleaned label tag of the record is a positive synonym of the
    preference. *)
Definition label_matches (product_doc : doc) (diet_name : str) : Prop :=
  exists synonyms lab,
    (diet_name, synonyms) ∈ DIETARY_PREFERENCES_MAP
    /\ lab ∈ synonyms
    /\ lab ∈ product_dietary_labels U product_doc.

(** The code of the record is absent, null, not a string, or a string
    that is empty or blank. *)
Definition code_rejected (product_doc : doc) : Prop :=
  match product_doc !! py "code" with
  | None => True
  | Some PNone => True
  | Some (PStr s) => strip U s = []
  | Some _ => True
  end.

(** The record carries the string [code] in its code field. *)
Definition has_code (code : str) (product_doc : doc) : bool :=
  match get product_doc "code" with
  | PStr s => bool_decide (s = code)
  | _ => false
  end.

End FullRows.

(** The row is about the ingredient [p]: its node row, or an edge that
    starts or ends at it as an ingredient. *)
Definition about_ingredient (p : str) (r : row) : Prop :=
  match r with
  | NodeRow id _ Ingredient => id = p
  | RelRow HAS_INGREDIENT _ _ t _ => t = p
  | RelRow IS_ALLERGEN f _ _ _ => f = p
  | RelRow CONFLICTS_WITH_DIET f _ _ _ => f = p
  | _ => False
  end.

(** The claim that a failing write is surfaced: whenever the body of the
    [try] block raises [IOError], so does [generate_csv_data]. *)
Definition write_failure_surfaces (U : unicode) : Prop :=
  forall (products_cursor : list doc) (st st1 : state),
    products_cursor <> [] ->
    write_tsv U products_cursor
      (logged (INFO_found (length products_cursor)) st)
    = Raised IOError st1 ->
    exists st2, generate_csv_data U products_cursor st = Raised IOError st2.

(** Records of the examples. *)
Definition record (fields : list (string * pyval)) : doc :=
  list_to_map (map (fun '(k, v) => (py k, v)) fields).

Definition wheat_flour_record : doc :=
  record [ ("code", PStr (py "1"));
           ("ingredients_text", PStr (py "wheat flour")) ].

Definition spec_example_record : doc :=
  record [ ("code", PStr (py "123"));
           ("ingredients_text", PStr (py "wheat flour, milk, salt"));
           ("labels_tags", PList [PStr (py "en:vegan")]) ].

Definition milk_tag_record : doc :=
  record [ ("code", PStr (py "7"));
           ("ingredients_text", PStr (py "water, sugar"));
           ("allergens_tags", PList [PStr (py "en:milk")]) ].

Definition cheese_record : doc :=
  record [ ("code", PStr (py "8"));
           ("ingredients_text", PStr (py "cheese, salt"));
           ("allergens_tags", PList [PStr (py "en:milk")]) ].

Definition repeated_tags_record : doc :=
  record [ ("code", PStr (py "9"));
           ("allergens_tags", PList [PStr (py "en:milk"); PStr (py "EN:MILK ")]);
           ("traces_tags", PStr (py "en:nuts, en:nuts"));
           ("labels_tags", PList [PStr (py "vegan"); PStr (py "en:vegan")]) ].

Definition no_code_record : doc :=
  record [ ("code", PStr (py "  "));
           ("ingredients_text", PStr (py "milk")) ].

Definition k_end : cont := fun p s => Some (p, s).

(** ** The rows of a run, as a list

    What a run writes when no write fails: the header and the two
    catalogs, then the rows of the records in turn, a node row of a kind
    other than Product left out when an earlier row has its key.  The
    rows of the records end with the Product row of the first accepted
    record whose ingredient text cannot be parsed. *)

(** The rows of [rows] without the node rows whose key is in [seen] or
    on an earlier row. *)
Fixpoint first_nodes (seen : list (label * str)) (rows : list row)
  : list row :=
  match rows with
  | [] => []
  | r :: rows' =>
      match node_key r with
      | Some k =>
          if bool_decide (k ∈ seen) then first_nodes seen rows'
          else r :: first_nodes (k :: seen) rows'
      | None => r :: first_nodes seen rows'
      end
  end.

Definition catalog_rows : list row :=
  [HeaderRow]
  ++ flat_map (fun a => [NodeRow a (PStr []) Allergen])
       (elements KNOWN_ALLERGENS)
  ++ flat_map (fun x => [NodeRow x (PStr []) DietaryPreference])
       (map fst DIETARY_PREFERENCES_MAP).

Section ExpectedRows.

Context (U : unicode).

(** The record is accepted and parsing its ingredient text raises. *)
Definition unparsable (product_doc : doc) : bool :=
  match accepted_code U (get product_doc "code"),
        parse_ingredients_from_text U (ingredients_text product_doc) with
  | Some _, inl _ => true
  | _, _ => false
  end.

Fixpoint records_rows (products_cursor : list doc) : list row :=
  match products_cursor with
  | [] => []
  | product_doc :: rest =>
      match accepted_code U (get product_doc "code") with
      | None => records_rows rest
      | Some product_code =>
          match parse_ingredients_from_text U (ingredients_text product_doc)
          with
          | inr _ => product_full U product_doc product_code ++ records_rows rest
          | inl _ =>
              [NodeRow product_code (product_name_of product_doc product_code)
                 Product]
          end
      end
  end.

Definition expected_rows (products_cursor : list doc) : list row :=
  match products_cursor with
  | [] => []
  | _ => first_nodes [] (catalog_rows ++ records_rows products_cursor)
  end.

End ExpectedRows.

(** The rows a sink of the given capacity takes. *)
Definition take_quota (q : option nat) (rows : list row) : list row :=
  match q with None => rows | Some n => take n rows end.

Definition fits (q : option nat) (k : nat) : bool :=
  match q with None => true | Some n => (k <=? n)%nat end.

Definition debit (q : option nat) (k : nat) : option nat :=
  (fun n => (n - k)%nat) <$> q.

(** The keys of [seen] are the entries of the ledgers. *)
Definition agrees (seen : list (label * str)) (st : state) : Prop :=
  forall lbl id, (lbl, id) ∈ seen <-> id ∈ ledger_of lbl st.

(** [m] writes the rows of [full] that are new to the ledgers, as far as
    the sink takes them: where it takes them all [m] returns, or raises
    [TypeError] when [halts]; where it does not, [m] raises [IOError] at
    the first row refused. *)
Definition emits {A} (m : M A) (full : list row) (halts : bool) : Prop :=
  forall st seen, agrees seen st ->
    let rows := first_nodes seen full in
    if fits (quota st) (length rows) then
      if halts then
        exists st', m st = Raised TypeError st' /\ out st' = out st ++ rows
      else
        exists a st',
          m st = Ok a st'
          /\ out st' = out st ++ rows
          /\ quota st' = debit (quota st) (length rows)
          /\ agrees (node_keys full ++ seen) st'
    else
      exists st',
        m st = Raised IOError st'
        /\ out st' = out st ++ take_quota (quota st) rows.

(** On return [m] has added [dp] to the count of processed records and
    [ds] to the count of skipped ones, and logged [msgs]. *)
Definition tracks {A} (m : M A) (dp ds : nat) (msgs : list logmsg) : Prop :=
  forall st a st',
    m st = Ok a st' ->
    processed_count st' = (processed_count st + dp)%nat
    /\ missing_code_skipped st' = (missing_code_skipped st + ds)%nat
    /\ log st' = log st ++ msgs.

(** The ingredients a record refers to: the names parsed from its
    ingredient text, and the proxy of each explicit allergen that no
    parsed name explains. *)
Definition refers_to_ingredient (U : unicode) (product_doc : doc)
    (product_code ing_name : str) : Prop :=
  ing_name ∈ parsed_of U product_doc
  \/ exists allergen_name,
       allergen_name ∈ explicit_product_allergens U product_doc
       /\ is_explained_by_ingredient U (parsed_of U product_doc) allergen_name
          = false
       /\ ing_name = proxy_ingredient_name allergen_name product_code.

(** The record is accepted with the code. *)
Definition accepted_with (U : unicode) (code : str) (product_doc : doc)
  : bool :=
  bool_decide (accepted_code U (get product_doc "code") = Some code).

(** Two records that share an ingredient. *)
Definition salted_records : list doc :=
  [ record [ ("code", PStr (py "123"));
             ("ingredients_text", PStr (py "wheat flour, milk, salt")) ];
    record [ ("code", PStr (py "8"));
             ("ingredients_text", PStr (py "cheese, salt"));
             ("allergens_tags", PList [PStr (py "en:eggs")]) ];
    record [ ("code", PStr (py "8")) ] ].




(** ** The log and the counters of a run *)

(** The state after the header and the two catalogs, from a fresh run
    over [n] records. *)
Definition catalog_state (n : nat) (q : option nat) : state :=
  mkState ∅ KNOWN_ALLERGENS (list_to_set (map fst DIETARY_PREFERENCES_MAP))
    0 0 [INFO_found n; INFO_allergen_nodes 14; INFO_diet_nodes 4]
    catalog_rows (debit q 19).

(** The two messages that close a run. *)
Definition closing (processed skipped : nat) : list logmsg :=
  INFO_finished processed
  :: (if (skipped =? 0)%nat then [] else [WARNING_skipped skipped]).

Section RunLog.

Context (U : unicode).

Definition is_accepted (product_doc : doc) : bool :=
  match accepted_code U (get product_doc "code") with
  | Some _ => true
  | None => false
  end.

Definition accepted_records (products_cursor : list doc) : list doc :=
  List.filter is_accepted products_cursor.

Definition rejected_records (products_cursor : list doc) : list doc :=
  List.filter (fun d => negb (is_accepted d)) products_cursor.

(** The log of a run that completes. *)
Definition run_log (products_cursor : list doc) : list logmsg :=
  [ INFO_found (length products_cursor); INFO_allergen_nodes 14;
    INFO_diet_nodes 4 ]
  ++ map (fun d => WARNING_skipping (get d "_id"))
       (rejected_records products_cursor)
  ++ closing (length (accepted_records products_cursor))
       (length (rejected_records products_cursor)).

(** The run completes: the sink takes every row and every accepted
    record has an ingredient text that can be parsed. *)
Definition completes (products_cursor : list doc) (q : option nat) : bool :=
  fits q (length (expected_rows U products_cursor))
  && negb (existsb (unparsable U) products_cursor).

(** The last message [generate_csv_data] logs. *)
Definition verdict (products_cursor : list doc) (q : option nat) : logmsg :=
  match products_cursor with
  | [] => INFO_no_products
  | _ =>
      if negb (fits q (length (expected_rows U products_cursor)))
      then ERROR_writing
      else if existsb (unparsable U) products_cursor then ERROR_unexpected
      else
        let skipped := length (rejected_records products_cursor) in
        if (skipped =? 0)%nat
        then INFO_finished (length (accepted_records products_cursor))
        else WARNING_skipped skipped
  end.

End RunLog.

(** ** The shape of the rows *)

(** The kinds of node a relationship joins. *)
Definition endpoint_kinds (rel : reltype) : label * label :=
  match rel with
  | HAS_INGREDIENT => (Product, Ingredient)
  | IS_ALLERGEN => (Ingredient, Allergen)
  | CONFLICTS_WITH_DIET => (Ingredient, DietaryPreference)
  | MAY_CONTAIN_ALLERGEN => (Product, Allergen)
  | IS_SUITABLE_FOR => (Product, DietaryPreference)
  end.

(** An identifier of a node of the kind: an allergen or a dietary
    preference of the catalogs, any text but the empty one for a product
    or an ingredient. *)
Definition valid_id (lbl : label) (id : str) : Prop :=
  match lbl with
  | Allergen => id ∈ KNOWN_ALLERGENS
  | DietaryPreference => id ∈ map fst DIETARY_PREFERENCES_MAP
  | Product | Ingredient => id <> []
  end.

Definition well_formed (r : row) : Prop :=
  match r with
  | HeaderRow => True
  | NodeRow id name lbl =>
      valid_id lbl id
      /\ match lbl with
         | Product => truthy name = true
         | _ => name = PStr []
         end
  | RelRow rel from_id from_lbl to_id to_lbl =>
      (from_lbl, to_lbl) = endpoint_kinds rel
      /\ valid_id from_lbl from_id /\ valid_id to_lbl to_id
  end.

(** The name of a proxy ingredient. *)
Definition is_proxy (name : str) : Prop :=
  exists allergen_name product_code,
    allergen_name ∈ KNOWN_ALLERGENS
    /\ name = proxy_ingredient_name allergen_name product_code.

(** A record whose ingredient text is a number. *)
Definition number_text_record : doc :=
  record [ ("code", PStr (py "5")); ("ingredients_text", PInt 7) ].

(** The tags of a field of a record as the record holds them: the strings
    of a list, or the pieces between the commas of a string. *)
Definition raw_tags (field : string) (product_doc : doc) : list str :=
  match product_doc !! py field with
  | Some (PList l) =>
      omap (fun tag => match tag with PStr s => Some s | _ => None end) l
  | Some (PStr s) => split_on 44 s
  | _ => []
  end.


(** Records of the examples: one skipped, one with a trace given as a
    string. *)
Definition mixed_records : list doc :=
  [ spec_example_record; no_code_record;
    record [ ("code", PStr (py "77"));
             ("allergens_tags", PStr (py "EN:Milk, en:unknown"));
             ("traces_tags", PStr (py " En:Nuts ,en:unknown")) ] ].

(** ** Plain names *)

(** A lower-case letter, a digit, an underscore or a hyphen. *)
Definition plain_char (c : char) : bool :=
  in_range 97 122 c || in_range 48 57 c || (c =? 95) || (c =? 45).

(** Words of plain characters with one space between them: [after_space]
    tells that a word has to start here. *)
Fixpoint plain_from (after_space : bool) (s : str) : bool :=
  match s with
  | [] => negb after_space
  | c :: s' =>
      if c =? 32 then negb after_space && plain_from true s'
      else plain_char c && plain_from false s'
  end.

(** A name as the normalizer gives it on an ASCII text: one word or more
    of plain characters, one space between two words. *)
Definition plain_name (s : str) : bool := plain_from true s.

(** [sep.join(l)] *)
Fixpoint join (sep : str) (l : list str) : str :=
  match l with
  | [] => []
  | [x] => x
  | x :: l' => x ++ sep ++ join sep l'
  end.

(** A match of the pattern consumes the character [c]. *)
Fixpoint requires (c : char) (r : regex) : bool :=
  match r with
  | Lit p => p =? c
  | Cat r1 r2 => requires c r1 || requires c r2
  | _ => false
  end.

(** ** Items with a percentage *)

(** A number as an ingredient list writes it: ASCII digits, one or more. *)
Definition digits (d : str) : bool :=
  match d with
  | [] => false
  | _ => forallb ascii_digit d
  end.

(** The text of a percentage after a name, as in [" 30%"] and [" 62.5%"]. *)
Definition percent_text (whole : str) (fraction : option str) : str :=
  py " " ++ whole
    ++ match fraction with Some f => py "." ++ f | None => [] end
    ++ py "%".

(** An item of an ingredient list: a name, with or without the share of
    the product it makes up. *)
Definition item_text (item : str * option (str * option str)) : str :=
  match item with
  | (name, None) => name
  | (name, Some (whole, fraction)) => name ++ percent_text whole fraction
  end.

(** The items the properties below speak of: the name is plain and, where
    a percentage follows it, holds no digit. *)
Definition item_ok (item : str * option (str * option str)) : bool :=
  plain_name (fst item)
  && match snd item with
     | None => true
     | Some (whole, fraction) =>
         forallb (fun c => negb (ascii_digit c)) (fst item)
         && digits whole
         && match fraction with Some f => digits f | None => true end
     end.


(** * Properties *)

(** ** The regular-expression engine *)

Section RegexFacts.

Context (U : unicode).

Lemma star_loop_O step greedy k prev s :
  star_loop step greedy k O prev s = k prev s.
Proof. reflexivity. Qed.

Lemma star_loop_S step greedy k n prev s :
  star_loop step greedy k (S n) prev s =
  let again p' s' :=
    if (length s' <? length s)%nat then star_loop step greedy k n p' s'
    else None in
  if greedy then
    match step prev s again with
    | Some x => Some x
    | None => k prev s
    end
  else
    match k prev s with
    | Some x => Some x
    | None => step prev s again
    end.
Proof. reflexivity. Qed.

Lemma rmatch_Cat icase r1 r2 prev s k :
  rmatch U icase (Cat r1 r2) prev s k
  = rmatch U icase r1 prev s (fun p' s' => rmatch U icase r2 p' s' k).
Proof. reflexivity. Qed.

Lemma rmatch_Cls icase neg items prev s k :
  rmatch U icase (Cls neg items) prev s k
  = match s with
    | c :: s' => if cls_match U icase neg items c then k (Some c) s' else None
    | [] => None
    end.
Proof. reflexivity. Qed.

Lemma rmatch_Star icase greedy r prev s k :
  rmatch U icase (Star greedy r) prev s k
  = star_loop (rmatch U icase r) greedy k (length s) prev s.
Proof. reflexivity. Qed.

(** A greedy repetition of a one-character test in front of a continuation
    that always accepts takes the longest run. *)
Lemma star_loop_greedy_run
    (step : option char -> str -> cont -> option (option char * str))
    (P : char -> bool) :
  (forall prev s k,
     step prev s k =
     match s with
     | c :: s' => if P c then k (Some c) s' else None
     | [] => None
     end) ->
  forall (n : nat) (prev : option char) (s : str),
    (length s <= n)%nat ->
    exists p', star_loop step true k_end n prev s = Some (p', drop_while P s).
Proof.
  intros Hstep. induction n as [| n IH]; intros prev s Hn.
  - destruct s as [| c s]; [ | simpl in Hn; lia ].
    exists prev. reflexivity.
  - rewrite star_loop_S. cbv zeta. rewrite Hstep.
    destruct s as [| c s].
    + exists prev. reflexivity.
    + cbn [drop_while]. destruct (P c) eqn:Hc.
      * assert (Hlt : (length s <? length (c :: s))%nat = true)
          by (apply Nat.ltb_lt; simpl; lia).
        rewrite Hlt.
        destruct (IH (Some c) s) as [p' Hp']; [ simpl in Hn; lia | ].
        rewrite Hp'. exists p'. reflexivity.
      * exists prev. reflexivity.
Qed.

(** What a match leaves is a suffix of the text it started on. *)
Lemma star_loop_suffix
    (step : option char -> str -> cont -> option (option char * str))
    (greedy : bool) (k : cont) :
  (forall prev s k' x, step prev s k' = Some x ->
     exists p' s', s' `suffix_of` s /\ k' p' s' = Some x) ->
  forall n prev s x,
    star_loop step greedy k n prev s = Some x ->
    exists p' s', s' `suffix_of` s /\ k p' s' = Some x.
Proof.
  intros Hstep. induction n as [| n IH]; intros prev s x H.
  - rewrite star_loop_O in H. exists prev, s. split; [ reflexivity | exact H ].
  - rewrite star_loop_S in H. cbv zeta in H.
    assert (Hagain : forall g y,
      g = (fun p' s' =>
             if (length s' <? length s)%nat
             then star_loop step greedy k n p' s' else None) ->
      step prev s g = Some y ->
      exists p' s', s' `suffix_of` s /\ k p' s' = Some y).
    { intros g y -> Hy. apply Hstep in Hy as (p1 & s1 & Hs1 & Hy).
      destruct (length s1 <? length s)%nat; [ | discriminate ].
      apply IH in Hy as (p2 & s2 & Hs2 & Hy).
      exists p2, s2. split; [ etrans; eassumption | exact Hy ]. }
    destruct greedy.
    + destruct (step prev s _) as [y |] eqn:Hy.
      * inversion H; subst. eapply Hagain; [ reflexivity | exact Hy ].
      * exists prev, s. split; [ reflexivity | exact H ].
    + destruct (k prev s) as [y |] eqn:Hy.
      * inversion H; subst. exists prev, s. split; [ reflexivity | exact Hy ].
      * eapply Hagain; [ reflexivity | exact H ].
Qed.

Lemma rmatch_suffix (icase : bool) (r : regex) :
  forall prev s k x,
    rmatch U icase r prev s k = Some x ->
    exists p' s', s' `suffix_of` s /\ k p' s' = Some x.
Proof.
  induction r as [ | p | | neg items | r1 IH1 r2 IH2 | r1 IH1 r2 IH2
                 | greedy r1 IH1 | r1 IH1 | | ]; intros prev s k x H; simpl in H.
  - exists prev, s. split; [ reflexivity | exact H ].
  - destruct s as [| c s]; [ discriminate | ].
    destruct (char_eq U icase p c); [ | discriminate ].
    exists (Some c), s. split; [ apply suffix_cons_r; reflexivity | exact H ].
  - destruct s as [| c s]; [ discriminate | ].
    destruct (c =? 10); [ discriminate | ].
    exists (Some c), s. split; [ apply suffix_cons_r; reflexivity | exact H ].
  - destruct s as [| c s]; [ discriminate | ].
    destruct (cls_match U icase neg items c); [ | discriminate ].
    exists (Some c), s. split; [ apply suffix_cons_r; reflexivity | exact H ].
  - apply IH1 in H as (p1 & s1 & Hs1 & H).
    apply IH2 in H as (p2 & s2 & Hs2 & H).
    exists p2, s2. split; [ etrans; eassumption | exact H ].
  - destruct (rmatch U icase r1 prev s k) as [y |] eqn:Hy.
    + inversion H; subst. apply IH1 in Hy. exact Hy.
    + apply IH2 in H. exact H.
  - eapply star_loop_suffix; [ | exact H ]. intros; eapply IH1; eassumption.
  - destruct (rmatch U icase r1 prev s _); [ discriminate | ].
    exists prev, s. split; [ reflexivity | exact H ].
  - destruct (xorb _ _); [ | discriminate ].
    exists prev, s. split; [ reflexivity | exact H ].
  - exists prev, s. split; [ reflexivity | ].
    destruct s as [| c [| d s]]; try discriminate; [ exact H | ].
    destruct (c =? 10); [ exact H | discriminate ].
Qed.

Lemma match_here_suffix (icase : bool) (r : regex) prev s p' s' :
  match_here U icase r prev s = Some (p', s') -> s' `suffix_of` s.
Proof.
  unfold match_here. intros H.
  apply rmatch_suffix in H as (p1 & s1 & Hs1 & H).
  inversion H; subst. exact Hs1.
Qed.

(** A substitution only keeps characters of the text and inserts the
    replacement. *)
Lemma sub_from_chars (r : regex) (rep : str) :
  forall n prev s c,
    c ∈ sub_from U r rep n prev s -> c ∈ s \/ c ∈ rep.
Proof.
  induction n as [| n IH]; intros prev s c H; simpl in H.
  - left. exact H.
  - destruct (match_here U false r prev s) as [[p' s'] |] eqn:Hm.
    + apply match_here_suffix in Hm as [pre Hpre].
      destruct (length s' <? length s)%nat.
      * apply elem_of_app in H as [H | H]; [ right; exact H | ].
        apply IH in H as [H | H]; [ left | right; exact H ].
        subst s. apply elem_of_app. right. exact H.
      * destruct s as [| d t]; [ right; exact H | ].
        apply elem_of_app in H as [H | H]; [ right; exact H | ].
        apply elem_of_cons in H as [-> | H]; [ left; left | ].
        apply IH in H as [H | H]; [ left; right; exact H | right; exact H ].
    + destruct s as [| d t]; [ left; exact H | ].
      apply elem_of_cons in H as [-> | H]; [ left; left | ].
      apply IH in H as [H | H]; [ left; right; exact H | right; exact H ].
Qed.

Lemma re_sub_chars (r : regex) (rep s : str) (c : char) :
  c ∈ re_sub U r rep s -> c ∈ s \/ c ∈ rep.
Proof. apply sub_from_chars. Qed.

(** Deleting the matches of a character class keeps the other characters. *)
Lemma sub_from_cls (neg : bool) (items : list citem) :
  forall n prev s,
    (length s < n)%nat ->
    sub_from U (Cls neg items) [] n prev s
    = List.filter (fun c => negb (cls_match U false neg items c)) s.
Proof.
  induction n as [| n IH]; intros prev s Hn; [ lia | ].
  destruct s as [| c s]; [ reflexivity | ].
  simpl. unfold match_here. simpl.
  destruct (cls_match U false neg items c); simpl.
  - assert (Hlt : (length s <? S (length s))%nat = true)
      by (apply Nat.ltb_lt; lia).
    rewrite Hlt. apply IH. simpl in Hn. lia.
  - f_equal. apply IH. simpl in Hn. lia.
Qed.

(** Where the pattern matches at no position the text is unchanged. *)
Lemma sub_from_no_match (r : regex) (rep : str) :
  forall n prev s,
    (forall p t, t `suffix_of` s -> match_here U false r p t = None) ->
    sub_from U r rep n prev s = s.
Proof.
  induction n as [| n IH]; intros prev s H; [ reflexivity | ].
  simpl. rewrite (H prev s) by reflexivity.
  destruct s as [| c s]; [ reflexivity | ].
  f_equal. apply IH. intros p t Ht. apply H. apply suffix_cons_r. exact Ht.
Qed.

End RegexFacts.


(** ** The normalizer *)

Section NormalizerFacts.

Context (U : unicode).

Lemma drop_while_ext (P Q : char -> bool) (s : str) :
  (forall c, P c = Q c) -> drop_while P s = drop_while Q s.
Proof.
  intros H. induction s as [| c s IH]; [ reflexivity | ].
  simpl. rewrite <- H. destruct (P c); [ exact IH | reflexivity ].
Qed.

Lemma drop_while_split (P : char -> bool) (s : str) :
  exists pre, s = pre ++ drop_while P s.
Proof.
  induction s as [| c s [pre IH]]; [ exists []; reflexivity | ].
  simpl. destruct (P c).
  - exists (c :: pre). simpl. f_equal. exact IH.
  - exists []. reflexivity.
Qed.

Lemma drop_while_length (P : char -> bool) (s : str) :
  (length (drop_while P s) <= length s)%nat.
Proof.
  destruct (drop_while_split P s) as [pre H].
  rewrite H at 2. rewrite length_app. lia.
Qed.

Lemma drop_while_elem (P : char -> bool) (s : str) (c : char) :
  c ∈ drop_while P s -> c ∈ s.
Proof.
  destruct (drop_while_split P s) as [pre H]. intros Hc.
  rewrite H. apply elem_of_app. right. exact Hc.
Qed.

Lemma drop_while_snoc (P : char -> bool) (s : str) (c : char) :
  P c = false -> drop_while P (s ++ [c]) = drop_while P s ++ [c].
Proof.
  intros Hc. induction s as [| d s IH]; simpl.
  - rewrite Hc. reflexivity.
  - destruct (P d); [ exact IH | reflexivity ].
Qed.

Lemma head_ok_lstrip (s : str) : head_ok U (lstrip U s).
Proof.
  unfold lstrip. induction s as [| c s IH]; simpl; [ exact I | ].
  destruct (is_space U c) eqn:Hc; [ exact IH | exact Hc ].
Qed.

Lemma lstrip_head_ok (s : str) : head_ok U s -> lstrip U s = s.
Proof.
  unfold lstrip. destruct s as [| c s]; simpl; [ reflexivity | ].
  intros ->. reflexivity.
Qed.

Lemma rstrip_rev_ok (s : str) : head_ok U (rev s) -> rstrip U s = s.
Proof.
  intros H. unfold rstrip. rewrite (lstrip_head_ok _ H). apply rev_involutive.
Qed.

Lemma rev_ok_rstrip (s : str) : head_ok U (rev (rstrip U s)).
Proof. unfold rstrip. rewrite rev_involutive. apply head_ok_lstrip. Qed.

Lemma head_ok_rstrip (s : str) : head_ok U s -> head_ok U (rstrip U s).
Proof.
  destruct s as [| c s]; [ intros _; exact I | ].
  simpl. intros Hc. unfold rstrip, lstrip. simpl.
  rewrite (drop_while_snoc _ _ _ Hc), rev_app_distr. simpl. exact Hc.
Qed.

Lemma strip_fixed (s : str) :
  head_ok U s -> head_ok U (rev s) -> strip U s = s.
Proof.
  intros H1 H2. unfold strip. rewrite (lstrip_head_ok _ H1).
  apply rstrip_rev_ok. exact H2.
Qed.

Lemma strip_ok (s : str) :
  head_ok U (strip U s) /\ head_ok U (rev (strip U s)).
Proof.
  unfold strip. split.
  - apply head_ok_rstrip, head_ok_lstrip.
  - apply rev_ok_rstrip.
Qed.

Lemma rstrip_split (s : str) : exists post, s = rstrip U s ++ post.
Proof.
  unfold rstrip, lstrip.
  destruct (drop_while_split (is_space U) (rev s)) as [pre H].
  exists (rev pre). rewrite <- rev_app_distr, <- H. symmetry.
  apply rev_involutive.
Qed.

Lemma strip_elem (s : str) (c : char) : c ∈ strip U s -> c ∈ s.
Proof.
  unfold strip. intros H.
  apply (drop_while_elem (is_space U)).
  destruct (rstrip_split (lstrip U s)) as [post Hp].
  unfold lstrip in Hp. rewrite Hp. apply elem_of_app. left. exact H.
Qed.

Lemma collapse_space (c : char) (s : str) :
  is_space U c = true -> collapse U (c :: s) = 32 :: collapse U (lstrip U s).
Proof.
  revert c. unfold lstrip.
  induction s as [| d s IH]; intros c Hc.
  - simpl. rewrite Hc. reflexivity.
  - cbn [collapse drop_while]. rewrite Hc.
    destruct (is_space U d) eqn:Hd.
    + rewrite <- (IH d Hd). cbn [collapse]. rewrite Hd. reflexivity.
    + cbn [collapse]. rewrite Hd. reflexivity.
Qed.

Lemma collapse_elem (s : str) (c : char) :
  c ∈ collapse U s -> c ∈ s \/ c = 32.
Proof.
  induction s as [| d s IH]; simpl; intros H.
  - left. exact H.
  - destruct (is_space U d).
    + destruct s as [| e s'].
      * apply list_elem_of_singleton in H. right. exact H.
      * destruct (is_space U e).
        -- apply IH in H as [H | H]; [ left; right; exact H | right; exact H ].
        -- apply elem_of_cons in H as [H | H]; [ right; exact H | ].
           apply IH in H as [H | H]; [ left; right; exact H | right; exact H ].
    + apply elem_of_cons in H as [-> | H]; [ left; left | ].
      apply IH in H as [H | H]; [ left; right; exact H | right; exact H ].
Qed.

Lemma is_space_32 : is_space U 32 = true.
Proof. reflexivity. Qed.

Lemma tidy_collapse (s : str) : tidy U (collapse U s) = true.
Proof.
  induction s as [| c s IH]; [ reflexivity | ].
  simpl. destruct (is_space U c) eqn:Hc.
  - destruct s as [| d s']; [ reflexivity | ].
    destruct (is_space U d) eqn:Hd; [ exact IH | ].
    change (tidy U (32 :: collapse U (d :: s')) = true).
    cbn [tidy]. rewrite IH, is_space_32.
    simpl. rewrite Hd. simpl. rewrite Hd. reflexivity.
  - cbn [tidy]. rewrite Hc, IH. reflexivity.
Qed.

Lemma collapse_tidy (s : str) : tidy U s = true -> collapse U s = s.
Proof.
  induction s as [| c s IH]; [ reflexivity | ].
  cbn [tidy]. intros H. apply andb_true_iff in H as [H1 H2].
  specialize (IH H2). simpl. destruct (is_space U c) eqn:Hc.
  - simpl in H1. apply andb_true_iff in H1 as [Hc32 Hnext].
    apply N.eqb_eq in Hc32. subst c.
    destruct s as [| d s']; [ reflexivity | ].
    apply negb_true_iff in Hnext. rewrite Hnext. f_equal. exact IH.
  - f_equal. exact IH.
Qed.

Lemma tidy_tail (c : char) (s : str) :
  tidy U (c :: s) = true -> tidy U s = true.
Proof. cbn [tidy]. intros H. apply andb_true_iff in H as [_ H]. exact H. Qed.

Lemma tidy_drop_while (P : char -> bool) (s : str) :
  tidy U s = true -> tidy U (drop_while P s) = true.
Proof.
  induction s as [| c s IH]; [ intros _; reflexivity | ].
  intros H. simpl. destruct (P c); [ | exact H ].
  apply IH. eapply tidy_tail. exact H.
Qed.

Lemma tidy_prefix (a b : str) : tidy U (a ++ b) = true -> tidy U a = true.
Proof.
  induction a as [| c a IH]; [ intros _; reflexivity | ].
  simpl. intros H. apply andb_true_iff in H as [H1 H2].
  rewrite (IH H2), andb_true_r.
  destruct a as [| d a']; [ | exact H1 ].
  destruct (is_space U c); [ | reflexivity ].
  simpl in *. apply andb_true_iff in H1 as [-> _]. reflexivity.
Qed.

Lemma tidy_strip (s : str) : tidy U s = true -> tidy U (strip U s) = true.
Proof.
  intros H. unfold strip.
  destruct (rstrip_split (lstrip U s)) as [post Hp].
  apply (tidy_prefix _ post). rewrite <- Hp.
  apply tidy_drop_while. exact H.
Qed.

Lemma sub_from_spaces :
  forall n prev s,
    (length s < n)%nat ->
    sub_from U re_spaces (py " ") n prev s = collapse U s.
Proof.
  induction n as [| n IH]; intros prev s Hn; [ lia | ].
  destruct s as [| c s]; [ reflexivity | ].
  cbn [sub_from]. unfold match_here, re_spaces, plus.
  rewrite rmatch_Cat, rmatch_Cls.
  assert (Hcls : forall d, cls_match U false false [CSpace] d = is_space U d).
  { intros d. unfold cls_match. simpl. rewrite orb_false_r. reflexivity. }
  rewrite Hcls. destruct (is_space U c) eqn:Hc.
  - destruct (star_loop_greedy_run
                (rmatch U false (Cls false [CSpace]))
                (cls_match U false false [CSpace])
                (fun _ _ _ => eq_refl) (length s) (Some c) s (le_n _))
      as [p' Hp'].
    rewrite rmatch_Star. fold k_end. rewrite Hp'.
    rewrite (drop_while_ext _ (is_space U) s Hcls).
    pose proof (drop_while_length (is_space U) s) as Hlen.
    assert (Hlt : (length (drop_while (is_space U) s) <? length (c :: s))%nat
                  = true) by (apply Nat.ltb_lt; simpl; lia).
    rewrite Hlt. rewrite IH by (simpl in Hn; lia).
        rewrite (collapse_space c s Hc). reflexivity.
  - rewrite IH by (simpl in Hn; lia).
    simpl. rewrite Hc. reflexivity.
Qed.

Lemma name_char_cls (c : char) :
  negb (cls_match U false true [CWord; CSpace; CChar 45] c) = name_char U c.
Proof.
  unfold cls_match, name_char, citem_match, char_eq. simpl.
  destruct (is_word U c), (is_space U c), (c =? 45); reflexivity.
Qed.

(** The last two substitutions as list functions. *)
Lemma re_sub_spaces (s : str) : re_sub U re_spaces (py " ") s = collapse U s.
Proof. apply sub_from_spaces. lia. Qed.

Lemma re_sub_not_name_char (s : str) :
  re_sub U re_not_name_char [] s = List.filter (name_char U) s.
Proof.
  unfold re_sub, re_not_name_char. rewrite sub_from_cls by lia.
  apply filter_ext, name_char_cls.
Qed.

Lemma normalize_Some (s t : str) :
  normalize_ingredient_name U s = Some t ->
  t <> []
  /\ t = strip U (collapse U (List.filter (name_char U)
            (re_sub U re_bracketed [] (unidecode U (str_lower U s))))).
Proof.
  unfold normalize_ingredient_name. destruct s as [| c s]; [ discriminate | ].
  cbv zeta. rewrite re_sub_spaces, re_sub_not_name_char.
  destruct (strip U _) as [| d t'] eqn:E; [ discriminate | ].
  intros H. inversion H; subst.
  split; [ intros Hnil; discriminate Hnil | reflexivity ].
Qed.

Lemma filter_all (P : char -> bool) (s : str) :
  (forall c, c ∈ s -> P c = true) -> List.filter P s = s.
Proof.
  induction s as [| c s IH]; intros H; [ reflexivity | ].
  simpl. rewrite (H c) by left. f_equal. apply IH.
  intros d Hd. apply H. right. exact Hd.
Qed.

Lemma normalize_name_chars (s t : str) (c : char) :
  normalize_ingredient_name U s = Some t -> c ∈ t -> name_char U c = true.
Proof.
  intros H Hc. apply normalize_Some in H as [_ ->].
  apply strip_elem, collapse_elem in Hc as [Hc | ->]; [ | reflexivity ].
  apply list_elem_of_In, filter_In in Hc as [_ Hc]. exact Hc.
Qed.

(** No normalized name holds a colon. *)
Lemma normalize_no_colon (s t : str) :
  normalize_ingredient_name U s = Some t -> 58 ∉ t.
Proof.
  intros H Hc. apply (normalize_name_chars _ _ _ H) in Hc. discriminate Hc.
Qed.

Lemma lower_fixed (t : str) :
  all_ascii t -> no_upper t -> str_lower U t = t.
Proof.
  intros Ha Hu. unfold str_lower.
  assert (forallb is_ascii t = true) as ->.
  { apply forallb_forall. intros c Hc.
    apply list_elem_of_In in Hc.
    exact (proj1 (Forall_forall _ _) Ha c Hc). }
  induction Hu as [| c t Hc Hu IH]; [ reflexivity | ].
  simpl. unfold ascii_lower at 1. rewrite Hc. f_equal. apply IH.
  inversion Ha; assumption.
Qed.

Lemma unidecode_ascii (t : str) : all_ascii t -> unidecode U t = t.
Proof.
  intros Ha. unfold unidecode.
  induction Ha as [| c t Hc Ha IH]; [ reflexivity | ].
  simpl. rewrite Hc. simpl. f_equal. exact IH.
Qed.

Lemma bracketed_no_match (t : str) :
  (forall c, c ∈ t -> name_char U c = true) ->
  re_sub U re_bracketed [] t = t.
Proof.
  intros H. apply sub_from_no_match. intros p t' [pre ->].
  unfold match_here, re_bracketed. cbn [rmatch].
  destruct t' as [| c t']; [ reflexivity | ].
  assert (Hc : name_char U c = true).
  { apply H. apply elem_of_app. right. left. }
  unfold cls_match. simpl. rewrite orb_false_r.
  destruct (c =? 40) eqn:E1.
  { apply N.eqb_eq in E1. subst c. discriminate Hc. }
  destruct (c =? 91) eqn:E2.
  { apply N.eqb_eq in E2. subst c. discriminate Hc. }
  reflexivity.
Qed.

(** A normalized name of ASCII characters without capitals is left as it
    is by the normalizer. *)
Lemma normalize_fixed (s t : str) :
  normalize_ingredient_name U s = Some t ->
  all_ascii t -> no_upper t ->
  normalize_ingredient_name U t = Some t.
Proof.
  intros H Ha Hu.
  pose proof (fun c => normalize_name_chars s t c H) as Hchars.
  apply normalize_Some in H as [Hne Ht].
  assert (Htidy : tidy U t = true).
  { rewrite Ht. apply tidy_strip, tidy_collapse. }
  assert (Hok : head_ok U t /\ head_ok U (rev t)).
  { rewrite Ht. apply strip_ok. }
  clear Ht. unfold normalize_ingredient_name.
  destruct t as [| c t']; [ congruence | ].
  cbv zeta. set (t := c :: t') in *.
  rewrite (lower_fixed _ Ha Hu), (unidecode_ascii _ Ha).
  rewrite (bracketed_no_match _ (fun c Hc => Hchars c Hc)).
  rewrite re_sub_not_name_char.
  rewrite (filter_all _ _ (fun c Hc => Hchars c Hc)).
  rewrite re_sub_spaces, (collapse_tidy _ Htidy).
  rewrite (strip_fixed _ (proj1 Hok) (proj2 Hok)). reflexivity.
Qed.

Lemma ascii_lower_facts (c : char) :
  is_ascii c = true ->
  is_ascii (ascii_lower c) = true /\ ascii_upper (ascii_lower c) = false.
Proof.
  unfold is_ascii, ascii_lower, ascii_upper, in_range. intros H.
  apply N.ltb_lt in H.
  destruct (65 <=? c) eqn:E1; destruct (c <=? 90) eqn:E2; simpl;
    rewrite ?E1, ?E2; simpl; split; try reflexivity;
    try (apply N.ltb_lt; apply N.leb_le in E2; lia);
    try (apply N.ltb_lt; lia).
  apply andb_false_iff. right. apply N.leb_gt. apply N.leb_le in E1. lia.
Qed.

(** On an ASCII text the normalizer gives an ASCII name without capitals. *)
Lemma normalize_ascii (s t : str) :
  all_ascii s ->
  normalize_ingredient_name U s = Some t ->
  all_ascii t /\ no_upper t.
Proof.
  intros Ha H. apply normalize_Some in H as [_ Ht].
  assert (Hs : forall d, d ∈ s -> is_ascii d = true)
    by (apply Forall_forall; exact Ha).
  assert (Hlow : str_lower U s = map ascii_lower s).
  { unfold str_lower.
    assert (forallb is_ascii s = true) as ->; [ | reflexivity ].
    apply forallb_forall. intros d Hd. apply Hs, list_elem_of_In, Hd. }
  assert (Hl : forall d, d ∈ map ascii_lower s ->
            is_ascii d = true /\ ascii_upper d = false).
  { intros d Hd. apply list_elem_of_In, in_map_iff in Hd as (e & <- & He).
    apply ascii_lower_facts, Hs, list_elem_of_In, He. }
  assert (Hc : forall c, c ∈ t ->
            is_ascii c = true /\ ascii_upper c = false).
  { intros c Hc. rewrite Ht in Hc.
    apply strip_elem, collapse_elem in Hc as [Hc | ->];
      [ | split; reflexivity ].
    apply list_elem_of_In, filter_In in Hc as [Hc _].
    apply list_elem_of_In, re_sub_chars in Hc as [Hc | Hc];
      [ | inversion Hc ].
    rewrite Hlow, unidecode_ascii in Hc; [ apply Hl, Hc | ].
    apply Forall_forall. intros d Hd. apply Hl, Hd. }
  split; apply Forall_forall; intros c Hin; apply Hc, Hin.
Qed.

End NormalizerFacts.

(** C9, as stated, fails: U+5317 is normalized to ["Bei"], which the
    normalizer then turns into ["bei"]. *)
Lemma normalize_not_idempotent : ~ normalize_idempotent unicode_u5317.
Proof.
  intros H. specialize (H [21271] (py "Bei") eq_refl). discriminate H.
Qed.

(** C9, amended.  A normalized name that is ASCII and holds no capital
    letter is a fixed point of the normalizer, and every name the
    normalizer gives on an ASCII text is of that kind. *)
Theorem normalize_idempotent_ascii (U : unicode) (s t : str) :
  normalize_ingredient_name U s = Some t ->
  (all_ascii t -> no_upper t -> normalize_ingredient_name U t = Some t)
  /\ (all_ascii s -> all_ascii t /\ no_upper t).
Proof.
  intros H. split.
  - exact (normalize_fixed U s t H).
  - intros Ha. exact (normalize_ascii U s t Ha H).
Qed.

Lemma normalize_idempotent_ascii_witness :
  normalize_ingredient_name unicode_u5317 (py "Wheat  Flour (organic)")
  = Some (py "wheat flour")
  /\ normalize_ingredient_name unicode_u5317 (py "wheat flour")
     = Some (py "wheat flour").
Proof.
  split; [ reflexivity | ].
  apply (normalize_idempotent_ascii unicode_u5317
           (py "Wheat  Flour (organic)") (py "wheat flour") eq_refl);
    repeat constructor.
Defined.

(** ** The splitter on the examples of the specification *)

Section SplitterExamples.

Context (U : unicode).

(** The nesting-aware split leaves the comma inside the parentheses alone. *)
Lemma split_nested_example :
  re_split U re_top_comma (py "water, flavour (contains: sulphites, 2%)")
  = [py "water"; py "flavour (contains: sulphites, 2%)"].
Proof. reflexivity. Qed.

(** The normalizer, given the whole second fragment, removes the
    parenthesized part. *)
Lemma normalize_nested_example :
  normalize_ingredient_name U (py "flavour (contains: sulphites, 2%)")
  = Some (py "flavour").
Proof. reflexivity. Qed.

(** C1.  On ["water, flavour (contains: sulphites, 2%)"] the splitter
    returns the set of ["water"] and ["flavour contains"]: the inner comma
    makes no third fragment, but the second fragment is cut at its colon
    before the parenthesized part is removed, so the name ["flavour"] is
    not in the result. *)
Theorem parse_nested_example :
  parse_ingredients_from_text U
    (PStr (py "water, flavour (contains: sulphites, 2%)"))
  = inr ({[ py "water"; py "flavour contains" ]} : gset str)
  /\ py "flavour" ∉ ({[ py "water"; py "flavour contains" ]} : gset str).
Proof.
  split; [ vm_compute; reflexivity | ].
  intros H. apply elem_of_union in H as [H | H];
    apply elem_of_singleton in H; discriminate H.
Qed.

(** C2.  On the fragment ["en:water"] the splitter keeps the text before
    the colon and drops the text after it: the result is the set of
    ["en"], and ["water"] is not in it. *)
Theorem parse_language_prefix_example :
  clean_item U (py "en:water") = py "en"
  /\ parse_ingredients_from_text U (PStr (py "en:water"))
     = inr ({[ py "en" ]} : gset str)
  /\ py "water" ∉ ({[ py "en" ]} : gset str).
Proof.
  split; [ reflexivity | split; [ vm_compute; reflexivity | ] ].
  intros H. apply elem_of_singleton in H. discriminate H.
Qed.

End SplitterExamples.

(** ** Reasoning about computations *)

Section Logic.

Lemma hoare_consequence {A} (P P' : state -> Prop) (m : M A)
    (Q Q' : A -> state -> Prop) (E E' : state -> Prop) :
  hoare P' m Q' E' ->
  (forall st, P st -> P' st) ->
  (forall a st, Q' a st -> Q a st) ->
  (forall st, E' st -> E st) ->
  hoare P m Q E.
Proof.
  intros H HP HQ HE st Hst. specialize (H st (HP st Hst)).
  destruct (m st); auto.
Qed.

Lemma hoare_ret {A} (P : state -> Prop) (a : A) (Q : A -> state -> Prop) E :
  (forall st, P st -> Q a st) -> hoare P (mret a) Q E.
Proof. intros H st Hst. apply H, Hst. Qed.

Lemma hoare_bind {A B} (P : state -> Prop) (m : M A) (k : A -> M B)
    (R : A -> state -> Prop) (Q : B -> state -> Prop) E :
  hoare P m R E -> (forall a, hoare (R a) (k a) Q E) -> hoare P (m ≫= k) Q E.
Proof.
  intros Hm Hk st Hst. specialize (Hm st Hst).
  unfold mbind, M_bind. destruct (m st) as [a st' | e st'].
  - apply Hk, Hm.
  - exact Hm.
Qed.

Lemma hoare_read {A} (P : state -> Prop) (f : state -> A) E :
  hoare P (read f) (fun a st => P st /\ a = f st) E.
Proof. intros st Hst. split; [ exact Hst | reflexivity ]. Qed.

Lemma hoare_read_bind {A B} (P : state -> Prop) (f : state -> A)
    (k : A -> M B) (Q : B -> state -> Prop) E :
  (forall a, hoare P (k a) Q E) -> hoare P (read f ≫= k) Q E.
Proof. intros Hk st Hst. exact (Hk (f st) st Hst). Qed.

Lemma hoare_update (P : state -> Prop) (f : state -> state)
    (Q : unit -> state -> Prop) E :
  (forall st, P st -> Q tt (f st)) -> hoare P (update f) Q E.
Proof. intros H st Hst. apply H, Hst. Qed.

Lemma hoare_writerow (P : state -> Prop) (r : row)
    (Q : unit -> state -> Prop) (E : state -> Prop) :
  (forall st, P st -> quota st <> Some O -> Q tt (push r st)) ->
  (forall st, P st -> quota st = Some O -> E st) ->
  hoare P (writerow r) Q E.
Proof.
  intros HQ HE st Hst. unfold writerow.
  destruct (quota st) as [[| n] |] eqn:Hq.
  - apply HE; assumption.
  - specialize (HQ st Hst). unfold push in HQ. rewrite Hq in HQ.
    apply HQ. discriminate.
  - specialize (HQ st Hst). unfold push in HQ. rewrite Hq in HQ.
    apply HQ. discriminate.
Qed.

Lemma hoare_when (P : state -> Prop) (b : bool) (m : M unit)
    (Q : unit -> state -> Prop) E :
  (b = true -> hoare P m Q E) ->
  (b = false -> forall st, P st -> Q tt st) ->
  hoare P (when b m) Q E.
Proof.
  intros Ht Hf. destruct b; simpl.
  - apply Ht. reflexivity.
  - apply hoare_ret, Hf. reflexivity.
Qed.

Lemma hoare_for_each {A} (I : state -> Prop) (l : list A)
    (body : A -> M unit) E :
  (forall x, x ∈ l -> hoare I (body x) (fun _ => I) E) ->
  hoare I (for_each l body) (fun _ => I) E.
Proof.
  induction l as [| x l IH]; intros H; simpl.
  - apply hoare_ret. auto.
  - eapply hoare_bind.
    + apply H. left.
    + intros []. apply IH. intros y Hy. apply H. right. exact Hy.
Qed.

Lemma hoare_lift {A} (P : state -> Prop) (r : exn + A)
    (Q : A -> state -> Prop) (E : state -> Prop) :
  (forall a st, r = inr a -> P st -> Q a st) ->
  (forall e st, r = inl e -> P st -> E st) ->
  hoare P (lift r) Q E.
Proof.
  intros HQ HE st Hst. destruct r as [e | a]; simpl.
  - eapply HE; [ reflexivity | exact Hst ].
  - eapply HQ; [ reflexivity | exact Hst ].
Qed.

Lemma hoare_try_logged (P : state -> Prop) (m : M unit)
    (Q : unit -> state -> Prop) (E F : state -> Prop) :
  hoare P m Q E ->
  (forall msg st, E st -> Q tt (logged msg st)) ->
  hoare P (try_logged m) Q F.
Proof.
  intros H HE st Hst. specialize (H st Hst). unfold try_logged.
  destruct (m st) as [a st' | e st'].
  - destruct a. exact H.
  - destruct e; simpl; apply HE, H.
Qed.

End Logic.

(** ** The ledgers and the node rows *)

Section Ledger.

Context (U : unicode).

Lemma node_keys_app (a b : list row) :
  node_keys (a ++ b) = node_keys a ++ node_keys b.
Proof. apply omap_app. Qed.

Lemma ledger_inv_same (st st' : state) :
  out st' = out st ->
  (forall l, ledger_of l st' = ledger_of l st) ->
  ledger_inv st -> ledger_inv st'.
Proof.
  intros Ho Hl (H1 & H2 & H3). unfold ledger_inv. rewrite Ho.
  split; [ exact H1 | split ].
  - intros lbl id H. rewrite Hl. apply H2, H.
  - intros lbl id H. rewrite Hl in H. apply H3, H.
Qed.

Lemma ledger_inv_push (st : state) (r : row) :
  node_key r = None -> ledger_inv st -> ledger_inv (push r st).
Proof.
  intros Hr (H1 & H2 & H3). unfold ledger_inv. simpl.
  assert (node_keys (out st ++ [r]) = node_keys (out st)) as ->.
  { rewrite node_keys_app. cbv [node_keys omap list_omap]. rewrite Hr.
    apply app_nil_r. }
  split; [ exact H1 | split ].
  - intros lbl id H. apply H2 in H. destruct lbl; exact H.
  - intros lbl id H. apply elem_of_app. left. apply H3.
    destruct lbl; exact H.
Qed.

Lemma ledger_inv_fresh (st st' : state) (lbl : label) (name : str) :
  lbl <> Product ->
  ledger_inv st ->
  name ∉ ledger_of lbl st ->
  out st' = out st ++ [NodeRow name (PStr []) lbl] ->
  ledger_of lbl st' = {[ name ]} ∪ ledger_of lbl st ->
  (forall l, l <> lbl -> ledger_of l st' = ledger_of l st) ->
  ledger_inv st'.
Proof.
  intros Hlbl (H1 & H2 & H3) Hfresh Ho Hl Hother.
  assert (Hk : node_keys (out st') = node_keys (out st) ++ [(lbl, name)]).
  { rewrite Ho, node_keys_app. f_equal.
    destruct lbl; first [ reflexivity | congruence ]. }
  unfold ledger_inv. rewrite Hk. split; [ | split ].
  - apply NoDup_app. split; [ exact H1 | split ].
    + intros k Hin Hk'. apply list_elem_of_singleton in Hk'. subst k.
      apply Hfresh, H2, Hin.
    + apply NoDup_singleton.
  - intros l id H. apply elem_of_app in H as [H | H].
    + apply H2 in H. destruct (decide (l = lbl)) as [-> | Hne].
      * rewrite Hl. apply elem_of_union. right. exact H.
      * rewrite Hother by exact Hne. exact H.
    + apply list_elem_of_singleton in H. inversion H; subst.
      rewrite Hl. apply elem_of_union. left. apply elem_of_singleton.
      reflexivity.
  - intros l id H. rewrite Ho. apply elem_of_app.
    destruct (decide (l = lbl)) as [-> | Hne].
    + rewrite Hl in H. apply elem_of_union in H as [H | H].
      * apply elem_of_singleton in H. subst id. right. left.
      * left. apply H3, H.
    + rewrite Hother in H by exact Hne. left. apply H3, H.
Qed.

Lemma preserves_ret {A} (I : state -> Prop) (a : A) : preserves I (mret a).
Proof. apply hoare_ret. auto. Qed.

Lemma preserves_bind {A B} (I : state -> Prop) (m : M A) (k : A -> M B) :
  preserves I m -> (forall a, preserves I (k a)) -> preserves I (m ≫= k).
Proof. intros Hm Hk. eapply hoare_bind; [ exact Hm | exact Hk ]. Qed.

Lemma preserves_read_bind {A B} (I : state -> Prop) (f : state -> A)
    (k : A -> M B) :
  (forall a, preserves I (k a)) -> preserves I (read f ≫= k).
Proof.
  intros Hk. apply preserves_bind; [ | exact Hk ].
  intros st H. exact H.
Qed.

Lemma preserves_when (I : state -> Prop) (b : bool) (m : M unit) :
  preserves I m -> preserves I (when b m).
Proof. intros H. apply hoare_when; auto. Qed.

Lemma preserves_for_each {A} (I : state -> Prop) (l : list A)
    (body : A -> M unit) :
  (forall x, preserves I (body x)) -> preserves I (for_each l body).
Proof. intros H. apply hoare_for_each. intros x _. apply H. Qed.

Lemma preserves_lift {A} (I : state -> Prop) (r : exn + A) :
  preserves I (lift r).
Proof. apply hoare_lift; auto. Qed.

Lemma preserves_logging (m : logmsg) : preserves ledger_inv (logging m).
Proof.
  apply hoare_update. intros st H.
  apply (ledger_inv_same st); [ reflexivity | intros []; reflexivity | exact H ].
Qed.

Lemma preserves_incr_processed : preserves ledger_inv incr_processed.
Proof.
  apply hoare_update. intros st H.
  apply (ledger_inv_same st); [ reflexivity | intros []; reflexivity | exact H ].
Qed.

Lemma preserves_incr_skipped : preserves ledger_inv incr_skipped.
Proof.
  apply hoare_update. intros st H.
  apply (ledger_inv_same st); [ reflexivity | intros []; reflexivity | exact H ].
Qed.

Lemma preserves_writerow (r : row) :
  node_key r = None -> preserves ledger_inv (writerow r).
Proof.
  intros Hr. apply hoare_writerow; [ | auto ].
  intros st H _. apply ledger_inv_push; assumption.
Qed.

(** A node row is written only for a name its ledger does not hold, and
    the name is entered at once. *)
Ltac node_once lbl :=
  let st := fresh "st" in
  let H := fresh "H" in
  let Hb := fresh "Hb" in
  intros st H; unfold mbind, M_bind, read, when; simpl;
  match goal with
  | |- context [bool_decide ?P] => destruct (bool_decide_reflect P) as [Hb | Hb]
  end; simpl; [ exact H | ];
  unfold writerow; destruct (quota st) as [[| ?] |]; simpl;
  [ exact H | | ];
  (eapply (ledger_inv_fresh st _ lbl);
   [ discriminate | exact H | exact Hb | reflexivity | reflexivity
   | intros [] ?; solve [ reflexivity | congruence ] ]).

Lemma preserves_write_ingredient_node (name : str) :
  preserves ledger_inv (write_ingredient_node name).
Proof. unfold write_ingredient_node. node_once Ingredient. Qed.

Lemma preserves_ingredient_rows (product_code ing_name : str) :
  preserves ledger_inv (ingredient_rows U product_code ing_name).
Proof.
  unfold ingredient_rows.
  apply preserves_bind; [ apply preserves_write_ingredient_node | intros _ ].
  apply preserves_bind; [ apply preserves_writerow; reflexivity | intros _ ].
  apply preserves_bind; [ | intros _ ].
  - apply preserves_for_each. intros [pat a].
    do 2 apply preserves_when. apply preserves_writerow. reflexivity.
  - apply preserves_for_each. intros [diet conflicts].
    apply preserves_when. apply preserves_writerow. reflexivity.
Qed.

Lemma preserves_proxy_rows (product_code : str) (parsed : gset str)
    (allergen_name : str) :
  preserves ledger_inv (proxy_rows U product_code parsed allergen_name).
Proof.
  unfold proxy_rows. apply preserves_when.
  apply preserves_bind; [ apply preserves_write_ingredient_node | intros _ ].
  apply preserves_bind; apply preserves_writerow || intros _; try reflexivity.
  apply preserves_writerow. reflexivity.
Qed.

Lemma preserves_accepted_product (product_doc : doc) (product_code : str) :
  preserves ledger_inv (accepted_product U product_doc product_code).
Proof.
  unfold accepted_product.
  apply preserves_bind; [ apply preserves_writerow; reflexivity | intros _ ].
  apply preserves_bind; [ apply preserves_lift | intros parsed ].
  apply preserves_bind;
    [ apply preserves_for_each; intros x; apply preserves_ingredient_rows
    | intros _ ].
  apply preserves_bind;
    [ apply preserves_for_each; intros x; apply preserves_proxy_rows
    | intros _ ].
  apply preserves_bind;
    [ apply preserves_for_each; intros x; apply preserves_writerow; reflexivity
    | intros _ ].
  apply preserves_bind;
    [ apply preserves_for_each; intros x; apply preserves_writerow; reflexivity
    | intros _ ].
  apply preserves_incr_processed.
Qed.

Lemma preserves_process_product (product_doc : doc) :
  preserves ledger_inv (process_product U product_doc).
Proof.
  unfold process_product. destruct (accepted_code U _) as [code |].
  - apply preserves_accepted_product.
  - apply preserves_bind; [ apply preserves_logging | intros _ ].
    apply preserves_incr_skipped.
Qed.

Lemma preserves_write_tsv (products_cursor : list doc) :
  preserves ledger_inv (write_tsv U products_cursor).
Proof.
  unfold write_tsv.
  apply preserves_bind; [ apply preserves_writerow; reflexivity | intros _ ].
  apply preserves_bind; [ | intros _ ].
  { apply preserves_for_each. intros x. node_once Allergen. }
  apply preserves_read_bind. intros n.
  apply preserves_bind; [ apply preserves_logging | intros _ ].
  apply preserves_bind; [ | intros _ ].
  { apply preserves_for_each. intros x. node_once DietaryPreference. }
  apply preserves_read_bind. intros n'.
  apply preserves_bind; [ apply preserves_logging | intros _ ].
  apply preserves_bind;
    [ apply preserves_for_each; intros x; apply preserves_process_product
    | intros _ ].
  apply preserves_read_bind. intros c.
  apply preserves_bind; [ apply preserves_logging | intros _ ].
  apply preserves_read_bind. intros k.
  apply preserves_when, preserves_logging.
Qed.

Lemma ledger_inv_logged (m : logmsg) (st : state) :
  ledger_inv st -> ledger_inv (logged m st).
Proof.
  intros H.
  apply (ledger_inv_same st); [ reflexivity | intros []; reflexivity | exact H ].
Qed.

Lemma preserves_generate_csv_data (products_cursor : list doc) :
  preserves ledger_inv (generate_csv_data U products_cursor).
Proof.
  unfold generate_csv_data.
  apply preserves_bind; [ apply preserves_logging | intros _ ].
  destruct (length products_cursor =? 0)%nat; [ apply preserves_logging | ].
  eapply hoare_try_logged; [ apply preserves_write_tsv | ].
  intros msg st. apply ledger_inv_logged.
Qed.

Lemma ledger_inv_start (q : option nat) : ledger_inv (start q).
Proof.
  unfold ledger_inv, start. simpl. split; [ constructor | split ].
  - intros lbl id H. inversion H.
  - intros lbl id H. destruct lbl; simpl in H; apply elem_of_empty in H;
      contradiction.
Qed.

End Ledger.

(** ** Counting rows *)

Section Counting.

Lemma count_app (P : row -> bool) (a b : list row) :
  count P (a ++ b) = (count P a + count P b)%nat.
Proof. unfold count. rewrite List.filter_app, length_app. reflexivity. Qed.

Lemma count_sublist (P : row -> bool) (a b : list row) :
  a `sublist_of` b -> (count P a <= count P b)%nat.
Proof.
  unfold count. induction 1 as [| x a b _ IH | x a b _ IH]; simpl.
  - lia.
  - destruct (P x); simpl; lia.
  - destruct (P x); simpl; lia.
Qed.

Lemma count_none (P : row -> bool) (l : list row) :
  (forall r, r ∈ l -> P r = false) -> count P l = O.
Proof.
  unfold count. induction l as [| x l IH]; intros H; [ reflexivity | ].
  simpl. rewrite (H x) by left. apply IH. intros r Hr. apply H. right. exact Hr.
Qed.

Lemma count_zero_elem (P : row -> bool) (l : list row) (r : row) :
  count P l = O -> r ∈ l -> P r = false.
Proof.
  unfold count. induction l as [| x l IH]; intros H Hr; [ inversion Hr | ].
  simpl in H. destruct (P x) eqn:Hx; [ discriminate | ].
  apply elem_of_cons in Hr as [-> | Hr]; [ exact Hx | apply IH; assumption ].
Qed.

Lemma count_flat_map_none {A} (P : row -> bool) (h : A -> list row)
    (l : list A) :
  (forall x, x ∈ l -> count P (h x) = O) -> count P (flat_map h l) = O.
Proof.
  induction l as [| x l IH]; intros H; [ reflexivity | ].
  simpl. rewrite count_app, (H x) by left. apply IH.
  intros y Hy. apply H. right. exact Hy.
Qed.

(** Over a list without duplicates where only the rows of [a] can count. *)
Lemma count_flat_map_once {A} `{EqDecision A} (P : row -> bool)
    (h : A -> list row) (l : list A) (a : A) :
  NoDup l ->
  (forall x, x ∈ l -> x <> a -> count P (h x) = O) ->
  (count P (flat_map h l) <= count P (h a))%nat.
Proof.
  intros Hnd Hother.
  induction Hnd as [| x l Hx Hnd IH]; [ unfold count; simpl; lia | ].
  simpl. rewrite count_app.
  destruct (decide (x = a)) as [-> | Hne].
  - rewrite (count_flat_map_none P h l); [ lia | ].
    intros y Hy. apply Hother; [ right; exact Hy | ].
    intros ->. contradiction.
  - rewrite (Hother x) by (left || exact Hne).
    apply IH. intros y Hy. apply Hother. right. exact Hy.
Qed.

Lemma count_map_once {A} `{EqDecision A} (P : row -> bool) (f : A -> row)
    (l : list A) (a : A) :
  NoDup l ->
  (forall x, x <> a -> P (f x) = false) ->
  (count P (map f l) <= 1)%nat.
Proof.
  intros Hnd Hother.
  induction Hnd as [| x l Hx Hnd IH]; [ unfold count; simpl; lia | ].
  unfold count in *. simpl. destruct (decide (x = a)) as [-> | Hne].
  - assert (List.filter P (map f l) = []) as ->.
    { clear IH Hnd. induction l as [| y l IH]; [ reflexivity | ].
      simpl. rewrite Hother.
      - apply IH. intros Hy. apply Hx. right. exact Hy.
      - intros ->. apply Hx. left. }
    destruct (P (f a)); simpl; lia.
  - rewrite (Hother x Hne). exact IH.
Qed.

End Counting.

(** ** The rows a computation can write *)

Section Writes.

Lemma ww_weaken {A} (m : M A) (l l' : list row) :
  writes_within m l -> l `sublist_of` l' -> writes_within m l'.
Proof.
  intros H Hl st. destruct (H st) as (rs & Ho & Hs).
  exists rs. split; [ exact Ho | etrans; eassumption ].
Qed.

Lemma ww_ret {A} (a : A) : writes_within (mret a) [].
Proof. intros st. exists []. simpl. rewrite app_nil_r. split; reflexivity. Qed.

Lemma ww_silent {A} (m : M A) :
  (forall st, out (final (m st)) = out st) -> writes_within m [].
Proof.
  intros H st. exists []. rewrite H, app_nil_r. split; reflexivity.
Qed.

Lemma ww_writerow (r : row) : writes_within (writerow r) [r].
Proof.
  intros st. unfold writerow. destruct (quota st) as [[| n] |]; simpl.
  - exists []. rewrite app_nil_r. split; [ reflexivity | apply sublist_nil_l ].
  - exists [r]. split; reflexivity.
  - exists [r]. split; reflexivity.
Qed.

Lemma ww_bind {A B} (m : M A) (k : A -> M B) (l1 l2 : list row) :
  writes_within m l1 -> (forall a, writes_within (k a) l2) ->
  writes_within (m ≫= k) (l1 ++ l2).
Proof.
  intros Hm Hk st. destruct (Hm st) as (rs1 & Ho1 & Hs1).
  unfold mbind, M_bind. destruct (m st) as [a st' | e st']; simpl in *.
  - destruct (Hk a st') as (rs2 & Ho2 & Hs2).
    exists (rs1 ++ rs2). rewrite Ho2, Ho1, app_assoc.
    split; [ reflexivity | apply sublist_app; assumption ].
  - exists rs1. split; [ exact Ho1 | ].
    apply sublist_inserts_r. exact Hs1.
Qed.

Lemma ww_bind_silent {A B} (m : M A) (k : A -> M B) (l : list row) :
  writes_within m [] -> (forall a, writes_within (k a) l) ->
  writes_within (m ≫= k) l.
Proof. intros Hm Hk. exact (ww_bind m k [] l Hm Hk). Qed.

Lemma ww_when (b : bool) (m : M unit) (l : list row) :
  writes_within m l -> writes_within (when b m) (if b then l else []).
Proof. intros H. destruct b; [ exact H | apply ww_ret ]. Qed.

Lemma ww_for_each {A} (l : list A) (body : A -> M unit) (h : A -> list row) :
  (forall x, writes_within (body x) (h x)) ->
  writes_within (for_each l body) (flat_map h l).
Proof.
  intros H. induction l as [| x l IH]; simpl.
  - apply ww_ret.
  - apply ww_bind; [ apply H | intros _; exact IH ].
Qed.

Lemma ww_lift_bind {A B} (r : exn + A) (k : A -> M B) (l : list row) :
  (forall a, r = inr a -> writes_within (k a) l) ->
  writes_within (lift r ≫= k) l.
Proof.
  intros H. destruct r as [e | a].
  - intros st. exists []. simpl. rewrite app_nil_r.
    split; [ reflexivity | apply sublist_nil_l ].
  - exact (H a eq_refl).
Qed.

Lemma ww_try_logged (m : M unit) (l : list row) :
  writes_within m l -> writes_within (try_logged m) l.
Proof.
  intros H st. destruct (H st) as (rs & Ho & Hs). exists rs.
  split; [ | exact Hs ]. unfold try_logged.
  destruct (m st) as [a st' | [] st']; exact Ho.
Qed.

End Writes.

(** ** The rows of a record, whatever the outcome *)

Section RecordRows.

Context (U : unicode).

Lemma ww_logging (m : logmsg) : writes_within (logging m) [].
Proof. apply ww_silent. reflexivity. Qed.

Lemma ww_write_ingredient_node (name : str) :
  writes_within (write_ingredient_node name)
    [NodeRow name (PStr []) Ingredient].
Proof.
  unfold write_ingredient_node.
  apply ww_bind_silent; [ apply ww_silent; reflexivity | intros seen ].
  eapply ww_weaken.
  - apply ww_when. eapply (ww_bind _ _ [_] []); [ apply ww_writerow | ].
    intros _. apply ww_silent. reflexivity.
  - destruct (negb _); [ reflexivity | apply sublist_nil_l ].
Qed.

Lemma ww_ingredient_rows (product_code ing_name : str) :
  writes_within (ingredient_rows U product_code ing_name)
    (ingredient_full U product_code ing_name).
Proof.
  unfold ingredient_rows, ingredient_full.
  apply (ww_bind _ _ [_]); [ apply ww_write_ingredient_node | intros _ ].
  apply (ww_bind _ _ [_]); [ apply ww_writerow | intros _ ].
  apply ww_bind; [ | intros _ ].
  - apply ww_for_each. intros [pat a].
    eapply ww_weaken; [ apply ww_when, ww_when, ww_writerow | ].
    destruct (re_search U true pat ing_name), (bool_decide _); reflexivity.
  - apply ww_for_each. intros [diet conflicts].
    apply ww_when, ww_writerow.
Qed.

Lemma ww_proxy_rows (product_code : str) (parsed : gset str)
    (allergen_name : str) :
  writes_within (proxy_rows U product_code parsed allergen_name)
    (proxy_full U product_code parsed allergen_name).
Proof.
  unfold proxy_rows, proxy_full. cbv zeta.
  set (proxy := proxy_ingredient_name allergen_name product_code).
  eapply ww_weaken.
  - apply ww_when.
    apply (ww_bind _ _ [NodeRow proxy (PStr []) Ingredient]);
      [ apply ww_write_ingredient_node | intros _ ].
    apply (ww_bind _ _
             [RelRow HAS_INGREDIENT product_code Product proxy Ingredient]);
      [ apply ww_writerow | intros _ ].
    apply ww_writerow.
  - destruct (is_explained_by_ingredient U parsed allergen_name); reflexivity.
Qed.

Lemma flat_map_singleton {A B} (f : A -> B) (l : list A) :
  flat_map (fun x => [f x]) l = map f l.
Proof. induction l as [| x l IH]; simpl; [ | rewrite IH ]; reflexivity. Qed.

Lemma ww_accepted_product (product_doc : doc) (product_code : str) :
  writes_within (accepted_product U product_doc product_code)
    (product_full U product_doc product_code).
Proof.
  unfold accepted_product, product_full.
  apply ww_bind; [ apply ww_writerow | intros _ ].
  apply ww_lift_bind. intros parsed Hparsed.
  assert (parsed_of U product_doc = parsed) as ->
    by (unfold parsed_of; rewrite Hparsed; reflexivity).
  apply ww_bind; [ apply ww_for_each, ww_ingredient_rows | intros _ ].
  apply ww_bind; [ apply ww_for_each, ww_proxy_rows | intros _ ].
  apply ww_bind; [ | intros _ ].
  { rewrite <- flat_map_singleton. apply ww_for_each. intros x.
    apply ww_writerow. }
  rewrite <- (app_nil_r (map _ _)).
  apply ww_bind; [ | intros _; apply ww_silent; reflexivity ].
  rewrite <- flat_map_singleton. apply ww_for_each. intros x.
  apply ww_writerow.
Qed.

Lemma ww_process_product (product_doc : doc) :
  writes_within (process_product U product_doc) (record_full U product_doc).
Proof.
  unfold process_product, record_full.
  destruct (accepted_code U _) as [code |].
  - apply ww_accepted_product.
  - apply ww_silent. reflexivity.
Qed.

(** The shapes of the rows. *)
Lemma allergen_full_shape (ing_name : str) (r : row) :
  r ∈ allergen_full U ing_name ->
  exists a, a ∈ KNOWN_ALLERGENS
            /\ r = RelRow IS_ALLERGEN ing_name Ingredient a Allergen.
Proof.
  unfold allergen_full. intros H.
  apply list_elem_of_In, in_flat_map in H as ([pat a] & _ & H).
  destruct (re_search U true pat ing_name); [ | inversion H ].
  destruct (bool_decide_reflect (a ∈ KNOWN_ALLERGENS)) as [Ha | Ha];
    [ | inversion H ].
  simpl in H. destruct H as [<- | []]. exists a.
  split; [ exact Ha | reflexivity ].
Qed.

Lemma conflict_full_shape (ing_name : str) (r : row) :
  r ∈ conflict_full U ing_name ->
  exists dp, r = RelRow CONFLICTS_WITH_DIET ing_name Ingredient dp
                   DietaryPreference.
Proof.
  unfold conflict_full. intros H.
  apply list_elem_of_In, in_flat_map in H as ([dp conflicts] & _ & H).
  destruct (is_conflicting_ingredient U ing_name conflicts); [ | inversion H ].
  simpl in H. destruct H as [<- | []]. exists dp. reflexivity.
Qed.

Lemma ingredient_full_shape (product_code ing_name : str) (r : row) :
  r ∈ ingredient_full U product_code ing_name ->
  r = NodeRow ing_name (PStr []) Ingredient
  \/ r = RelRow HAS_INGREDIENT product_code Product ing_name Ingredient
  \/ (exists a, a ∈ KNOWN_ALLERGENS
                /\ r = RelRow IS_ALLERGEN ing_name Ingredient a Allergen)
  \/ (exists dp, r = RelRow CONFLICTS_WITH_DIET ing_name Ingredient dp
                       DietaryPreference).
Proof.
  unfold ingredient_full. intros H.
  apply elem_of_app in H as [H | H].
  - apply elem_of_cons in H as [-> | H]; [ left; reflexivity | ].
    apply list_elem_of_singleton in H. right. left. exact H.
  - apply elem_of_app in H as [H | H].
    + right. right. left. apply allergen_full_shape, H.
    + right. right. right. apply conflict_full_shape, H.
Qed.

Lemma proxy_full_shape (product_code : str) (parsed : gset str)
    (allergen_name : str) (r : row) :
  r ∈ proxy_full U product_code parsed allergen_name ->
  is_explained_by_ingredient U parsed allergen_name = false
  /\ (r = NodeRow (proxy_ingredient_name allergen_name product_code)
            (PStr []) Ingredient
      \/ r = RelRow HAS_INGREDIENT product_code Product
               (proxy_ingredient_name allergen_name product_code) Ingredient
      \/ r = RelRow IS_ALLERGEN
               (proxy_ingredient_name allergen_name product_code) Ingredient
               allergen_name Allergen).
Proof.
  unfold proxy_full.
  destruct (is_explained_by_ingredient U parsed allergen_name);
    intros H; [ inversion H | split; [ reflexivity | ] ].
  apply elem_of_cons in H as [-> | H]; [ left; reflexivity | ].
  apply elem_of_cons in H as [-> | H]; [ right; left; reflexivity | ].
  apply list_elem_of_singleton in H. right. right. exact H.
Qed.

End RecordRows.

(** ** Names of ingredients, allergens and proxies *)

Section Names.

Context (U : unicode).

Lemma collect_ingredients_elem (l : list str) (acc : gset str) (x : str) :
  x ∈ fold_left
        (fun (normalized_ingredients : gset str) item =>
           match normalize_ingredient_name U (clean_item U item) with
           | Some normalized => {[ normalized ]} ∪ normalized_ingredients
           | None => normalized_ingredients
           end) l acc ->
  x ∈ acc \/ exists y, normalize_ingredient_name U y = Some x.
Proof.
  revert acc. induction l as [| item l IH]; intros acc H; [ left; exact H | ].
  cbn [fold_left] in H. apply IH in H as [H | H]; [ | right; exact H ].
  destruct (normalize_ingredient_name U (clean_item U item)) as [n |] eqn:E;
    [ | left; exact H ].
  apply elem_of_union in H as [H | H]; [ | left; exact H ].
  apply elem_of_singleton in H. subst x. right. eexists. exact E.
Qed.

Lemma parse_text_normalized (s x : str) :
  x ∈ parse_text U s -> exists y, normalize_ingredient_name U y = Some x.
Proof.
  unfold parse_text, collect_ingredients. destruct s as [| c s].
  - intros H. apply elem_of_empty in H. contradiction.
  - intros H. apply collect_ingredients_elem in H as [H | H]; [ | exact H ].
    apply elem_of_empty in H. contradiction.
Qed.

Lemma parsed_no_colon (v : pyval) (parsed : gset str) (x : str) :
  parse_ingredients_from_text U v = inr parsed -> x ∈ parsed -> 58 ∉ x.
Proof.
  unfold parse_ingredients_from_text. intros H Hx.
  assert (Hcase : parsed = ∅ \/ exists s, parsed = parse_text U s).
  { revert H. destruct (negb (truthy v)).
    - intros H. left. inversion H. reflexivity.
    - destruct v; try discriminate. intros H. right. eexists.
      inversion H. reflexivity. }
  destruct Hcase as [-> | [s ->]].
  - apply elem_of_empty in Hx. contradiction.
  - apply parse_text_normalized in Hx as [y Hy].
    eapply normalize_no_colon. exact Hy.
Qed.

Lemma parsed_of_no_colon (product_doc : doc) (x : str) :
  x ∈ parsed_of U product_doc -> 58 ∉ x.
Proof.
  unfold parsed_of.
  destruct (parse_ingredients_from_text U _) as [e | parsed] eqn:E.
  - intros H. apply elem_of_empty in H. contradiction.
  - eapply parsed_no_colon. exact E.
Qed.

Lemma known_allergen_colon (a : str) : a ∈ KNOWN_ALLERGENS -> 58 ∈ a.
Proof.
  unfold KNOWN_ALLERGENS. intros H. apply elem_of_list_to_set in H.
  repeat (apply elem_of_cons in H as [-> | H]; [ repeat constructor | ]).
  inversion H.
Qed.

Lemma proxy_colon (a code : str) :
  a ∈ KNOWN_ALLERGENS -> 58 ∈ proxy_ingredient_name a code.
Proof.
  intros H. unfold proxy_ingredient_name. apply elem_of_app. left.
  apply known_allergen_colon, H.
Qed.

Lemma proxy_inj (a a' code : str) :
  proxy_ingredient_name a code = proxy_ingredient_name a' code -> a = a'.
Proof.
  unfold proxy_ingredient_name. rewrite !app_assoc. intros H.
  apply app_inv_tail in H. apply app_inv_tail in H. exact H.
Qed.

Lemma add_known_elem (l : list pyval) (acc : gset str) (x : str) :
  x ∈ fold_left (add_known U) l acc -> x ∈ acc \/ x ∈ KNOWN_ALLERGENS.
Proof.
  revert acc. induction l as [| t l IH]; intros acc H; [ left; exact H | ].
  simpl in H. apply IH in H as [H | H]; [ | right; exact H ].
  unfold add_known, known_tag in H.
  destruct (clean_tag U t) as [[| c s] |]; try (left; exact H).
  destruct (decide (c :: s ∈ KNOWN_ALLERGENS)) as [Hk | Hk];
    [ | left; exact H ].
  apply elem_of_union in H as [H | H]; [ | left; exact H ].
  apply elem_of_singleton in H. subst x. right. exact Hk.
Qed.

Lemma explicit_known (product_doc : doc) (x : str) :
  x ∈ explicit_product_allergens U product_doc -> x ∈ KNOWN_ALLERGENS.
Proof.
  unfold explicit_product_allergens. intros H.
  destruct (get_or product_doc "allergens_tags" (PList []));
    try (apply elem_of_empty in H; contradiction);
    apply add_known_elem in H as [H | H]; try exact H;
    apply elem_of_empty in H; contradiction.
Qed.

Lemma about_ingredient_unique (p q : str) (r : row) :
  about_ingredient p r -> about_ingredient q r -> p = q.
Proof.
  destruct r as [| id name [] | [] f fl t tl]; simpl; try contradiction;
    congruence.
Qed.

Lemma ingredient_full_about (code ing : str) (r : row) :
  r ∈ ingredient_full U code ing -> about_ingredient ing r.
Proof.
  intros H. apply ingredient_full_shape in H
    as [-> | [-> | [(a & _ & ->) | (dp & ->)]]]; reflexivity.
Qed.

Lemma proxy_full_about (code : str) (parsed : gset str) (a : str) (r : row) :
  r ∈ proxy_full U code parsed a ->
  about_ingredient (proxy_ingredient_name a code) r.
Proof.
  intros H. apply proxy_full_shape in H as (_ & [-> | [-> | ->]]); reflexivity.
Qed.

(** Among the rows of a record, those about the proxy of a known allergen
    are rows of that proxy. *)
Lemma count_product_full_proxy (P : row -> bool) (product_doc : doc)
    (code a : str) :
  a ∈ KNOWN_ALLERGENS ->
  (forall r, P r = true -> about_ingredient (proxy_ingredient_name a code) r) ->
  (count P (product_full U product_doc code)
   <= count P (proxy_full U code (parsed_of U product_doc) a))%nat.
Proof.
  intros Ha HP.
  assert (Hno : forall r, ~ about_ingredient (proxy_ingredient_name a code) r ->
                  P r = false).
  { intros r Hr. destruct (P r) eqn:E; [ | reflexivity ].
    exfalso. apply Hr, HP, E. }
  unfold product_full. rewrite !count_app.
  assert (H1 : count P [NodeRow code (product_name_of product_doc code) Product]
               = O).
  { apply count_none. intros r Hr. apply list_elem_of_singleton in Hr.
    subst r. apply Hno. simpl. auto. }
  assert (H2 : count P (flat_map (ingredient_full U code)
                          (elements (parsed_of U product_doc))) = O).
  { apply count_flat_map_none. intros ing Hing. apply count_none.
    intros r Hr. apply Hno. intros Habout.
    apply ingredient_full_about in Hr.
    pose proof (about_ingredient_unique _ _ _ Hr Habout) as ->.
    apply elem_of_elements in Hing.
    apply (parsed_of_no_colon _ _ Hing). apply proxy_colon, Ha. }
  assert (H4 : count P (map (trace_row code)
                          (elements (processed_traces_allergens U product_doc)))
               = O).
  { apply count_none. intros r Hr.
    apply list_elem_of_In, in_map_iff in Hr as (x & <- & _).
    apply Hno. simpl. auto. }
  assert (H5 : count P (map (label_row code)
                          (elements (suitable_diet_prefs_for_product U product_doc)))
               = O).
  { apply count_none. intros r Hr.
    apply list_elem_of_In, in_map_iff in Hr as (x & <- & _).
    apply Hno. simpl. auto. }
  rewrite H1, H2, H4, H5, !Nat.add_0_r. simpl.
  apply count_flat_map_once; [ apply NoDup_elements | ].
  intros x _ Hx. apply count_none. intros r Hr. apply Hno. intros Habout.
  apply proxy_full_about in Hr.
  pose proof (about_ingredient_unique _ _ _ Hr Habout) as Heq.
  apply proxy_inj in Heq. contradiction.
Qed.

End Names.

(** ** Runs on a sink that never fails *)

Section Sure.

Lemma sure_weaken (o R R' : list row) (N N' : list str) (st : state) :
  (forall r, r ∈ R' -> r ∈ R) -> (forall n, n ∈ N' -> n ∈ N) ->
  sure o R N st -> sure o R' N' st.
Proof.
  intros HR HN (Hq & (rs & Ho & Hrs) & Hn).
  split; [ exact Hq | split ].
  - exists rs. split; [ exact Ho | ]. intros r Hr. apply Hrs, HR, Hr.
  - intros n Hin. apply Hn, HN, Hin.
Qed.

Lemma adds_weaken {A} (m : M A) (R R' : list row) (N N' : list str) :
  adds m R N ->
  (forall r, r ∈ R' -> r ∈ R) -> (forall n, n ∈ N' -> n ∈ N) ->
  adds m R' N'.
Proof.
  intros H HR HN o R0 N0.
  eapply hoare_consequence; [ apply (H o R0 N0) | auto | | auto ].
  intros a st. apply sure_weaken.
  - intros r Hr. apply elem_of_app in Hr as [Hr | Hr]; apply elem_of_app;
      [ left; apply HR, Hr | right; exact Hr ].
  - intros n Hn. apply elem_of_app in Hn as [Hn | Hn]; apply elem_of_app;
      [ left; apply HN, Hn | right; exact Hn ].
Qed.

Lemma adds_ret {A} (a : A) : adds (mret a) [] [].
Proof. intros o R0 N0. apply hoare_ret. auto. Qed.

Lemma adds_bind {A B} (m : M A) (k : A -> M B) (R1 R2 : list row)
    (N1 N2 : list str) :
  adds m R1 N1 -> (forall a, adds (k a) R2 N2) ->
  adds (m ≫= k) (R2 ++ R1) (N2 ++ N1).
Proof.
  intros Hm Hk o R0 N0. eapply hoare_bind; [ apply (Hm o R0 N0) | ].
  intros a. rewrite <- !app_assoc. apply Hk.
Qed.

(** [m] then [k], where the rows and names of interest come from [m]. *)
Lemma adds_first {A B} (m : M A) (k : A -> M B) (R : list row) (N : list str) :
  adds m R N -> (forall a, adds (k a) [] []) -> adds (m ≫= k) R N.
Proof. intros Hm Hk. exact (adds_bind m k R [] N [] Hm Hk). Qed.

(** ... or from [k]. *)
Lemma adds_then {A B} (m : M A) (k : A -> M B) (R : list row) (N : list str) :
  adds m [] [] -> (forall a, adds (k a) R N) -> adds (m ≫= k) R N.
Proof.
  intros Hm Hk. pose proof (adds_bind m k [] R [] N Hm Hk) as H.
  rewrite !app_nil_r in H. exact H.
Qed.

Lemma adds_update (f : state -> state) :
  (forall st, quota (f st) = quota st /\ out (f st) = out st
              /\ written_ingredients st ⊆ written_ingredients (f st)) ->
  adds (update f) [] [].
Proof.
  intros Hf o R0 N0. apply hoare_update.
  intros st (Hq & (rs & Ho & Hrs) & Hn).
  destruct (Hf st) as (Hq' & Ho' & Hl').
  split; [ congruence | split ].
  - exists rs. split; [ congruence | exact Hrs ].
  - intros n Hin. apply Hl', Hn, Hin.
Qed.

Lemma adds_logging (m : logmsg) : adds (logging m) [] [].
Proof. apply adds_update. intros st. repeat split; reflexivity. Qed.

Lemma adds_read_bind {A B} (f : state -> A) (k : A -> M B) (R : list row)
    (N : list str) :
  (forall a, adds (k a) R N) -> adds (read f ≫= k) R N.
Proof.
  intros Hk. apply adds_then; [ | exact Hk ].
  intros o R0 N0 st H. exact H.
Qed.

Lemma adds_lift_bind {A B} (r : exn + A) (a : A) (k : A -> M B)
    (R : list row) (N : list str) :
  r = inr a -> adds (k a) R N -> adds (lift r ≫= k) R N.
Proof. intros -> Hk. exact Hk. Qed.

Lemma adds_writerow (r : row) : adds (writerow r) [r] [].
Proof.
  intros o R0 N0. apply hoare_writerow.
  - intros st (Hq & (rs & Ho & Hrs) & Hn) _.
    split; [ simpl; rewrite Hq; reflexivity | split ].
    + exists (rs ++ [r]). simpl. rewrite Ho, app_assoc.
      split; [ reflexivity | ].
      intros r' Hr'. apply elem_of_app.
      apply elem_of_cons in Hr' as [-> | Hr']; [ right; left | ].
      left. apply Hrs, Hr'.
    + exact Hn.
  - intros st (Hq & _) Hq'. congruence.
Qed.

Lemma adds_writerow_quiet (r : row) : adds (writerow r) [] [].
Proof.
  eapply adds_weaken; [ apply adds_writerow | | auto ].
  intros r' Hr'. inversion Hr'.
Qed.

Lemma adds_when (b : bool) (m : M unit) :
  adds m [] [] -> adds (when b m) [] [].
Proof. intros H. destruct b; [ exact H | apply adds_ret ]. Qed.

Lemma adds_for_each {A} (l : list A) (body : A -> M unit) :
  (forall x, adds (body x) [] []) -> adds (for_each l body) [] [].
Proof.
  intros H. induction l as [| x l IH]; simpl.
  - apply adds_ret.
  - apply adds_then; [ apply H | intros _; exact IH ].
Qed.

Lemma adds_for_each_strong {A} (l : list A) (body : A -> M unit) :
  (forall x, x ∈ l -> adds (body x) [] []) -> adds (for_each l body) [] [].
Proof.
  intros H. induction l as [| x l IH]; simpl.
  - apply adds_ret.
  - apply adds_then; [ apply H; left | intros _; apply IH ].
    intros y Hy. apply H. right. exact Hy.
Qed.

(** The rows and names an iteration adds are there after the loop. *)
Lemma adds_for_each_elem {A} (l : list A) (body : A -> M unit) (x : A)
    (R : list row) (N : list str) :
  x ∈ l ->
  (forall y, adds (body y) [] []) ->
  adds (body x) R N ->
  adds (for_each l body) R N.
Proof.
  intros Hx Hall Hbody. induction l as [| y l IH]; [ inversion Hx | ].
  simpl. apply elem_of_cons in Hx as [<- | Hx].
  - apply adds_first; [ exact Hbody | intros _ ]. apply adds_for_each, Hall.
  - apply adds_then; [ apply Hall | intros _ ]. apply IH, Hx.
Qed.

Lemma adds_try_logged (m : M unit) (R : list row) (N : list str) :
  adds m R N -> adds (try_logged m) R N.
Proof.
  intros H o R0 N0 st Hst. specialize (H o R0 N0 st Hst).
  unfold try_logged. destruct (m st) as [a st' | e st']; [ exact H | ].
  contradiction.
Qed.

Lemma adds_write_ingredient_node (name : str) :
  adds (write_ingredient_node name) [] [name].
Proof.
  intros o R0 N0 st (Hq & (rs & Ho & Hrs) & Hn).
  unfold write_ingredient_node, mbind, M_bind, read, when. simpl.
  destruct (bool_decide_reflect (name ∈ written_ingredients st)) as [Hb | Hb];
    simpl.
  - split; [ exact Hq | split ].
    + exists rs. split; [ exact Ho | exact Hrs ].
    + intros n Hin. apply elem_of_cons in Hin as [-> | Hin];
        [ exact Hb | apply Hn, Hin ].
  - unfold writerow. rewrite Hq. simpl.
    split; [ reflexivity | split ].
    + exists (rs ++ [NodeRow name (PStr []) Ingredient]). simpl.
      rewrite Ho, app_assoc. split; [ reflexivity | ].
      intros r Hr. apply elem_of_app. left. apply Hrs, Hr.
    + intros n Hin. apply elem_of_union.
      apply elem_of_cons in Hin as [-> | Hin];
        [ left; apply elem_of_singleton; reflexivity | right; apply Hn, Hin ].
Qed.

End Sure.

Section SureEngine.

Context (U : unicode).

Lemma quiet_ingredient_rows (product_code ing_name : str) :
  adds (ingredient_rows U product_code ing_name) [] [].
Proof.
  unfold ingredient_rows.
  apply adds_then; [ | intros _ ].
  { eapply adds_weaken; [ apply adds_write_ingredient_node | auto | ].
    intros n Hn. inversion Hn. }
  apply adds_then; [ apply adds_writerow_quiet | intros _ ].
  apply adds_then; [ | intros _ ].
  - apply adds_for_each. intros [pat a].
    do 2 apply adds_when. apply adds_writerow_quiet.
  - apply adds_for_each. intros [diet conflicts].
    apply adds_when. apply adds_writerow_quiet.
Qed.

Lemma adds_proxy_rows (product_code : str) (parsed : gset str)
    (allergen_name : str) :
  is_explained_by_ingredient U parsed allergen_name = false ->
  adds (proxy_rows U product_code parsed allergen_name)
    [ RelRow HAS_INGREDIENT product_code Product
        (proxy_ingredient_name allergen_name product_code) Ingredient;
      RelRow IS_ALLERGEN (proxy_ingredient_name allergen_name product_code)
        Ingredient allergen_name Allergen ]
    [ proxy_ingredient_name allergen_name product_code ].
Proof.
  intros He. unfold proxy_rows. rewrite He. simpl.
  set (proxy := proxy_ingredient_name allergen_name product_code).
  eapply adds_weaken.
  - eapply adds_bind; [ apply adds_write_ingredient_node | intros _ ].
    eapply adds_bind; [ apply adds_writerow | intros _ ].
    apply adds_writerow.
  - simpl. intros r Hr.
    apply elem_of_cons in Hr as [-> | Hr]; [ right; left | ].
    apply list_elem_of_singleton in Hr. subst r. left.
  - simpl. auto.
Qed.

Lemma quiet_proxy_rows (product_code : str) (parsed : gset str)
    (allergen_name : str) :
  adds (proxy_rows U product_code parsed allergen_name) [] [].
Proof.
  destruct (is_explained_by_ingredient U parsed allergen_name) eqn:He.
  - unfold proxy_rows. rewrite He. apply adds_ret.
  - eapply adds_weaken; [ apply adds_proxy_rows, He | | ];
      intros x Hx; inversion Hx.
Qed.

Lemma quiet_incr_processed : adds incr_processed [] [].
Proof. apply adds_update. intros st. repeat split; reflexivity. Qed.

Lemma quiet_incr_skipped : adds incr_skipped [] [].
Proof. apply adds_update. intros st. repeat split; reflexivity. Qed.

Section Accepted.

Context (product_doc : doc) (product_code : str) (parsed : gset str).
Hypothesis Hparsed :
  parse_ingredients_from_text U (ingredients_text product_doc) = inr parsed.

Lemma quiet_traces :
  adds (for_each (elements (processed_traces_allergens U product_doc))
          (fun trace_allergen_name =>
             writerow (RelRow MAY_CONTAIN_ALLERGEN product_code Product
                         trace_allergen_name Allergen))) [] [].
Proof. apply adds_for_each. intros x. apply adds_writerow_quiet. Qed.

Lemma quiet_labels :
  adds (for_each (elements (suitable_diet_prefs_for_product U product_doc))
          (fun diet_name =>
             writerow (RelRow IS_SUITABLE_FOR product_code Product
                         diet_name DietaryPreference))) [] [].
Proof. apply adds_for_each. intros x. apply adds_writerow_quiet. Qed.

Lemma quiet_accepted_product :
  adds (accepted_product U product_doc product_code) [] [].
Proof.
  unfold accepted_product.
  apply adds_then; [ apply adds_writerow_quiet | intros _ ].
  apply (adds_lift_bind _ parsed); [ exact Hparsed | ].
  apply adds_then;
    [ apply adds_for_each; intros x; apply quiet_ingredient_rows | intros _ ].
  apply adds_then;
    [ apply adds_for_each; intros x; apply quiet_proxy_rows | intros _ ].
  apply adds_then; [ apply quiet_traces | intros _ ].
  apply adds_then; [ apply quiet_labels | intros _ ].
  apply quiet_incr_processed.
Qed.

Lemma adds_accepted_proxy (allergen_name : str) :
  allergen_name ∈ explicit_product_allergens U product_doc ->
  is_explained_by_ingredient U parsed allergen_name = false ->
  adds (accepted_product U product_doc product_code)
    [ RelRow HAS_INGREDIENT product_code Product
        (proxy_ingredient_name allergen_name product_code) Ingredient;
      RelRow IS_ALLERGEN (proxy_ingredient_name allergen_name product_code)
        Ingredient allergen_name Allergen ]
    [ proxy_ingredient_name allergen_name product_code ].
Proof.
  intros Ha He. unfold accepted_product.
  apply adds_then; [ apply adds_writerow_quiet | intros _ ].
  apply (adds_lift_bind _ parsed); [ exact Hparsed | ].
  apply adds_then;
    [ apply adds_for_each; intros x; apply quiet_ingredient_rows | intros _ ].
  apply adds_first.
  - apply (adds_for_each_elem _ _ allergen_name).
    + apply elem_of_elements, Ha.
    + intros y. apply quiet_proxy_rows.
    + apply adds_proxy_rows, He.
  - intros _.
    apply adds_then; [ apply quiet_traces | intros _ ].
    apply adds_then; [ apply quiet_labels | intros _ ].
    apply quiet_incr_processed.
Qed.


End Accepted.

Lemma quiet_process_product (product_doc : doc) :
  parses U product_doc -> adds (process_product U product_doc) [] [].
Proof.
  intros [parsed Hp]. unfold process_product.
  destruct (accepted_code U _) as [code |].
  - apply (quiet_accepted_product _ _ parsed Hp).
  - apply adds_then; [ apply adds_logging | intros _ ].
    apply quiet_incr_skipped.
Qed.

Lemma adds_write_tsv (products_cursor : list doc) (product_doc : doc)
    (R : list row) (N : list str) :
  product_doc ∈ products_cursor ->
  (forall d, d ∈ products_cursor -> parses U d) ->
  adds (process_product U product_doc) R N ->
  adds (write_tsv U products_cursor) R N.
Proof.
  intros Hin Hall Hd. unfold write_tsv.
  apply adds_then; [ apply adds_writerow_quiet | intros _ ].
  apply adds_then; [ | intros _ ].
  { apply adds_for_each. intros x. apply adds_read_bind. intros seen.
    apply adds_when. apply adds_then; [ apply adds_writerow_quiet | intros _ ].
    apply adds_update. intros st. repeat split; reflexivity. }
  apply adds_read_bind. intros n.
  apply adds_then; [ apply adds_logging | intros _ ].
  apply adds_then; [ | intros _ ].
  { apply adds_for_each. intros x. apply adds_read_bind. intros seen.
    apply adds_when. apply adds_then; [ apply adds_writerow_quiet | intros _ ].
    apply adds_update. intros st. repeat split; reflexivity. }
  apply adds_read_bind. intros n'.
  apply adds_then; [ apply adds_logging | intros _ ].
  apply adds_first.
  - induction products_cursor as [| d l IH]; [ inversion Hin | ].
    simpl. apply elem_of_cons in Hin as [<- | Hin].
    + apply adds_first; [ exact Hd | intros _ ].
      apply adds_for_each_strong.
      intros y Hy. apply quiet_process_product, Hall. right. exact Hy.
    + apply adds_then.
      * apply quiet_process_product, Hall. left.
      * intros _. apply IH; [ exact Hin | ].
        intros d' Hd'. apply Hall. right. exact Hd'.
  - intros _. apply adds_read_bind. intros c.
    apply adds_then; [ apply adds_logging | intros _ ].
    apply adds_read_bind. intros k. apply adds_when, adds_logging.
Qed.

Lemma adds_generate_csv_data (products_cursor : list doc) (product_doc : doc)
    (R : list row) (N : list str) :
  product_doc ∈ products_cursor ->
  (forall d, d ∈ products_cursor -> parses U d) ->
  adds (process_product U product_doc) R N ->
  adds (generate_csv_data U products_cursor) R N.
Proof.
  intros Hin Hall Hd. unfold generate_csv_data.
  apply adds_then; [ apply adds_logging | intros _ ].
  destruct products_cursor as [| d l]; [ inversion Hin | ].
  simpl. apply adds_try_logged.
  apply (adds_write_tsv _ product_doc); assumption.
Qed.

End SureEngine.

(** ** Rejected records *)

(** C7.  A record whose code is absent, null, not a string, or an empty
    or blank string writes no row: the sink and the three ledgers are as
    before, the rejection is logged, the counter of rejected records goes
    up by one, and the loop goes on with the next record. *)
Theorem rejected_record (U : unicode) (product_doc : doc) (st : state) :
  code_rejected U product_doc ->
  exists st',
    process_product U product_doc st = Ok tt st'
    /\ out st' = out st
    /\ quota st' = quota st
    /\ written_ingredients st' = written_ingredients st
    /\ written_allergens st' = written_allergens st
    /\ written_diet_prefs st' = written_diet_prefs st
    /\ processed_count st' = processed_count st
    /\ missing_code_skipped st' = S (missing_code_skipped st)
    /\ log st' = log st ++ [WARNING_skipping (get product_doc "_id")]
    /\ forall rest,
         for_each (product_doc :: rest) (process_product U) st
         = for_each rest (process_product U) st'.
Proof.
  intros Hrej.
  assert (Hcode : accepted_code U (get product_doc "code") = None).
  { unfold code_rejected in Hrej. unfold get.
    destruct (product_doc !! py "code") as [v |]; [ | reflexivity ].
    destruct v as [| b | n | s | l | t]; try reflexivity.
    simpl. rewrite Hrej. rewrite bool_decide_eq_true_2 by reflexivity.
    rewrite orb_true_r. reflexivity. }
  unfold process_product. rewrite Hcode.
  eexists. split; [ reflexivity | ].
  simpl. repeat (split; [ reflexivity | ]).
  intros rest. simpl. rewrite Hcode. reflexivity.
Qed.

Lemma rejected_record_witness :
  code_rejected unicode_u5317 no_code_record
  /\ exists st',
       process_product unicode_u5317 no_code_record (start None) = Ok tt st'
       /\ out st' = [] /\ missing_code_skipped st' = 1%nat.
Proof.
  assert (H : code_rejected unicode_u5317 no_code_record) by reflexivity.
  split; [ exact H | ].
  destruct (rejected_record unicode_u5317 no_code_record (start None) H)
    as (st' & Hrun & Hout & _ & _ & _ & _ & _ & Hskip & _).
  exists st'. split; [ exact Hrun | split; [ exact Hout | exact Hskip ] ].
Defined.

(** ** Failing writes *)

(** C8, as stated, fails: on a sink that accepts no row the first write
    raises, and [generate_csv_data] returns all the same. *)
Lemma write_failure_swallowed : ~ write_failure_surfaces unicode_u5317.
Proof.
  intros H.
  destruct (H [wheat_flour_record] (start (Some O))
              (logged (INFO_found 1) (start (Some O)))
              ltac:(discriminate) eq_refl) as [st2 Hst2].
  discriminate Hst2.
Qed.

(** C8, amended.  When a write raises [IOError] in the body of the [try]
    block, [generate_csv_data] returns normally: the sink holds the rows
    written before the failure and no other, the error is logged, and the
    entry point goes on to log that the file was generated. *)
Theorem write_failure_logged (U : unicode) (products_cursor : list doc)
    (st st1 : state) :
  products_cursor <> [] ->
  write_tsv U products_cursor (logged (INFO_found (length products_cursor)) st)
  = Raised IOError st1 ->
  generate_csv_data U products_cursor st = Ok tt (logged ERROR_writing st1)
  /\ main U products_cursor st
     = Ok tt (logged INFO_generated (logged ERROR_writing st1))
  /\ out (final (main U products_cursor st)) = out st1.
Proof.
  intros Hdocs H.
  assert (Hne : (length products_cursor =? 0)%nat = false).
  { destruct products_cursor as [| d l]; [ contradiction | reflexivity ]. }
  assert (Hg : generate_csv_data U products_cursor st
               = Ok tt (logged ERROR_writing st1)).
  { unfold generate_csv_data. unfold mbind, M_bind.
    change (logging (INFO_found (length products_cursor)) st)
      with (Ok tt (logged (INFO_found (length products_cursor)) st)).
    cbv iota beta. rewrite Hne. unfold try_logged. rewrite H. reflexivity. }
  assert (Hm : main U products_cursor st
               = Ok tt (logged INFO_generated (logged ERROR_writing st1))).
  { unfold main, mbind, M_bind. rewrite Hg. reflexivity. }
  split; [ exact Hg | split; [ exact Hm | ] ].
  rewrite Hm. reflexivity.
Qed.

Lemma write_failure_logged_witness :
  main unicode_u5317 [wheat_flour_record] (start (Some 3%nat))
  = Ok tt
      (logged INFO_generated
         (logged ERROR_writing
            (final (write_tsv unicode_u5317 [wheat_flour_record]
                      (logged (INFO_found 1) (start (Some 3%nat)))))))
  /\ length (out (final (main unicode_u5317 [wheat_flour_record]
                           (start (Some 3%nat))))) = 3%nat.
Proof.
  destruct (write_failure_logged unicode_u5317 [wheat_flour_record]
              (start (Some 3%nat))
              (final (write_tsv unicode_u5317 [wheat_flour_record]
                        (logged (INFO_found 1) (start (Some 3%nat)))))
              ltac:(discriminate) ltac:(vm_compute; reflexivity))
    as (_ & Hmain & Hout).
  split; [ exact Hmain | ]. rewrite Hout. vm_compute. reflexivity.
Defined.

(** ** Relationship rows of one ingredient *)

(** C3.  For the record with the one ingredient ["wheat flour"] the run
    writes two IS_ALLERGEN rows from ["wheat flour"] to ["en:gluten"], one
    for the pattern of [wheat] and one for the pattern of [flour], and one
    CONFLICTS_WITH_DIET row from it to ["gluten_free"]. *)
Theorem wheat_flour_allergen_rows (U : unicode) :
  count (is_rel IS_ALLERGEN (py "wheat flour") (py "en:gluten"))
    (out (final (generate_csv_data U [wheat_flour_record] (start None))))
  = 2%nat
  /\ count (is_rel CONFLICTS_WITH_DIET (py "wheat flour") (py "gluten_free"))
       (out (final (generate_csv_data U [wheat_flour_record] (start None))))
     = 1%nat.
Proof. split; vm_compute; reflexivity. Qed.

(** ** Node rows across a run *)

Section Run.

Context (U : unicode).

Lemma ww_write_tsv (products_cursor : list doc) :
  writes_within (write_tsv U products_cursor) (run_full U products_cursor).
Proof.
  unfold write_tsv, run_full.
  apply ww_bind; [ apply ww_writerow | intros _ ].
  apply ww_bind; [ | intros _ ].
  { apply ww_for_each. intros x.
    apply ww_bind_silent; [ apply ww_silent; reflexivity | intros seen ].
    eapply ww_weaken.
    - apply ww_when.
      eapply (ww_bind _ _ [NodeRow x (PStr []) Allergen] []);
        [ apply ww_writerow | ].
      intros _. apply ww_silent. reflexivity.
    - destruct (negb _); [ reflexivity | apply sublist_nil_l ]. }
  apply ww_bind_silent; [ apply ww_silent; reflexivity | intros n ].
  apply ww_bind_silent; [ apply ww_logging | intros _ ].
  apply ww_bind; [ | intros _ ].
  { apply ww_for_each. intros x.
    apply ww_bind_silent; [ apply ww_silent; reflexivity | intros seen ].
    eapply ww_weaken.
    - apply ww_when.
      eapply (ww_bind _ _ [NodeRow x (PStr []) DietaryPreference] []);
        [ apply ww_writerow | ].
      intros _. apply ww_silent. reflexivity.
    - destruct (negb _); [ reflexivity | apply sublist_nil_l ]. }
  apply ww_bind_silent; [ apply ww_silent; reflexivity | intros n' ].
  apply ww_bind_silent; [ apply ww_logging | intros _ ].
  rewrite <- (app_nil_r (flat_map _ products_cursor)).
  apply ww_bind; [ apply ww_for_each, ww_process_product | intros _ ].
  apply ww_bind_silent; [ apply ww_silent; reflexivity | intros c ].
  apply ww_bind_silent; [ apply ww_logging | intros _ ].
  apply ww_bind_silent; [ apply ww_silent; reflexivity | intros k ].
  eapply ww_weaken; [ apply ww_when, ww_logging | ].
  destruct (negb _); reflexivity.
Qed.

Lemma ww_generate_csv_data (products_cursor : list doc) :
  writes_within (generate_csv_data U products_cursor)
    (run_full U products_cursor).
Proof.
  unfold generate_csv_data.
  apply ww_bind_silent; [ apply ww_logging | intros _ ].
  destruct (length products_cursor =? 0)%nat.
  - eapply ww_weaken; [ apply ww_logging | apply sublist_nil_l ].
  - apply ww_try_logged, ww_write_tsv.
Qed.

Lemma accepted_code_has_code (product_doc : doc) (c code : str) :
  accepted_code U (get product_doc "code") = Some c ->
  has_code code product_doc = bool_decide (c = code).
Proof.
  unfold has_code. destruct (get product_doc "code"); try discriminate.
  simpl. destruct (_ || _); [ discriminate | ].
  intros H. inversion H. reflexivity.
Qed.

Lemma count_product_node_ingredients (code c : str) (l : list str) :
  count (is_node Product code) (flat_map (ingredient_full U c) l) = O.
Proof.
  apply count_flat_map_none. intros ing _. apply count_none. intros r Hr.
  apply ingredient_full_shape in Hr
    as [-> | [-> | [(a & _ & ->) | (dp & ->)]]]; reflexivity.
Qed.

Lemma count_product_node_proxies (code c : str) (parsed : gset str)
    (l : list str) :
  count (is_node Product code) (flat_map (proxy_full U c parsed) l) = O.
Proof.
  apply count_flat_map_none. intros a _. apply count_none. intros r Hr.
  apply proxy_full_shape in Hr as (_ & [-> | [-> | ->]]); reflexivity.
Qed.

Lemma count_map_rel (P : row -> bool) {A} (f : A -> row) (l : list A) :
  (forall x, P (f x) = false) -> count P (map f l) = O.
Proof.
  intros H. apply count_none. intros r Hr.
  apply list_elem_of_In, in_map_iff in Hr as (x & <- & _). apply H.
Qed.

(** A record has at most one Product row, and it bears its code. *)
Lemma count_product_node_record (code : str) (product_doc : doc) :
  (count (is_node Product code) (record_full U product_doc)
   <= if has_code code product_doc then 1 else 0)%nat.
Proof.
  unfold record_full.
  destruct (accepted_code U (get product_doc "code")) as [c |] eqn:Hc;
    [ | unfold count; simpl; lia ].
  rewrite (accepted_code_has_code _ _ code Hc).
  unfold product_full. rewrite !count_app.
  rewrite count_product_node_ingredients, count_product_node_proxies.
  rewrite !count_map_rel by reflexivity.
  unfold count. simpl. destruct (bool_decide (c = code)); simpl; lia.
Qed.

Lemma count_product_node_run (code : str) (products_cursor : list doc) :
  (count (is_node Product code) (run_full U products_cursor)
   <= length (List.filter (has_code code) products_cursor))%nat.
Proof.
  unfold run_full. rewrite !count_app.
  assert (H1 : count (is_node Product code) [HeaderRow] = O) by reflexivity.
  assert (H2 : forall l,
    count (is_node Product code)
      (flat_map (fun a => [NodeRow a (PStr []) Allergen]) l) = O).
  { intros l. apply count_flat_map_none. intros; reflexivity. }
  assert (H3 : forall l,
    count (is_node Product code)
      (flat_map (fun a => [NodeRow a (PStr []) DietaryPreference]) l) = O).
  { intros l. apply count_flat_map_none. intros; reflexivity. }
  rewrite H1, H2, H3. simpl.
  induction products_cursor as [| d l IH]; [ unfold count; simpl; lia | ].
  simpl. rewrite count_app.
  pose proof (count_product_node_record code d) as Hd.
  destruct (has_code code d); simpl; lia.
Qed.

End Run.

(** ** Explicit tags *)

Section Tags.

Context (U : unicode).

Lemma suitable_fold (l : list (str * gset str)) (labels acc : gset str)
    (x : str) :
  x ∈ fold_left
        (fun (acc : gset str) '(diet_name_key, diet_keywords_set) =>
           if decide (diet_keywords_set ## labels)
           then acc else {[ diet_name_key ]} ∪ acc) l acc
  <-> x ∈ acc \/ exists syn, (x, syn) ∈ l /\ ~ syn ## labels.
Proof.
  revert acc. induction l as [| [k syn] l IH]; intros acc; simpl.
  - split; [ auto | ]. intros [H | (syn & H & _)]; [ exact H | inversion H ].
  - rewrite IH. destruct (decide (syn ## labels)) as [Hd | Hd].
    + split.
      * intros [H | (s & H & Hs)]; [ left; exact H | ].
        right. exists s. split; [ right; exact H | exact Hs ].
      * intros [H | (s & H & Hs)]; [ left; exact H | ].
        apply elem_of_cons in H as [H | H];
          [ inversion H; subst; contradiction | ].
        right. exists s. split; assumption.
    + split.
      * intros [H | (s & H & Hs)].
        -- apply elem_of_union in H as [H | H]; [ | left; exact H ].
           apply elem_of_singleton in H. subst x.
           right. exists syn. split; [ left | exact Hd ].
        -- right. exists s. split; [ right; exact H | exact Hs ].
      * intros [H | (s & H & Hs)].
        -- left. apply elem_of_union. right. exact H.
        -- apply elem_of_cons in H as [H | H].
           ++ inversion H; subst. left. apply elem_of_union. left.
              apply elem_of_singleton. reflexivity.
           ++ right. exists s. split; assumption.
Qed.

Lemma not_disjoint (X Y : gset str) :
  ~ X ## Y <-> exists x, x ∈ X /\ x ∈ Y.
Proof.
  split.
  - intros H. destruct (set_choose_or_empty (X ∩ Y)) as [[x Hx] | He].
    + exists x. apply elem_of_intersection in Hx. exact Hx.
    + exfalso. apply H. apply disjoint_intersection. exact He.
  - intros (x & Hx & Hy) Hd. exact (Hd x Hx Hy).
Qed.

(** The preferences a record is suitable for are those one of whose
    positive synonyms is a cleaned label tag of the record. *)
Lemma suitable_iff (product_doc : doc) (diet_name : str) :
  diet_name ∈ suitable_diet_prefs_for_product U product_doc
  <-> label_matches U product_doc diet_name.
Proof.
  unfold suitable_diet_prefs_for_product, label_matches.
  rewrite suitable_fold. split.
  - intros [H | (syn & Hin & Hd)];
      [ apply elem_of_empty in H; contradiction | ].
    apply not_disjoint in Hd as (lab & H1 & H2). exists syn, lab. auto.
  - intros (syn & lab & Hin & H1 & H2). right. exists syn.
    split; [ exact Hin | ]. apply not_disjoint. exists lab. auto.
Qed.

Lemma explained_false (parsed : gset str) (allergen_name : str) :
  (forall ing pat,
     ing ∈ parsed -> (pat, allergen_name) ∈ INGREDIENT_TO_ALLERGEN_MAP ->
     re_search U true pat ing = false) ->
  is_explained_by_ingredient U parsed allergen_name = false.
Proof.
  intros H. unfold is_explained_by_ingredient.
  apply not_true_is_false. intros He.
  apply existsb_exists in He as (ing & Hing & He).
  apply existsb_exists in He as ([pat a] & Hpat & He).
  apply andb_true_iff in He as [Hs Ha].
  apply bool_decide_eq_true in Ha. subst a.
  rewrite (H ing pat) in Hs; [ discriminate | | ].
  - apply elem_of_elements, list_elem_of_In, Hing.
  - apply list_elem_of_In, Hpat.
Qed.

Lemma explained_by_cheese (parsed : gset str) :
  py "cheese" ∈ parsed ->
  is_explained_by_ingredient U parsed (py "en:milk") = true.
Proof.
  intros H. unfold is_explained_by_ingredient.
  apply existsb_exists. exists (py "cheese").
  split; [ apply list_elem_of_In, elem_of_elements, H | ].
  vm_compute. reflexivity.
Qed.

(** A row of a record that is about an ingredient is about a parsed
    ingredient or about the proxy of an explicit allergen that no
    ingredient explains. *)
Lemma product_full_about (product_doc : doc) (code p : str) (r : row) :
  r ∈ product_full U product_doc code ->
  about_ingredient p r ->
  p ∈ parsed_of U product_doc
  \/ exists a,
       a ∈ explicit_product_allergens U product_doc
       /\ is_explained_by_ingredient U (parsed_of U product_doc) a = false
       /\ p = proxy_ingredient_name a code.
Proof.
  unfold product_full. intros Hr Hp.
  apply elem_of_app in Hr as [Hr | Hr].
  { apply list_elem_of_singleton in Hr. subst r. contradiction. }
  apply elem_of_app in Hr as [Hr | Hr].
  { apply list_elem_of_In, in_flat_map in Hr as (ing & Hing & Hr).
    apply list_elem_of_In, ingredient_full_about in Hr.
    rewrite (about_ingredient_unique _ _ _ Hp Hr).
    left. apply elem_of_elements, list_elem_of_In, Hing. }
  apply elem_of_app in Hr as [Hr | Hr].
  { apply list_elem_of_In, in_flat_map in Hr as (a & Ha & Hr).
    apply list_elem_of_In in Hr.
    pose proof (proxy_full_shape U _ _ _ _ Hr) as [He _].
    apply proxy_full_about in Hr.
    right. exists a. split; [ | split; [ exact He | ] ].
    - apply elem_of_elements, list_elem_of_In, Ha.
    - exact (about_ingredient_unique _ _ _ Hp Hr). }
  apply elem_of_app in Hr as [Hr | Hr];
    apply list_elem_of_In, in_map_iff in Hr as (x & <- & _); contradiction.
Qed.


End Tags.

(** ** Endpoints of the relationship rows *)

Section Endpoints.

Context (U : unicode).

Lemma endpoint_ok_mono (rows rows' : list row) (lbl : label) (id : str) :
  (forall r, r ∈ rows -> r ∈ rows') ->
  endpoint_ok rows lbl id -> endpoint_ok rows' lbl id.
Proof. intros H [name Hn]. exists name. apply H, Hn. Qed.

Lemma endpoints_inv_snoc (st st' : state) (r : row) :
  out st' = out st ++ [r] ->
  (forall rel f fl t tl,
     r = RelRow rel f fl t tl ->
     endpoint_ok (out st) fl f /\ endpoint_ok (out st) tl t) ->
  endpoints_inv st -> endpoints_inv st'.
Proof.
  intros Ho Hr Hinv rel f fl t tl Hin. rewrite Ho in *.
  assert (Hmono : forall x, x ∈ out st -> x ∈ out st ++ [r])
    by (intros x Hx; apply elem_of_app; left; exact Hx).
  assert (Hold : endpoint_ok (out st) fl f /\ endpoint_ok (out st) tl t).
  { apply elem_of_app in Hin as [Hin | Hin].
    - exact (Hinv _ _ _ _ _ Hin).
    - apply list_elem_of_singleton in Hin. symmetry in Hin.
      exact (Hr _ _ _ _ _ Hin). }
  destruct Hold as [H1 H2].
  split; eapply endpoint_ok_mono; eauto.
Qed.

Lemma endpoints_inv_same (st st' : state) :
  out st' = out st -> endpoints_inv st -> endpoints_inv st'.
Proof. intros Ho H rel f fl t tl. rewrite Ho. apply H. Qed.

Lemma extends_push (r : row) (st : state) : extends st (push r st).
Proof.
  split.
  - intros x Hx. simpl. apply elem_of_app. left. exact Hx.
  - intros []; reflexivity.
Qed.

Lemma stage_extends (R : list row) (N : list str) (st st' : state) :
  stage R N st -> extends st st' -> consistent st' -> stage R N st'.
Proof.
  intros (_ & _ & [Hca Hcd] & HR & HN) [Hout Hled] [Hl He].
  split; [ exact Hl | split; [ exact He | split; [ split | split ] ] ].
  - intros a Ha. apply (Hled Allergen), Hca, Ha.
  - intros d Hd. apply (Hled DietaryPreference), Hcd, Hd.
  - intros r Hr. apply Hout, HR, Hr.
  - intros n Hn. apply (Hled Ingredient), HN, Hn.
Qed.

Lemma stage_consistent (R : list row) (N : list str) (st : state) :
  stage R N st -> consistent st.
Proof. intros (H1 & H2 & _). split; assumption. Qed.

Lemma stage_weaken (R R' : list row) (N N' : list str) (st : state) :
  (forall r, r ∈ R' -> r ∈ R) -> (forall n, n ∈ N' -> n ∈ N) ->
  stage R N st -> stage R' N' st.
Proof.
  intros HR HN (H1 & H2 & H3 & H4 & H5).
  split; [ exact H1 | split; [ exact H2 | split; [ exact H3 | split ] ] ].
  - intros r Hr. apply H4, HR, Hr.
  - intros n Hn. apply H5, HN, Hn.
Qed.

Lemma stage_forget {A} (R R' : list row) (N N' : list str)
    (P : state -> Prop) (m : M A) :
  hoare P m (fun _ => stage R N) consistent ->
  (forall r, r ∈ R' -> r ∈ R) -> (forall n, n ∈ N' -> n ∈ N) ->
  hoare P m (fun _ => stage R' N') consistent.
Proof.
  intros H HR HN. eapply hoare_consequence; [ exact H | auto | | auto ].
  intros a st. apply stage_weaken; assumption.
Qed.

Lemma stage_silent (R : list row) (N : list str) (f : state -> state) :
  (forall st, out (f st) = out st) ->
  (forall st lbl, ledger_of lbl (f st) = ledger_of lbl st) ->
  hoare (stage R N) (update f) (fun _ => stage R N) consistent.
Proof.
  intros Ho Hl. apply hoare_update. intros st H.
  apply (stage_extends R N st); [ exact H | | ].
  - split; [ intros r; rewrite Ho; auto | intros lbl; rewrite Hl; reflexivity ].
  - destruct (stage_consistent _ _ _ H) as [H1 H2]. split.
    + apply (ledger_inv_same st); [ apply Ho | intros l; apply Hl | exact H1 ].
    + apply (endpoints_inv_same st); [ apply Ho | exact H2 ].
Qed.

Lemma ep_product (R : list row) (N : list str) (st : state) (c : str)
    (name : pyval) :
  NodeRow c name Product ∈ R -> stage R N st ->
  endpoint_ok (out st) Product c.
Proof. intros Hin (_ & _ & _ & HR & _). exists name. apply HR, Hin. Qed.

Lemma ep_ledger (R : list row) (N : list str) (st : state) (lbl : label)
    (id : str) :
  id ∈ ledger_of lbl st -> stage R N st -> endpoint_ok (out st) lbl id.
Proof.
  intros Hin ((_ & _ & H3) & _). exists (PStr []). apply H3, Hin.
Qed.

Lemma ep_ingredient (R : list row) (N : list str) (st : state) (n : str) :
  n ∈ N -> stage R N st -> endpoint_ok (out st) Ingredient n.
Proof.
  intros Hin H. apply (ep_ledger R N); [ | exact H ].
  destruct H as (_ & _ & _ & _ & HN). apply HN, Hin.
Qed.

Lemma ep_allergen (R : list row) (N : list str) (st : state) (a : str) :
  a ∈ KNOWN_ALLERGENS -> stage R N st -> endpoint_ok (out st) Allergen a.
Proof.
  intros Hin H. apply (ep_ledger R N); [ | exact H ].
  destruct H as (_ & _ & [Hc _] & _). apply Hc, Hin.
Qed.

Lemma ep_diet (R : list row) (N : list str) (st : state) (d : str) :
  d ∈ map fst DIETARY_PREFERENCES_MAP -> stage R N st ->
  endpoint_ok (out st) DietaryPreference d.
Proof.
  intros Hin H. apply (ep_ledger R N); [ | exact H ].
  destruct H as (_ & _ & [_ Hc] & _). apply Hc, Hin.
Qed.

Lemma stage_writerow_rel (R : list row) (N : list str) (rel : reltype)
    (f : str) (fl : label) (t : str) (tl : label) :
  (forall st, stage R N st ->
     endpoint_ok (out st) fl f /\ endpoint_ok (out st) tl t) ->
  hoare (stage R N) (writerow (RelRow rel f fl t tl)) (fun _ => stage R N)
    consistent.
Proof.
  intros Hep. apply hoare_writerow.
  - intros st H _. apply (stage_extends R N st);
      [ exact H | apply extends_push | ].
    destruct (stage_consistent _ _ _ H) as [H1 H2]. split.
    + apply ledger_inv_push; [ reflexivity | exact H1 ].
    + apply (endpoints_inv_snoc st _ (RelRow rel f fl t tl));
        [ reflexivity | | exact H2 ].
      intros rel' f' fl' t' tl' Heq. inversion Heq; subst. apply Hep, H.
  - intros st H _. eapply stage_consistent, H.
Qed.

Lemma stage_writerow_product (R : list row) (N : list str) (c : str)
    (name : pyval) :
  hoare (stage R N) (writerow (NodeRow c name Product))
    (fun _ => stage (NodeRow c name Product :: R) N) consistent.
Proof.
  apply hoare_writerow.
  - intros st H _.
    assert (Hc : consistent (push (NodeRow c name Product) st)).
    { destruct (stage_consistent _ _ _ H) as [H1 H2]. split.
      - apply ledger_inv_push; [ reflexivity | exact H1 ].
      - apply (endpoints_inv_snoc st _ (NodeRow c name Product));
          [ reflexivity | | exact H2 ].
        intros; discriminate. }
    pose proof (stage_extends R N st _ H (extends_push _ st) Hc)
      as (H1 & H2 & H3 & H4 & H5).
    split; [ exact H1 | split; [ exact H2 | split; [ exact H3 | split ] ] ];
      [ | exact H5 ].
    intros r Hr. apply elem_of_cons in Hr as [-> | Hr]; [ | apply H4, Hr ].
    simpl. apply elem_of_app. right. left.
  - intros st H _. eapply stage_consistent, H.
Qed.

Lemma stage_write_ingredient_node (R : list row) (N : list str) (n : str) :
  hoare (stage R N) (write_ingredient_node n)
    (fun _ => stage R (n :: N)) consistent.
Proof.
  intros st H. unfold write_ingredient_node, mbind, M_bind, read, when. simpl.
  destruct (bool_decide_reflect (n ∈ written_ingredients st)) as [Hb | Hb];
    simpl.
  - destruct H as (H1 & H2 & H3 & H4 & H5).
    split; [ exact H1 | split; [ exact H2 | split; [ exact H3 | split ] ] ];
      [ exact H4 | ].
    intros x Hx. apply elem_of_cons in Hx as [-> | Hx];
      [ exact Hb | apply H5, Hx ].
  - unfold writerow. destruct (quota st) as [[| k] |] eqn:Hq; simpl;
      [ eapply stage_consistent, H | | ].
    all: match goal with
         | |- stage _ _ ?s =>
             assert (Hc : consistent s);
             [ destruct (stage_consistent _ _ _ H) as [H1 H2]; split;
               [ eapply (ledger_inv_fresh st _ Ingredient n);
                 [ discriminate | exact H1 | exact Hb | reflexivity
                 | reflexivity | intros [] ?; solve [ reflexivity | congruence ] ]
               | apply (endpoints_inv_snoc st _ (NodeRow n (PStr []) Ingredient));
                 [ reflexivity | intros; discriminate | exact H2 ] ]
             | assert (He : extends st s);
               [ split;
                 [ intros r Hr; simpl; apply elem_of_app; left; exact Hr
                 | intros []; simpl; try reflexivity;
                   apply union_subseteq_r ]
               | pose proof (stage_extends R N st _ H He Hc)
                   as (G1 & G2 & G3 & G4 & G5);
                 split; [ exact G1 | split; [ exact G2 | split;
                   [ exact G3 | split; [ exact G4 | ] ] ] ];
                 intros x Hx; apply elem_of_cons in Hx as [-> | Hx];
                 [ simpl; apply elem_of_union; left;
                   apply elem_of_singleton; reflexivity
                 | apply G5, Hx ] ] ]
         end.
Qed.

Lemma stage_bind {A B} (R R' : list row) (N N' : list str) (m : M A)
    (k : A -> M B) (Q : B -> state -> Prop) :
  hoare (stage R N) m (fun _ => stage R' N') consistent ->
  (forall a, hoare (stage R' N') (k a) Q consistent) ->
  hoare (stage R N) (m ≫= k) Q consistent.
Proof. intros Hm Hk. eapply hoare_bind; [ exact Hm | exact Hk ]. Qed.

Lemma stage_for_each {A} (R : list row) (N : list str) (l : list A)
    (body : A -> M unit) :
  (forall x, x ∈ l ->
     hoare (stage R N) (body x) (fun _ => stage R N) consistent) ->
  hoare (stage R N) (for_each l body) (fun _ => stage R N) consistent.
Proof. apply hoare_for_each. Qed.

Lemma stage_when (R : list row) (N : list str) (b : bool) (m : M unit) :
  (b = true -> hoare (stage R N) m (fun _ => stage R N) consistent) ->
  hoare (stage R N) (when b m) (fun _ => stage R N) consistent.
Proof. intros H. apply hoare_when; auto. Qed.

Lemma conflict_keys :
  map fst DIETARY_CONFLICT_MAP = map fst DIETARY_PREFERENCES_MAP.
Proof. reflexivity. Qed.

Lemma traces_known (product_doc : doc) (x : str) :
  x ∈ processed_traces_allergens U product_doc -> x ∈ KNOWN_ALLERGENS.
Proof.
  unfold processed_traces_allergens. intros H.
  destruct (tag_list U _);
    try (apply elem_of_empty in H; contradiction).
  apply add_known_elem in H as [H | H]; [ | exact H ].
  apply elem_of_empty in H. contradiction.
Qed.

Lemma suitable_keys (product_doc : doc) (x : str) :
  x ∈ suitable_diet_prefs_for_product U product_doc ->
  x ∈ map fst DIETARY_PREFERENCES_MAP.
Proof.
  intros H. apply suitable_iff in H as (syn & lab & Hin & _).
  apply list_elem_of_In, in_map_iff. exists (x, syn).
  split; [ reflexivity | apply list_elem_of_In, Hin ].
Qed.

Section Record.

Context (R : list row) (N : list str) (product_code : str) (name : pyval).
Hypothesis Hproduct : NodeRow product_code name Product ∈ R.

Lemma stage_ingredient_rows (ing_name : str) :
  hoare (stage R N) (ingredient_rows U product_code ing_name)
    (fun _ => stage R N) consistent.
Proof.
  unfold ingredient_rows.
  eapply stage_bind; [ apply stage_write_ingredient_node | intros _ ].
  apply (stage_forget R R (ing_name :: N) N);
    [ | auto | intros n Hn; right; exact Hn ].
  assert (Hing : forall st, stage R (ing_name :: N) st ->
                   endpoint_ok (out st) Ingredient ing_name).
  { intros st. apply ep_ingredient. left. }
  eapply stage_bind; [ | intros _ ].
  { apply stage_writerow_rel. intros st H. split; [ | apply Hing, H ].
    eapply ep_product; [ exact Hproduct | exact H ]. }
  eapply stage_bind; [ | intros _ ].
  - apply stage_for_each. intros [pat a] _.
    apply stage_when. intros _. apply stage_when. intros Ha.
    apply bool_decide_eq_true in Ha.
    apply stage_writerow_rel. intros st H.
    split; [ apply Hing, H | eapply ep_allergen; eassumption ].
  - apply stage_for_each. intros [dp conflicts] Hdp.
    apply stage_when. intros _.
    apply stage_writerow_rel. intros st H.
    split; [ apply Hing, H | ].
    eapply ep_diet; [ | exact H ].
    rewrite <- conflict_keys. apply list_elem_of_In, in_map_iff.
    exists (dp, conflicts). split; [ reflexivity | apply list_elem_of_In, Hdp ].
Qed.

Lemma stage_proxy_rows (parsed : gset str) (allergen_name : str) :
  allergen_name ∈ KNOWN_ALLERGENS ->
  hoare (stage R N) (proxy_rows U product_code parsed allergen_name)
    (fun _ => stage R N) consistent.
Proof.
  intros Ha. unfold proxy_rows. apply stage_when. intros _. cbv zeta.
  set (proxy := proxy_ingredient_name allergen_name product_code).
  eapply stage_bind; [ apply stage_write_ingredient_node | intros _ ].
  apply (stage_forget R R (proxy :: N) N);
    [ | auto | intros n Hn; right; exact Hn ].
  assert (Hing : forall st, stage R (proxy :: N) st ->
                   endpoint_ok (out st) Ingredient proxy).
  { intros st. apply ep_ingredient. left. }
  eapply stage_bind; [ | intros _ ].
  { apply stage_writerow_rel. intros st H. split; [ | apply Hing, H ].
    eapply ep_product; [ exact Hproduct | exact H ]. }
  apply stage_writerow_rel. intros st H.
  split; [ apply Hing, H | eapply ep_allergen; eassumption ].
Qed.

End Record.

Lemma stage_accepted_product (product_doc : doc) (product_code : str) :
  hoare (stage [] []) (accepted_product U product_doc product_code)
    (fun _ => stage [] []) consistent.
Proof.
  unfold accepted_product.
  set (node := NodeRow product_code _ Product).
  eapply stage_bind; [ apply stage_writerow_product | intros _ ].
  fold node.
  assert (Hnode : node ∈ [node]) by left.
  apply (stage_forget [node] [] [] []);
    [ | intros r Hr; inversion Hr | auto ].
  eapply hoare_bind.
  { apply hoare_lift with (Q := fun _ => stage [node] []).
    - intros a st _ H. exact H.
    - intros e st _ H. eapply stage_consistent, H. }
  intros parsed.
  eapply stage_bind; [ | intros _ ].
  { apply stage_for_each. intros ing _.
    eapply stage_ingredient_rows. exact Hnode. }
  eapply stage_bind; [ | intros _ ].
  { apply stage_for_each. intros a Ha.
    eapply stage_proxy_rows; [ exact Hnode | ].
    eapply explicit_known, elem_of_elements, Ha. }
  eapply stage_bind; [ | intros _ ].
  { apply stage_for_each. intros a Ha.
    apply stage_writerow_rel. intros st H. split.
    - eapply ep_product; [ exact Hnode | exact H ].
    - eapply ep_allergen; [ | exact H ].
      eapply traces_known, elem_of_elements, Ha. }
  eapply stage_bind; [ | intros _ ].
  { apply stage_for_each. intros x Hx.
    apply stage_writerow_rel. intros st H. split.
    - eapply ep_product; [ exact Hnode | exact H ].
    - eapply ep_diet; [ | exact H ].
      eapply suitable_keys, elem_of_elements, Hx. }
  apply stage_silent; reflexivity || (intros st []; reflexivity).
Qed.

Lemma stage_process_product (product_doc : doc) :
  hoare (stage [] []) (process_product U product_doc)
    (fun _ => stage [] []) consistent.
Proof.
  unfold process_product. destruct (accepted_code U _) as [code |].
  - apply stage_accepted_product.
  - eapply stage_bind; [ | intros _ ];
      apply stage_silent; reflexivity || (intros st []; reflexivity).
Qed.

Lemma prestage_catalog_node (lbl : label) (A D A' D' : list str)
    (x : str) (st st' : state) :
  lbl <> Product ->
  prestage A D st ->
  x ∉ ledger_of lbl st ->
  out st' = out st ++ [NodeRow x (PStr []) lbl] ->
  ledger_of lbl st' = {[ x ]} ∪ ledger_of lbl st ->
  (forall l, l <> lbl -> ledger_of l st' = ledger_of l st) ->
  (forall a, a ∈ A' -> a ∈ A \/ (lbl = Allergen /\ a = x)) ->
  (forall d, d ∈ D' -> d ∈ D \/ (lbl = DietaryPreference /\ d = x)) ->
  prestage A' D' st'.
Proof.
  intros Hlbl ([H1 H2] & HA & HD) Hx Ho Hl Hother HA' HD'.
  assert (Hsub : forall l, ledger_of l st ⊆ ledger_of l st').
  { intros l. destruct (decide (l = lbl)) as [-> | Hne].
    - rewrite Hl. apply union_subseteq_r.
    - rewrite Hother by exact Hne. reflexivity. }
  split; [ split | split ].
  - eapply (ledger_inv_fresh st st' lbl x); eassumption.
  - apply (endpoints_inv_snoc st st' (NodeRow x (PStr []) lbl));
      [ exact Ho | intros; discriminate | exact H2 ].
  - intros a Ha. apply HA' in Ha as [Ha | [-> ->]].
    + apply (Hsub Allergen), HA, Ha.
    + change (x ∈ ledger_of Allergen st'). rewrite Hl.
      apply elem_of_union. left. apply elem_of_singleton. reflexivity.
  - intros d Hd. apply HD' in Hd as [Hd | [-> ->]].
    + apply (Hsub DietaryPreference), HD, Hd.
    + change (x ∈ ledger_of DietaryPreference st'). rewrite Hl.
      apply elem_of_union. left. apply elem_of_singleton. reflexivity.
Qed.

Lemma prestage_allergen_node (A D : list str) (x : str) :
  hoare (prestage A D)
    (seen ← read written_allergens;
     when (negb (bool_decide (x ∈ seen)))
       (writerow (NodeRow x (PStr []) Allergen) ;; add_written_allergen x))
    (fun _ => prestage (x :: A) D) consistent.
Proof.
  intros st H. unfold mbind, M_bind, read, when. simpl.
  destruct (bool_decide_reflect (x ∈ written_allergens st)) as [Hb | Hb];
    simpl.
  - destruct H as (Hc & HA & HD). split; [ exact Hc | split; [ | exact HD ] ].
    intros a Ha. apply elem_of_cons in Ha as [-> | Ha];
      [ exact Hb | apply HA, Ha ].
  - unfold writerow. destruct (quota st) as [[| k] |]; simpl;
      [ apply H | | ];
      (eapply (prestage_catalog_node Allergen A D (x :: A) D x st);
       [ discriminate | exact H | exact Hb | reflexivity | reflexivity
       | intros [] ?; solve [ reflexivity | congruence ]
       | intros a Ha; apply elem_of_cons in Ha as [-> | Ha]; auto
       | intros d Hd; auto ]).
Qed.

Lemma prestage_diet_node (A D : list str) (x : str) :
  hoare (prestage A D)
    (seen ← read written_diet_prefs;
     when (negb (bool_decide (x ∈ seen)))
       (writerow (NodeRow x (PStr []) DietaryPreference) ;;
        add_written_diet_pref x))
    (fun _ => prestage A (x :: D)) consistent.
Proof.
  intros st H. unfold mbind, M_bind, read, when. simpl.
  destruct (bool_decide_reflect (x ∈ written_diet_prefs st)) as [Hb | Hb];
    simpl.
  - destruct H as (Hc & HA & HD). split; [ exact Hc | split; [ exact HA | ] ].
    intros d Hd. apply elem_of_cons in Hd as [-> | Hd];
      [ exact Hb | apply HD, Hd ].
  - unfold writerow. destruct (quota st) as [[| k] |]; simpl;
      [ apply H | | ];
      (eapply (prestage_catalog_node DietaryPreference A D A (x :: D) x st);
       [ discriminate | exact H | exact Hb | reflexivity | reflexivity
       | intros [] ?; solve [ reflexivity | congruence ]
       | intros a Ha; auto
       | intros d Hd; apply elem_of_cons in Hd as [-> | Hd]; auto ]).
Qed.

Lemma prestage_allergen_loop (l A D : list str) :
  hoare (prestage A D)
    (for_each l
       (fun allergen_name =>
          seen ← read written_allergens;
          when (negb (bool_decide (allergen_name ∈ seen)))
            (writerow (NodeRow allergen_name (PStr []) Allergen) ;;
             add_written_allergen allergen_name)))
    (fun _ => prestage (rev l ++ A) D) consistent.
Proof.
  revert A. induction l as [| x l IH]; intros A; simpl.
  - apply hoare_ret. auto.
  - eapply hoare_bind; [ apply prestage_allergen_node | intros [] ].
    rewrite <- app_assoc. apply IH.
Qed.

Lemma prestage_diet_loop (l A D : list str) :
  hoare (prestage A D)
    (for_each l
       (fun diet_name =>
          seen ← read written_diet_prefs;
          when (negb (bool_decide (diet_name ∈ seen)))
            (writerow (NodeRow diet_name (PStr []) DietaryPreference) ;;
             add_written_diet_pref diet_name)))
    (fun _ => prestage A (rev l ++ D)) consistent.
Proof.
  revert D. induction l as [| x l IH]; intros D; simpl.
  - apply hoare_ret. auto.
  - eapply hoare_bind; [ apply prestage_diet_node | intros [] ].
    rewrite <- app_assoc. apply IH.
Qed.

Lemma prestage_silent (A D : list str) (f : state -> state) :
  (forall st, out (f st) = out st) ->
  (forall st lbl, ledger_of lbl (f st) = ledger_of lbl st) ->
  hoare (prestage A D) (update f) (fun _ => prestage A D) consistent.
Proof.
  intros Ho Hl. apply hoare_update. intros st ([H1 H2] & HA & HD).
  split; [ split | split ].
  - apply (ledger_inv_same st); [ apply Ho | intros l; apply Hl | exact H1 ].
  - apply (endpoints_inv_same st); [ apply Ho | exact H2 ].
  - intros a Ha. change (a ∈ ledger_of Allergen (f st)). rewrite Hl.
    apply HA, Ha.
  - intros d Hd. change (d ∈ ledger_of DietaryPreference (f st)). rewrite Hl.
    apply HD, Hd.
Qed.

Lemma prestage_logging (A D : list str) (m : logmsg) :
  hoare (prestage A D) (logging m) (fun _ => prestage A D) consistent.
Proof.
  unfold logging. apply prestage_silent; [ reflexivity | ].
  intros st []; reflexivity.
Qed.

Lemma stage_logging (R : list row) (N : list str) (m : logmsg) :
  hoare (stage R N) (logging m) (fun _ => stage R N) consistent.
Proof.
  unfold logging. apply stage_silent; [ reflexivity | ].
  intros st []; reflexivity.
Qed.

Lemma elem_rev_nil {A} (l : list A) (x : A) : x ∈ l -> x ∈ rev l ++ [].
Proof.
  intros H. rewrite app_nil_r. apply list_elem_of_In. apply -> in_rev.
  apply list_elem_of_In. exact H.
Qed.

Lemma elem_rev_elements (K : gset str) (x : str) :
  x ∈ K -> x ∈ rev (elements K) ++ [].
Proof. intros H. apply elem_rev_nil. apply elem_of_elements. exact H. Qed.

Lemma prestage_stage (st : state) :
  prestage (rev (elements KNOWN_ALLERGENS) ++ [])
    (rev (map fst DIETARY_PREFERENCES_MAP) ++ []) st ->
  stage [] [] st.
Proof.
  intros ([H1 H2] & HA & HD).
  split; [ exact H1 | split; [ exact H2 | split; [ split | split ] ] ].
  - intros a Ha. apply HA. exact (elem_rev_elements KNOWN_ALLERGENS a Ha).
  - intros d Hd. apply HD.
    exact (elem_rev_nil (map fst DIETARY_PREFERENCES_MAP) d Hd).
  - intros r Hr. inversion Hr.
  - intros x Hx. inversion Hx.
Qed.

Lemma consistent_write_tsv (products_cursor : list doc) :
  hoare consistent (write_tsv U products_cursor) (fun _ => consistent)
    consistent.
Proof.
  unfold write_tsv.
  eapply hoare_bind with (R := fun _ => prestage [] []).
  { apply hoare_writerow; [ | auto ]. intros st [H1 H2] _.
    split; [ split | split; intros x Hx; inversion Hx ].
    - apply ledger_inv_push; [ reflexivity | exact H1 ].
    - apply (endpoints_inv_snoc st _ HeaderRow);
        [ reflexivity | intros; discriminate | exact H2 ]. }
  intros [].
  eapply hoare_bind; [ apply prestage_allergen_loop | intros [] ].
  apply hoare_read_bind. intros n.
  eapply hoare_bind; [ apply prestage_logging | intros [] ].
  eapply hoare_bind; [ apply prestage_diet_loop | intros [] ].
  apply hoare_read_bind. intros n'.
  eapply hoare_bind; [ apply prestage_logging | intros [] ].
  eapply hoare_consequence with (P' := stage [] []) (Q' := fun _ => stage [] []);
    [ | apply prestage_stage | intros a st H; eapply stage_consistent, H
    | intros st H; exact H ].
  eapply stage_bind;
    [ apply stage_for_each; intros d _; apply stage_process_product
    | intros _ ].
  apply hoare_read_bind. intros c.
  eapply stage_bind; [ apply stage_logging | intros _ ].
  apply hoare_read_bind. intros k.
  apply stage_when. intros _. apply stage_logging.
Qed.

Lemma consistent_logged (m : logmsg) (st : state) :
  consistent st -> consistent (logged m st).
Proof.
  intros [H1 H2]. split.
  - apply ledger_inv_logged, H1.
  - apply (endpoints_inv_same st); [ reflexivity | exact H2 ].
Qed.

Lemma consistent_logging (m : logmsg) :
  hoare consistent (logging m) (fun _ => consistent) consistent.
Proof. apply hoare_update. intros st H. exact (consistent_logged m st H). Qed.

Lemma consistent_generate_csv_data (products_cursor : list doc) :
  hoare consistent (generate_csv_data U products_cursor)
    (fun _ => consistent) consistent.
Proof.
  unfold generate_csv_data.
  eapply hoare_bind; [ apply consistent_logging | intros [] ].
  destruct (length products_cursor =? 0)%nat.
  - apply consistent_logging.
  - eapply hoare_try_logged; [ apply consistent_write_tsv | ].
    intros msg st. apply consistent_logged.
Qed.

Lemma consistent_start (q : option nat) : consistent (start q).
Proof.
  split; [ apply ledger_inv_start | ].
  intros rel f fl t tl H. inversion H.
Qed.

End Endpoints.

(** ** Rows new to the ledgers *)

Section FirstNodes.

Lemma node_keys_cons (r : row) (l : list row) :
  node_keys (r :: l)
  = match node_key r with Some k => k :: node_keys l | None => node_keys l end.
Proof. reflexivity. Qed.

Lemma first_nodes_ext (s1 s2 : list (label * str)) (l : list row) :
  (forall k, k ∈ s1 <-> k ∈ s2) -> first_nodes s1 l = first_nodes s2 l.
Proof.
  revert s1 s2. induction l as [| r l IH]; intros s1 s2 H; [ reflexivity | ].
  simpl. destruct (node_key r) as [k |]; [ | f_equal; apply IH, H ].
  rewrite (bool_decide_ext (k ∈ s1) (k ∈ s2)) by apply H.
  destruct (bool_decide (k ∈ s2)); [ apply IH, H | ].
  f_equal. apply IH. intros k'. rewrite !elem_of_cons, H. reflexivity.
Qed.

Lemma first_nodes_app (seen : list (label * str)) (a b : list row) :
  first_nodes seen (a ++ b)
  = first_nodes seen a ++ first_nodes (node_keys a ++ seen) b.
Proof.
  revert seen. induction a as [| r a IH]; intros seen; [ reflexivity | ].
  cbn [app first_nodes]. rewrite node_keys_cons.
  destruct (node_key r) as [k |] eqn:Hk.
  - destruct (bool_decide (k ∈ seen)) eqn:Hin.
    + rewrite IH. f_equal. apply first_nodes_ext. intros k'.
      apply bool_decide_eq_true in Hin.
      cbn [app]. rewrite elem_of_cons, !elem_of_app.
      split; [ tauto | ]. intros [-> | H]; tauto.
    + rewrite IH. cbn [app]. do 2 f_equal. apply first_nodes_ext. intros k'.
      rewrite !elem_of_app, !elem_of_cons, !elem_of_app. tauto.
  - rewrite IH. reflexivity.
Qed.

Lemma first_nodes_keys (seen : list (label * str)) (l : list row)
    (k : label * str) :
  k ∈ node_keys (first_nodes seen l) <-> k ∈ node_keys l /\ k ∉ seen.
Proof.
  revert seen. induction l as [| r l IH]; intros seen.
  - simpl. split; [ intros H; inversion H | intros [H _]; inversion H ].
  - cbn [first_nodes]. rewrite node_keys_cons.
    destruct (node_key r) as [k0 |] eqn:Hk.
    + destruct (bool_decide (k0 ∈ seen)) eqn:Hin.
      * apply bool_decide_eq_true in Hin. rewrite IH, elem_of_cons.
        split; [ tauto | ]. intros [[-> | H] Hn]; [ contradiction | tauto ].
      * apply bool_decide_eq_false in Hin.
        rewrite node_keys_cons, Hk.
        rewrite !elem_of_cons, IH, elem_of_cons.
        destruct (decide (k = k0)) as [-> | Hne]; tauto.
    + rewrite node_keys_cons, Hk. apply IH.
Qed.

Lemma first_nodes_sublist (seen : list (label * str)) (l : list row) :
  first_nodes seen l `sublist_of` l.
Proof.
  revert seen. induction l as [| r l IH]; intros seen; [ constructor | ].
  simpl. destruct (node_key r) as [k |].
  - destruct (bool_decide (k ∈ seen)).
    + apply sublist_cons. apply IH.
    + apply sublist_skip. apply IH.
  - apply sublist_skip. apply IH.
Qed.

Lemma first_nodes_nodup (seen : list (label * str)) (l : list row) :
  NoDup (node_keys (first_nodes seen l)).
Proof.
  revert seen. induction l as [| r l IH]; intros seen; [ constructor | ].
  cbn [first_nodes]. destruct (node_key r) as [k |] eqn:Hk.
  - destruct (bool_decide (k ∈ seen)) eqn:Hin; [ apply IH | ].
    rewrite node_keys_cons, Hk.
    constructor; [ | apply IH ].
    rewrite first_nodes_keys. intros [_ H]. apply H. left.
  - rewrite node_keys_cons, Hk. apply IH.
Qed.

End FirstNodes.

(** ** The rows of a run, exactly *)

Section Emits.

Lemma agrees_same (seen : list (label * str)) (st st' : state) :
  (forall lbl, ledger_of lbl st' = ledger_of lbl st) ->
  agrees seen st -> agrees seen st'.
Proof. intros H Ha lbl id. rewrite H. apply Ha. Qed.

Lemma fits_app (q : option nat) (a b : nat) :
  fits q (a + b) = fits q a && fits (debit q a) b.
Proof.
  destruct q as [n |]; [ | reflexivity ]. simpl.
  destruct (a <=? n)%nat eqn:Ha; simpl.
  - apply Nat.leb_le in Ha.
    destruct (b <=? n - a)%nat eqn:Hb.
    + apply Nat.leb_le in Hb. apply Nat.leb_le. lia.
    + apply Nat.leb_gt in Hb. apply Nat.leb_gt. lia.
  - apply Nat.leb_gt in Ha. apply Nat.leb_gt. lia.
Qed.

Lemma debit_app (q : option nat) (a b : nat) :
  debit (debit q a) b = debit q (a + b).
Proof. destruct q as [n |]; [ | reflexivity ]. simpl. f_equal. lia. Qed.

Lemma take_quota_short (q : option nat) (a b : list row) :
  fits q (length a) = false -> take_quota q (a ++ b) = take_quota q a.
Proof.
  destruct q as [n |]; [ | discriminate ]. simpl. intros H.
  apply Nat.leb_gt in H. rewrite take_app.
  replace (n - length a)%nat with O by lia. rewrite take_0. apply app_nil_r.
Qed.

Lemma take_quota_long (q : option nat) (a b : list row) :
  fits q (length a) = true ->
  take_quota q (a ++ b) = a ++ take_quota (debit q (length a)) b.
Proof.
  destruct q as [n |]; [ | reflexivity ]. simpl. intros H.
  apply Nat.leb_le in H. rewrite take_app.
  rewrite take_ge by lia. reflexivity.
Qed.

Lemma take_quota_fits (q : option nat) (a : list row) :
  fits q (length a) = true -> take_quota q a = a.
Proof.
  destruct q as [n |]; [ | reflexivity ]. simpl. intros H.
  apply Nat.leb_le in H. apply take_ge. lia.
Qed.

Lemma emits_silent {A} (m : M A) :
  (forall st, exists a st',
     m st = Ok a st' /\ out st' = out st /\ quota st' = quota st
     /\ forall lbl, ledger_of lbl st' = ledger_of lbl st) ->
  emits m [] false.
Proof.
  intros H st seen Ha. cbv zeta. cbn [first_nodes length].
  assert (Hfit : fits (quota st) 0 = true) by (destruct (quota st); reflexivity).
  rewrite Hfit. destruct (H st) as (a & st' & Hm & Ho & Hq & Hl).
  exists a, st'. split; [ exact Hm | ]. split; [ rewrite Ho, app_nil_r; reflexivity | ].
  split.
  - rewrite Hq. destruct (quota st); [ simpl; f_equal; lia | reflexivity ].
  - apply (agrees_same _ st); assumption.
Qed.

Lemma emits_ret {A} (a : A) : emits (mret a) [] false.
Proof.
  apply emits_silent. intros st. exists a, st. repeat split; reflexivity.
Qed.

Lemma emits_update (f : state -> state) :
  (forall st, out (f st) = out st /\ quota (f st) = quota st
     /\ forall lbl, ledger_of lbl (f st) = ledger_of lbl st) ->
  emits (update f) [] false.
Proof.
  intros H. apply emits_silent. intros st. exists tt, (f st).
  split; [ reflexivity | apply H ].
Qed.

Lemma emits_logging (m : logmsg) : emits (logging m) [] false.
Proof.
  apply emits_update. intros st. split; [ reflexivity | ].
  split; [ reflexivity | intros []; reflexivity ].
Qed.

Lemma emits_writerow (r : row) :
  node_key r = None -> emits (writerow r) [r] false.
Proof.
  intros Hk st seen Ha. cbv zeta. cbn [first_nodes]. rewrite Hk.
  cbn [first_nodes length]. unfold writerow.
  destruct (quota st) as [[| n] |] eqn:Hq; cbn [fits Nat.leb].
  - exists st. split; [ reflexivity | ]. simpl. rewrite app_nil_r. reflexivity.
  - eexists tt, _. split; [ reflexivity | ]. split; [ reflexivity | ].
    split; [ simpl; f_equal; lia | ].
    rewrite node_keys_cons, Hk. intros lbl id. rewrite (Ha lbl id).
    destruct lbl; reflexivity.
  - eexists tt, _. split; [ reflexivity | ]. split; [ reflexivity | ].
    split; [ reflexivity | ].
    rewrite node_keys_cons, Hk. intros lbl id. rewrite (Ha lbl id).
    destruct lbl; reflexivity.
Qed.

Lemma emits_bind {A B} (m : M A) (k : A -> M B) (f1 f2 : list row)
    (halts : bool) :
  emits m f1 false -> (forall a, emits (k a) f2 halts) ->
  emits (m ≫= k) (f1 ++ f2) halts.
Proof.
  intros H1 H2 st seen Ha. cbv zeta.
  rewrite first_nodes_app, length_app, fits_app.
  specialize (H1 st seen Ha). cbv zeta in H1.
  unfold mbind, M_bind.
  destruct (fits (quota st) (length (first_nodes seen f1))) eqn:Hf1.
  - destruct H1 as (a & st1 & Hm & Ho & Hq & Ha1). rewrite Hm.
    specialize (H2 a st1 _ Ha1). cbv zeta in H2.
    rewrite Hq in H2. cbn [andb].
    destruct (fits _ (length (first_nodes (node_keys f1 ++ seen) f2))).
    + destruct halts.
      * destruct H2 as (st' & Hk & Ho'). exists st'.
        split; [ exact Hk | ]. rewrite Ho', Ho, app_assoc. reflexivity.
      * destruct H2 as (b & st' & Hk & Ho' & Hq' & Ha').
        exists b, st'. split; [ exact Hk | ].
        split; [ rewrite Ho', Ho, app_assoc; reflexivity | ].
        split; [ rewrite Hq', debit_app; reflexivity | ].
        rewrite node_keys_app.
        intros lbl id. rewrite <- (Ha' lbl id).
        rewrite !elem_of_app. tauto.
    + destruct H2 as (st' & Hk & Ho'). exists st'.
      split; [ exact Hk | ].
      rewrite Ho', Ho, (take_quota_long _ _ _ Hf1), app_assoc. reflexivity.
  - destruct H1 as (st' & Hm & Ho). rewrite Hm. cbn [andb].
    exists st'. split; [ reflexivity | ].
    rewrite Ho, (take_quota_short _ _ _ Hf1). reflexivity.
Qed.

Lemma emits_halt_bind {A B} (m : M A) (k : A -> M B) (f : list row) :
  emits m f true -> emits (m ≫= k) f true.
Proof.
  intros H st seen Ha. specialize (H st seen Ha). cbv zeta in *.
  unfold mbind, M_bind.
  destruct (fits _ _); destruct H as (st' & -> & Ho); exists st';
    (split; [ reflexivity | exact Ho ]).
Qed.

Lemma emits_then {A B} (m : M A) (k : A -> M B) (f : list row)
    (halts : bool) :
  emits m [] false -> (forall a, emits (k a) f halts) ->
  emits (m ≫= k) f halts.
Proof. intros H1 H2. apply (emits_bind m k [] f halts H1 H2). Qed.

Lemma emits_first {A B} (m : M A) (k : A -> M B) (f : list row) :
  emits m f false -> (forall a, emits (k a) [] false) ->
  emits (m ≫= k) f false.
Proof.
  intros H1 H2. rewrite <- (app_nil_r f).
  apply (emits_bind m k f [] false H1 H2).
Qed.

Lemma emits_read_bind {A B} (f : state -> A) (k : A -> M B) (l : list row)
    (halts : bool) :
  (forall a, emits (k a) l halts) -> emits (read f ≫= k) l halts.
Proof.
  intros H st seen Ha. exact (H (f st) st seen Ha).
Qed.

Lemma emits_when (b : bool) (m : M unit) (f : list row) :
  emits m f false -> emits (when b m) (if b then f else []) false.
Proof. destruct b; intros H; [ exact H | apply emits_ret ]. Qed.

Lemma emits_for_each {A} (l : list A) (body : A -> M unit)
    (h : A -> list row) :
  (forall x, emits (body x) (h x) false) ->
  emits (for_each l body) (flat_map h l) false.
Proof.
  intros H. induction l as [| x l IH]; [ apply emits_ret | ].
  simpl. apply emits_bind; [ apply H | intros _; exact IH ].
Qed.

(** A node row that is written unless the ledger of its kind holds the
    name, which is then entered. *)
Lemma emits_node (lbl : label) (rd : state -> gset str) (add : str -> M unit)
    (x : str) :
  lbl <> Product ->
  (forall st, rd st = ledger_of lbl st) ->
  (forall st, exists st',
     add x st = Ok tt st' /\ out st' = out st /\ quota st' = quota st
     /\ forall l id,
          id ∈ ledger_of l st' <-> (l = lbl /\ id = x) \/ id ∈ ledger_of l st) ->
  emits (seen ← read rd;
         when (negb (bool_decide (x ∈ seen)))
           (writerow (NodeRow x (PStr []) lbl) ;; add x))
    [NodeRow x (PStr []) lbl] false.
Proof.
  intros Hl Hrd Hadd st seen Ha. cbv zeta.
  assert (Hk : node_key (NodeRow x (PStr []) lbl) = Some (lbl, x))
    by (destruct lbl; [ contradiction | reflexivity .. ]).
  cbn [first_nodes]. rewrite Hk. rewrite node_keys_cons, Hk.
  unfold mbind, M_bind, read. rewrite Hrd.
  rewrite (bool_decide_ext ((lbl, x) ∈ seen) (x ∈ ledger_of lbl st))
    by apply Ha.
  destruct (bool_decide (x ∈ ledger_of lbl st)) eqn:Hin; cbn [negb when].
  - apply bool_decide_eq_true in Hin. cbn [length].
    assert (Hfit : fits (quota st) 0 = true)
      by (destruct (quota st); reflexivity).
    rewrite Hfit. exists tt, st. split; [ reflexivity | ].
    split; [ rewrite app_nil_r; reflexivity | ].
    split; [ destruct (quota st); [ simpl; f_equal; lia | reflexivity ] | ].
    intros l id. cbn [app node_keys omap]. rewrite elem_of_cons, (Ha l id).
    split; [ | tauto ]. intros [H | H]; [ | exact H ].
    inversion H; subst. exact Hin.
  - apply bool_decide_eq_false in Hin. cbn [first_nodes length].
    unfold writerow.
    destruct (quota st) as [[| n] |] eqn:Hq; cbn [fits Nat.leb].
    + exists st. split; [ reflexivity | ]. simpl. rewrite app_nil_r.
      reflexivity.
    + match goal with |- context [add x ?s] =>
        destruct (Hadd s) as (st' & Hm & Ho & Hq' & Hled) end.
      exists tt, st'. split; [ exact Hm | ].
      split; [ rewrite Ho; reflexivity | ].
      split; [ rewrite Hq'; simpl; f_equal; lia | ].
      intros l id. cbn [app node_keys omap]. rewrite elem_of_cons, (Ha l id).
      rewrite Hled. split.
      * intros [H | H]; [ inversion H; subst; left; split; reflexivity | right ].
        destruct l; exact H.
      * intros [[-> ->] | H]; [ left; reflexivity | right ].
        destruct l; exact H.
    + match goal with |- context [add x ?s] =>
        destruct (Hadd s) as (st' & Hm & Ho & Hq' & Hled) end.
      exists tt, st'. split; [ exact Hm | ].
      split; [ rewrite Ho; reflexivity | ].
      split; [ rewrite Hq'; reflexivity | ].
      intros l id. cbn [app node_keys omap]. rewrite elem_of_cons, (Ha l id).
      rewrite Hled. split.
      * intros [H | H]; [ inversion H; subst; left; split; reflexivity | right ].
        destruct l; exact H.
      * intros [[-> ->] | H]; [ left; reflexivity | right ].
        destruct l; exact H.
Qed.

End Emits.

Section EmitsEngine.

Context (U : unicode).

Lemma emits_write_ingredient_node (name : str) :
  emits (write_ingredient_node name) [NodeRow name (PStr []) Ingredient] false.
Proof.
  apply (emits_node Ingredient written_ingredients add_written_ingredient).
  - discriminate.
  - reflexivity.
  - intros st. eexists. split; [ reflexivity | ].
    split; [ reflexivity | split; [ reflexivity | ] ].
    intros l id. destruct l; simpl; try tauto.
    + split; [ tauto | intros [[H _] | H]; [ discriminate H | exact H ] ].
    + rewrite elem_of_union, elem_of_singleton.
      split; [ intros [-> | H]; tauto | intros [[_ ->] | H]; tauto ].
    + split; [ tauto | intros [[H _] | H]; [ discriminate H | exact H ] ].
    + split; [ tauto | intros [[H _] | H]; [ discriminate H | exact H ] ].
Qed.

Lemma emits_ingredient_rows (product_code ing_name : str) :
  emits (ingredient_rows U product_code ing_name)
    (ingredient_full U product_code ing_name) false.
Proof.
  unfold ingredient_rows, ingredient_full.
  apply (emits_bind _ _ [_]); [ apply emits_write_ingredient_node | intros _ ].
  apply (emits_bind _ _ [_]); [ apply emits_writerow; reflexivity | intros _ ].
  apply emits_bind; [ | intros _ ].
  - apply emits_for_each. intros [pat a].
    destruct (re_search U true pat ing_name); [ | apply emits_ret ].
    destruct (bool_decide (a ∈ KNOWN_ALLERGENS)); [ | apply emits_ret ].
    apply emits_writerow. reflexivity.
  - apply emits_for_each. intros [diet conflicts].
    destruct (is_conflicting_ingredient U ing_name conflicts);
      [ | apply emits_ret ].
    apply emits_writerow. reflexivity.
Qed.

Lemma emits_proxy_rows (product_code : str) (parsed : gset str)
    (allergen_name : str) :
  emits (proxy_rows U product_code parsed allergen_name)
    (proxy_full U product_code parsed allergen_name) false.
Proof.
  unfold proxy_rows, proxy_full. cbv zeta.
  destruct (is_explained_by_ingredient U parsed allergen_name);
    [ apply emits_ret | ].
  cbn [negb when].
  apply (emits_bind _ _ [_]); [ apply emits_write_ingredient_node | intros _ ].
  apply (emits_bind _ _ [_] [_]); intros; apply emits_writerow; reflexivity.
Qed.

Lemma parse_error (v : pyval) (e : exn) :
  parse_ingredients_from_text U v = inl e -> e = TypeError.
Proof.
  unfold parse_ingredients_from_text.
  destruct (negb (truthy v)); [ discriminate | ].
  destruct v; intros H; inversion H; reflexivity.
Qed.

Lemma emits_raise {A B} (k : A -> M B) :
  emits (lift (inl TypeError) ≫= k) [] true.
Proof.
  intros st seen _. cbv zeta. cbn [first_nodes length].
  assert (Hfit : fits (quota st) 0 = true)
    by (destruct (quota st); reflexivity).
  rewrite Hfit. exists st. split; [ reflexivity | ].
  rewrite app_nil_r. reflexivity.
Qed.

Lemma emits_accepted_product (product_doc : doc) (product_code : str) :
  emits (accepted_product U product_doc product_code)
    (match parse_ingredients_from_text U (ingredients_text product_doc) with
     | inr _ => product_full U product_doc product_code
     | inl _ =>
         [NodeRow product_code (product_name_of product_doc product_code)
            Product]
     end)
    (match parse_ingredients_from_text U (ingredients_text product_doc) with
     | inr _ => false
     | inl _ => true
     end).
Proof.
  unfold accepted_product, product_full, parsed_of. cbv zeta.
  fold (product_name_of product_doc product_code).
  destruct (parse_ingredients_from_text U (ingredients_text product_doc))
    as [e | parsed] eqn:Hp.
  - apply parse_error in Hp as ->.
    rewrite <- (app_nil_r [_]).
    apply emits_bind; [ apply emits_writerow; reflexivity | intros _ ].
    apply emits_raise.
  - apply emits_bind; [ apply emits_writerow; reflexivity | intros _ ].
    cbn [lift]. change (mret parsed ≫= ?k) with (k parsed). cbv beta.
    apply emits_bind;
      [ apply emits_for_each, emits_ingredient_rows | intros _ ].
    apply emits_bind; [ apply emits_for_each, emits_proxy_rows | intros _ ].
    apply emits_bind; [ | intros _ ].
    { rewrite <- flat_map_singleton. apply emits_for_each. intros x.
      apply emits_writerow. reflexivity. }
    apply emits_first;
      [ | intros _; apply emits_update; intros st;
          split; [ reflexivity | split; [ reflexivity | intros []; reflexivity ] ] ].
    rewrite <- flat_map_singleton. apply emits_for_each. intros x.
    apply emits_writerow. reflexivity.
Qed.

Lemma emits_rejected (product_doc : doc) :
  emits (logging (WARNING_skipping (get product_doc "_id")) ;; incr_skipped)
    [] false.
Proof.
  apply emits_then; [ apply emits_logging | intros _ ].
  apply emits_update. intros st.
  split; [ reflexivity | split; [ reflexivity | intros []; reflexivity ] ].
Qed.

Lemma emits_process_product (product_doc : doc) :
  emits (process_product U product_doc)
    (match accepted_code U (get product_doc "code") with
     | None => []
     | Some product_code =>
         match parse_ingredients_from_text U (ingredients_text product_doc)
         with
         | inr _ => product_full U product_doc product_code
         | inl _ =>
             [NodeRow product_code (product_name_of product_doc product_code)
                Product]
         end
     end)
    (unparsable U product_doc).
Proof.
  unfold process_product, unparsable.
  destruct (accepted_code U (get product_doc "code")) as [code |].
  - apply emits_accepted_product.
  - apply emits_rejected.
Qed.

Lemma emits_records (products_cursor : list doc) :
  emits (for_each products_cursor (process_product U))
    (records_rows U products_cursor)
    (existsb (unparsable U) products_cursor).
Proof.
  induction products_cursor as [| d rest IH]; [ apply emits_ret | ].
  cbn [for_each records_rows existsb].
  pose proof (emits_process_product d) as H. unfold unparsable in *.
  destruct (accepted_code U (get d "code")) as [code |].
  - destruct (parse_ingredients_from_text U (ingredients_text d)).
    + apply emits_halt_bind. exact H.
    + apply emits_bind; [ exact H | intros _; exact IH ].
  - apply emits_then; [ exact H | intros _; exact IH ].
Qed.

Lemma emits_catalog_node (lbl : label) (rd : state -> gset str)
    (add : str -> M unit) (l : list str) :
  lbl <> Product ->
  (forall st, rd st = ledger_of lbl st) ->
  (forall x st, exists st',
     add x st = Ok tt st' /\ out st' = out st /\ quota st' = quota st
     /\ forall l id,
          id ∈ ledger_of l st' <-> (l = lbl /\ id = x) \/ id ∈ ledger_of l st) ->
  emits (for_each l
           (fun x =>
              seen ← read rd;
              when (negb (bool_decide (x ∈ seen)))
                (writerow (NodeRow x (PStr []) lbl) ;; add x)))
    (flat_map (fun x => [NodeRow x (PStr []) lbl]) l) false.
Proof.
  intros Hl Hrd Hadd. apply emits_for_each. intros x.
  apply emits_node; [ exact Hl | exact Hrd | apply Hadd ].
Qed.

Lemma emits_write_tsv (products_cursor : list doc) :
  emits (write_tsv U products_cursor)
    (catalog_rows ++ records_rows U products_cursor)
    (existsb (unparsable U) products_cursor).
Proof.
  unfold write_tsv, catalog_rows. rewrite <- !app_assoc.
  apply emits_bind; [ apply emits_writerow; reflexivity | intros _ ].
  apply emits_bind; [ | intros _ ].
  { apply (emits_catalog_node Allergen written_allergens add_written_allergen);
      [ discriminate | reflexivity | ].
    intros x st. eexists. split; [ reflexivity | ].
    split; [ reflexivity | split; [ reflexivity | ] ].
    intros l id. destruct l; simpl.
    + split; [ tauto | intros [[H _] | H]; [ discriminate H | exact H ] ].
    + split; [ tauto | intros [[H _] | H]; [ discriminate H | exact H ] ].
    + rewrite elem_of_union, elem_of_singleton.
      split; [ intros [-> | H]; tauto | intros [[_ ->] | H]; tauto ].
    + split; [ tauto | intros [[H _] | H]; [ discriminate H | exact H ] ]. }
  apply emits_read_bind. intros n.
  apply emits_then; [ apply emits_logging | intros _ ].
  apply emits_bind; [ | intros _ ].
  { apply (emits_catalog_node DietaryPreference written_diet_prefs
             add_written_diet_pref); [ discriminate | reflexivity | ].
    intros x st. eexists. split; [ reflexivity | ].
    split; [ reflexivity | split; [ reflexivity | ] ].
    intros l id. destruct l; simpl.
    + split; [ tauto | intros [[H _] | H]; [ discriminate H | exact H ] ].
    + split; [ tauto | intros [[H _] | H]; [ discriminate H | exact H ] ].
    + split; [ tauto | intros [[H _] | H]; [ discriminate H | exact H ] ].
    + rewrite elem_of_union, elem_of_singleton.
      split; [ intros [-> | H]; tauto | intros [[_ ->] | H]; tauto ]. }
  apply emits_read_bind. intros n'.
  apply emits_then; [ apply emits_logging | intros _ ].
  pose proof (emits_records products_cursor) as H.
  destruct (existsb (unparsable U) products_cursor).
  - apply emits_halt_bind. exact H.
  - apply emits_first; [ exact H | intros _ ].
    apply emits_read_bind. intros c.
    apply emits_then; [ apply emits_logging | intros _ ].
    apply emits_read_bind. intros k.
    destruct (negb (k =? 0)%nat); [ apply emits_logging | apply emits_ret ].
Qed.

Lemma agrees_start (q : option nat) (m : logmsg) :
  agrees [] (logged m (start q)).
Proof.
  intros lbl id. split; [ intros H; inversion H | ].
  destruct lbl; simpl; intros H; apply elem_of_empty in H; contradiction.
Qed.

(** The rows a run leaves in the sink. *)
Lemma output_rows (products_cursor : list doc) (q : option nat) :
  out (final (generate_csv_data U products_cursor (start q)))
  = take_quota q (expected_rows U products_cursor).
Proof.
  unfold generate_csv_data, expected_rows.
  destruct products_cursor as [| d rest].
  - destruct q as [[| n] |]; reflexivity.
  - set (docs := d :: rest).
    change ((length docs =? 0)%nat) with false. cbv iota.
    change (out (final (try_logged (write_tsv U docs)
                          (logged (INFO_found (length docs)) (start q))))
            = take_quota q (first_nodes [] (catalog_rows ++ records_rows U docs))).
    pose proof (emits_write_tsv docs _ []
                  (agrees_start q (INFO_found (length docs)))) as H.
    cbv zeta in H. unfold try_logged.
    change (quota (logged (INFO_found (length docs)) (start q))) with q in H.
    change (out (logged (INFO_found (length docs)) (start q)))
      with (@nil row) in H.
    destruct (fits q _) eqn:Hfit.
    + rewrite (take_quota_fits _ _ Hfit).
      destruct (existsb (unparsable U) docs).
      * destruct H as (st' & -> & Ho). exact Ho.
      * destruct H as (a & st' & -> & Ho & _). exact Ho.
    + destruct H as (st' & -> & Ho). exact Ho.
Qed.

End EmitsEngine.

(** ** Every node that is referred to has its row *)

Section NodesWritten.

Context (U : unicode).

Lemma is_node_key (lbl : label) (id : str) (r : row) :
  lbl <> Product ->
  is_node lbl id r = true <-> node_key r = Some (lbl, id).
Proof.
  intros Hl. destruct r as [| id' name lbl' | rel f fl t tl]; simpl;
    try (split; discriminate).
  rewrite andb_true_iff, !bool_decide_eq_true. split.
  - intros [-> ->]. destruct lbl; [ contradiction | reflexivity .. ].
  - destruct lbl'; [ discriminate | | | ]; intros H; inversion H; subst;
      split; reflexivity.
Qed.

Lemma count_key_absent (lbl : label) (id : str) (rows : list row) :
  lbl <> Product -> (lbl, id) ∉ node_keys rows ->
  count (is_node lbl id) rows = O.
Proof.
  intros Hl H. apply count_none. intros r Hr.
  destruct (is_node lbl id r) eqn:E; [ | reflexivity ].
  exfalso. apply H. apply (is_node_key lbl id r Hl) in E.
  unfold node_keys. apply list_elem_of_omap. exists r.
  split; [ exact Hr | exact E ].
Qed.

(** A key that occurs, in a list where no key occurs twice, is on
    exactly one row. *)
Lemma count_key_once (lbl : label) (id : str) (rows : list row) :
  lbl <> Product -> NoDup (node_keys rows) -> (lbl, id) ∈ node_keys rows ->
  count (is_node lbl id) rows = 1%nat.
Proof.
  intros Hl. induction rows as [| r rows IH]; intros Hnd Hin.
  { inversion Hin. }
  rewrite node_keys_cons in Hnd, Hin.
  change (r :: rows) with ([r] ++ rows). rewrite count_app.
  destruct (node_key r) as [k |] eqn:Hk.
  - apply NoDup_cons in Hnd as [Hnotin Hnd].
    destruct (decide (k = (lbl, id))) as [-> | Hne].
    + rewrite (count_key_absent lbl id rows Hl Hnotin).
      unfold count. simpl.
      rewrite (proj2 (is_node_key lbl id r Hl) Hk). reflexivity.
    + apply elem_of_cons in Hin as [Hin | Hin]; [ congruence | ].
      rewrite (IH Hnd Hin). unfold count. simpl.
      destruct (is_node lbl id r) eqn:E; [ | reflexivity ].
      apply (is_node_key lbl id r Hl) in E. congruence.
  - rewrite (IH Hnd Hin). unfold count. simpl.
    destruct (is_node lbl id r) eqn:E; [ | reflexivity ].
    apply (is_node_key lbl id r Hl) in E. congruence.
Qed.

Lemma node_key_elem (r : row) (k : label * str) (rows : list row) :
  r ∈ rows -> node_key r = Some k -> k ∈ node_keys rows.
Proof.
  intros Hr Hk. unfold node_keys. apply list_elem_of_omap.
  exists r. split; assumption.
Qed.

(** Product rows are never left out. *)
Lemma count_product_first_nodes (code : str) (seen : list (label * str))
    (l : list row) :
  count (is_node Product code) (first_nodes seen l)
  = count (is_node Product code) l.
Proof.
  revert seen. induction l as [| r l IH]; intros seen; [ reflexivity | ].
  cbn [first_nodes].
  change (r :: l) with ([r] ++ l). rewrite (count_app _ [r] l).
  destruct (node_key r) as [k |] eqn:Hk.
  - assert (Hr : count (is_node Product code) [r] = O).
    { destruct r as [| id name lbl |]; try reflexivity.
      destruct lbl; [ discriminate Hk | reflexivity .. ]. }
    rewrite Hr. destruct (bool_decide (k ∈ seen)); [ apply IH | ].
    change (r :: ?x) with ([r] ++ x). rewrite count_app, Hr. apply IH.
  - change (r :: ?x) with ([r] ++ x). rewrite count_app, IH. reflexivity.
Qed.

Lemma parses_not_unparsable (products_cursor : list doc) :
  (forall d, d ∈ products_cursor -> parses U d) ->
  existsb (unparsable U) products_cursor = false.
Proof.
  intros H. induction products_cursor as [| d rest IH]; [ reflexivity | ].
  cbn [existsb]. rewrite IH by (intros d' Hd'; apply H; right; exact Hd').
  destruct (H d) as [parsed Hp]; [ left | ].
  unfold unparsable. rewrite Hp.
  destruct (accepted_code U (get d "code")); reflexivity.
Qed.

Lemma records_rows_full (products_cursor : list doc) :
  existsb (unparsable U) products_cursor = false ->
  records_rows U products_cursor = flat_map (record_full U) products_cursor.
Proof.
  induction products_cursor as [| d rest IH]; [ reflexivity | ].
  cbn [existsb records_rows flat_map]. intros H.
  apply orb_false_iff in H as [Hd Hrest]. rewrite (IH Hrest).
  unfold unparsable in Hd.
  assert (Hr : record_full U d
               = match accepted_code U (get d "code") with
                 | Some product_code => product_full U d product_code
                 | None => []
                 end) by reflexivity.
  rewrite Hr.
  destruct (accepted_code U (get d "code")) as [code |]; [ | reflexivity ].
  destruct (parse_ingredients_from_text U (ingredients_text d));
    [ discriminate Hd | reflexivity ].
Qed.

(** The rows of a run that completes. *)
Lemma complete_rows (products_cursor : list doc) :
  products_cursor <> [] ->
  (forall d, d ∈ products_cursor -> parses U d) ->
  out (final (generate_csv_data U products_cursor (start None)))
  = first_nodes [] (run_full U products_cursor).
Proof.
  intros Hne Hp. rewrite output_rows. cbn [take_quota].
  unfold expected_rows, run_full, catalog_rows.
  destruct products_cursor as [| d rest]; [ contradiction | ].
  rewrite (records_rows_full _ (parses_not_unparsable _ Hp)).
  rewrite <- !app_assoc. reflexivity.
Qed.

Lemma catalog_key (lbl : label) (x : str) (l : list str)
    (pre post : list row) :
  lbl <> Product -> x ∈ l ->
  (lbl, x)
  ∈ node_keys
      (pre ++ flat_map (fun a => [NodeRow a (PStr []) lbl]) l ++ post).
Proof.
  intros Hl Hx. apply (node_key_elem (NodeRow x (PStr []) lbl)).
  - apply elem_of_app. right. apply elem_of_app. left.
    apply list_elem_of_In, in_flat_map. exists x.
    split; [ apply list_elem_of_In, Hx | left; reflexivity ].
  - destruct lbl; [ contradiction | reflexivity .. ].
Qed.

Lemma record_full_run (products_cursor : list doc) (product_doc : doc)
    (r : row) :
  product_doc ∈ products_cursor -> r ∈ record_full U product_doc ->
  r ∈ run_full U products_cursor.
Proof.
  intros Hd Hr. unfold run_full.
  apply elem_of_app. right. apply elem_of_app. right.
  apply elem_of_app. right.
  apply list_elem_of_In, in_flat_map. exists product_doc.
  split; apply list_elem_of_In; assumption.
Qed.

Lemma ingredient_node_full (product_doc : doc) (code ing : str) :
  refers_to_ingredient U product_doc code ing ->
  NodeRow ing (PStr []) Ingredient ∈ product_full U product_doc code.
Proof.
  unfold product_full. intros [H | (a & Ha & He & ->)].
  - apply elem_of_app. right. apply elem_of_app. left.
    apply list_elem_of_In, in_flat_map. exists ing.
    split; [ apply list_elem_of_In, elem_of_elements, H | left; reflexivity ].
  - apply elem_of_app. right. apply elem_of_app. right.
    apply elem_of_app. left.
    apply list_elem_of_In, in_flat_map. exists a.
    split; [ apply list_elem_of_In, elem_of_elements, Ha | ].
    unfold proxy_full. rewrite He. left. reflexivity.
Qed.

(** An accepted record has one Product row, and it bears its code. *)
Lemma count_product_record (code : str) (product_doc : doc) :
  count (is_node Product code) (record_full U product_doc)
  = if accepted_with U code product_doc then 1%nat else O.
Proof.
  unfold record_full, accepted_with.
  destruct (accepted_code U (get product_doc "code")) as [c |] eqn:Hc.
  - unfold product_full. rewrite !count_app.
    rewrite count_product_node_ingredients, count_product_node_proxies.
    rewrite !count_map_rel by reflexivity.
    unfold count. simpl.
    destruct (bool_decide_reflect (c = code)) as [-> | Hne].
    + rewrite bool_decide_eq_true_2 by reflexivity. reflexivity.
    + rewrite bool_decide_eq_false_2 by congruence. reflexivity.
  - rewrite bool_decide_eq_false_2 by discriminate. reflexivity.
Qed.

Lemma count_product_run (code : str) (products_cursor : list doc) :
  count (is_node Product code) (run_full U products_cursor)
  = length (List.filter (accepted_with U code) products_cursor).
Proof.
  unfold run_full. rewrite !count_app.
  assert (H1 : count (is_node Product code) [HeaderRow] = O) by reflexivity.
  assert (H2 : forall lbl l, lbl <> Product ->
    count (is_node Product code)
      (flat_map (fun a => [NodeRow a (PStr []) lbl]) l) = O).
  { intros lbl l Hl. apply count_flat_map_none. intros x _.
    destruct lbl; [ contradiction | reflexivity .. ]. }
  rewrite H1, !H2 by discriminate. simpl.
  induction products_cursor as [| d l IH]; [ reflexivity | ].
  simpl. rewrite count_app, count_product_record, IH.
  destruct (accepted_with U code d); reflexivity.
Qed.

(** On a sink that never fails, with records that parse, every node that
    is referred to has exactly one row, and a code has as many Product
    rows as there are records accepted with it. *)
Lemma nodes_written (products_cursor : list doc) :
  (forall d, d ∈ products_cursor -> parses U d) ->
  let rows :=
    out (final (generate_csv_data U products_cursor (start None))) in
  (products_cursor <> [] ->
   (forall a, a ∈ KNOWN_ALLERGENS -> count (is_node Allergen a) rows = 1%nat)
   /\ (forall x, x ∈ map fst DIETARY_PREFERENCES_MAP ->
         count (is_node DietaryPreference x) rows = 1%nat))
  /\ (forall d code ing,
        d ∈ products_cursor ->
        accepted_code U (get d "code") = Some code ->
        refers_to_ingredient U d code ing ->
        count (is_node Ingredient ing) rows = 1%nat)
  /\ (forall code,
        count (is_node Product code) rows
        = length (List.filter (accepted_with U code) products_cursor)).
Proof.
  intros Hp. cbv zeta.
  destruct products_cursor as [| d0 rest].
  { split; [ intros H; contradiction | split ].
    - intros d code ing Hd. inversion Hd.
    - intros code. reflexivity. }
  set (docs := d0 :: rest) in *.
  assert (Hne : docs <> []) by discriminate.
  rewrite (complete_rows docs Hne Hp).
  assert (Hone : forall lbl id,
    lbl <> Product -> (lbl, id) ∈ node_keys (run_full U docs) ->
    count (is_node lbl id) (first_nodes [] (run_full U docs)) = 1%nat).
  { intros lbl id Hl Hk. apply (count_key_once lbl id _ Hl).
    - apply first_nodes_nodup.
    - apply first_nodes_keys. split; [ exact Hk | ].
      intros H. inversion H. }
  split; [ intros _; split | split ].
  - intros a Ha. apply Hone; [ discriminate | ].
    unfold run_full. apply catalog_key; [ discriminate | ].
    apply elem_of_elements, Ha.
  - intros x Hx. apply Hone; [ discriminate | ].
    unfold run_full. rewrite (app_assoc [HeaderRow]).
    apply catalog_key; [ discriminate | exact Hx ].
  - intros d code ing Hd Hc Hing. apply Hone; [ discriminate | ].
    apply (node_key_elem (NodeRow ing (PStr []) Ingredient));
      [ | reflexivity ].
    apply (record_full_run docs d _ Hd). unfold record_full. rewrite Hc.
    apply ingredient_node_full, Hing.
  - intros code. rewrite count_product_first_nodes.
    apply count_product_run.
Qed.

End NodesWritten.

(** C4.  In the rows of a run, whatever the records and wherever a write
    may fail, no key of an Ingredient, Allergen or DietaryPreference node
    row occurs twice, every endpoint of every relationship row has a node
    row, and the Product rows with a given code are no more than the
    records that carry that code.  On a sink that never fails, with
    records whose ingredient text can be parsed, every node that is
    referred to has exactly one row, however many records refer to it:
    each allergen and each dietary preference of the catalogs, each
    ingredient parsed from an accepted record and each proxy ingredient;
    and a code has exactly as many Product rows as there are records
    accepted with it. *)
Theorem node_rows_once (U : unicode) (products_cursor : list doc)
    (q : option nat) :
  let rows := out (final (generate_csv_data U products_cursor (start q))) in
  NoDup (node_keys rows)
  /\ (forall rel f fl t tl,
        RelRow rel f fl t tl ∈ rows ->
        (exists name, NodeRow f name fl ∈ rows)
        /\ (exists name, NodeRow t name tl ∈ rows))
  /\ (forall code,
        (count (is_node Product code) rows
         <= length (List.filter (has_code code) products_cursor))%nat)
  /\ (q = None ->
      (forall d, d ∈ products_cursor -> parses U d) ->
      (products_cursor <> [] ->
       (forall a, a ∈ KNOWN_ALLERGENS ->
          count (is_node Allergen a) rows = 1%nat)
       /\ (forall x, x ∈ map fst DIETARY_PREFERENCES_MAP ->
             count (is_node DietaryPreference x) rows = 1%nat))
      /\ (forall d code ing,
            d ∈ products_cursor ->
            accepted_code U (get d "code") = Some code ->
            refers_to_ingredient U d code ing ->
            count (is_node Ingredient ing) rows = 1%nat)
      /\ (forall code,
            count (is_node Product code) rows
            = length (List.filter (accepted_with U code) products_cursor))).
Proof.
  cbv zeta.
  pose proof (consistent_generate_csv_data U products_cursor (start q)
                (consistent_start q)) as H.
  assert (Hc : consistent
                 (final (generate_csv_data U products_cursor (start q)))).
  { destruct (generate_csv_data U products_cursor (start q)); exact H. }
  destruct Hc as [(Hnd & _) Hep].
  split; [ exact Hnd | split; [ exact Hep | split ] ].
  - intros code.
    destruct (ww_generate_csv_data U products_cursor (start q))
      as (rs & Ho & Hs).
    rewrite Ho. simpl.
    etrans; [ apply count_sublist, Hs | apply count_product_node_run ].
  - intros -> Hp. exact (nodes_written U products_cursor Hp).
Qed.

Lemma node_rows_once_witness :
  let rows :=
    out (final (generate_csv_data unicode_u5317 salted_records (start None)))
  in
  count (is_node Ingredient (py "salt")) rows = 1%nat
  /\ count (is_node Ingredient (py "en:eggs_source_for_8")) rows = 1%nat
  /\ count (is_node Allergen (py "en:lupin")) rows = 1%nat
  /\ count (is_node DietaryPreference (py "vegan")) rows = 1%nat
  /\ count (is_node Product (py "8")) rows = 2%nat.
Proof.
  cbv zeta.
  destruct (node_rows_once unicode_u5317 salted_records None)
    as (_ & _ & _ & H).
  destruct H as (Hcat & Hing & Hprod); [ reflexivity | | ].
  { intros d Hd.
    repeat (apply elem_of_cons in Hd as [-> | Hd];
            [ eexists; vm_compute; reflexivity | ]).
    inversion Hd. }
  destruct Hcat as [Ha Hd]; [ discriminate | ].
  split; [ | split; [ | split; [ | split ] ] ].
  - apply (Hing _ (py "8") _ (list_elem_of_further _ _ _ (list_elem_of_here _ _)));
      [ reflexivity | left ].
    apply (bool_decide_unpack _). vm_compute. exact I.
  - apply (Hing _ (py "8") _ (list_elem_of_further _ _ _ (list_elem_of_here _ _)));
      [ reflexivity | right ].
    exists (py "en:eggs").
    split; [ apply (bool_decide_unpack _); vm_compute; exact I | ].
    split; [ vm_compute; reflexivity | reflexivity ].
  - apply Ha. apply (bool_decide_unpack _). vm_compute. exact I.
  - apply Hd. apply (bool_decide_unpack _). vm_compute. exact I.
  - rewrite Hprod. vm_compute. reflexivity.
Defined.


(** ** Proxy ingredients *)

(** A decidable form of "no parsed ingredient matches a pattern of the
    allergen". *)
Lemma no_pattern_matches (U : unicode) (parsed : gset str)
    (allergen_name : str) :
  forallb
    (fun ing =>
       forallb
         (fun '(pat, a) =>
            negb (re_search U true pat ing && bool_decide (a = allergen_name)))
         INGREDIENT_TO_ALLERGEN_MAP)
    (elements parsed) = true ->
  forall ing pat,
    ing ∈ parsed -> (pat, allergen_name) ∈ INGREDIENT_TO_ALLERGEN_MAP ->
    re_search U true pat ing = false.
Proof.
  intros H ing pat Hing Hpat.
  rewrite forallb_forall in H.
  specialize (H ing (proj1 (list_elem_of_In _ _)
                       (proj2 (elem_of_elements _ _) Hing))).
  rewrite forallb_forall in H.
  specialize (H (pat, allergen_name) (proj1 (list_elem_of_In _ _) Hpat)).
  simpl in H. rewrite bool_decide_eq_true_2 in H by reflexivity.
  rewrite andb_true_r in H. apply negb_true_iff in H. exact H.
Qed.

(** C5.  Take an accepted record with the explicit allergen tag
    ["en:milk"].  If no parsed ingredient matches a pattern of ["en:milk"],
    then on a sink that never fails, from a state whose ledgers agree with
    the sink, processing the record returns, writes the HAS_INGREDIENT
    edge to the proxy [en:milk_source_for_<code>] and the IS_ALLERGEN edge
    from it, and leaves the node row of the proxy in the sink; in a whole
    run whose records all parse these three rows are in the output.  If
    ["cheese"] is a parsed ingredient, none of the rows the record writes
    is about that proxy. *)
Theorem proxy_synthesis (U : unicode) (product_doc : doc) (code : str)
    (parsed : gset str) :
  accepted_code U (get product_doc "code") = Some code ->
  parse_ingredients_from_text U (ingredients_text product_doc) = inr parsed ->
  py "en:milk" ∈ explicit_product_allergens U product_doc ->
  let proxy := proxy_ingredient_name (py "en:milk") code in
  let node := NodeRow proxy (PStr []) Ingredient in
  let has := RelRow HAS_INGREDIENT code Product proxy Ingredient in
  let is_allergen :=
    RelRow IS_ALLERGEN proxy Ingredient (py "en:milk") Allergen in
  ((forall ing pat,
      ing ∈ parsed -> (pat, py "en:milk") ∈ INGREDIENT_TO_ALLERGEN_MAP ->
      re_search U true pat ing = false) ->
   (forall st, quota st = None -> ledger_inv st ->
      exists st' rs,
        process_product U product_doc st = Ok tt st'
        /\ out st' = out st ++ rs
        /\ node ∈ out st' /\ has ∈ rs /\ is_allergen ∈ rs)
   /\ (forall products_cursor,
         product_doc ∈ products_cursor ->
         (forall d, d ∈ products_cursor -> parses U d) ->
         exists st',
           generate_csv_data U products_cursor (start None) = Ok tt st'
           /\ node ∈ out st' /\ has ∈ out st' /\ is_allergen ∈ out st'))
  /\ (py "cheese" ∈ parsed ->
      forall st, exists rs,
        out (final (process_product U product_doc st)) = out st ++ rs
        /\ forall r, r ∈ rs -> ~ about_ingredient proxy r).
Proof.
  intros Hcode Hparsed Hmilk proxy node has is_allergen. split.
  - intros Hno.
    pose proof (explained_false U parsed (py "en:milk") Hno) as He.
    assert (Hadds : adds (process_product U product_doc) [has; is_allergen]
                      [proxy]).
    { unfold process_product. rewrite Hcode.
      apply (adds_accepted_proxy U product_doc code parsed Hparsed);
        assumption. }
    split.
    + intros st Hq Hinv.
      pose proof (preserves_process_product U product_doc st Hinv) as Hinv'.
      assert (Hsure : sure (out st) [] [] st).
      { split; [ exact Hq | split ].
        - exists []. rewrite app_nil_r. split; [ reflexivity | ].
          intros r Hr. inversion Hr.
        - intros n Hn. inversion Hn. }
      pose proof (Hadds (out st) [] [] st Hsure) as Hrun.
      destruct (process_product U product_doc st) as [[] st' | e st'];
        [ | contradiction ].
      destruct Hrun as (_ & (rs & Ho & Hrs) & Hn).
      exists st', rs. split; [ reflexivity | split; [ exact Ho | ] ].
      split; [ | split ].
      * destruct Hinv' as (_ & _ & H3). apply (H3 Ingredient).
        apply Hn. left.
      * apply Hrs. left.
      * apply Hrs. right. left.
    + intros docs Hin Hall.
      pose proof (preserves_generate_csv_data U docs (start None)
                    (ledger_inv_start None)) as Hinv'.
      assert (Hsure : sure [] [] [] (start None)).
      { split; [ reflexivity | split ].
        - exists []. split; [ reflexivity | ]. intros r Hr. inversion Hr.
        - intros n Hn. inversion Hn. }
      pose proof (adds_generate_csv_data U docs product_doc _ _ Hin Hall Hadds
                    [] [] [] (start None) Hsure) as Hrun.
      destruct (generate_csv_data U docs (start None)) as [[] st' | e st'];
        [ | contradiction ].
      destruct Hrun as (_ & (rs & Ho & Hrs) & Hn).
      exists st'. split; [ reflexivity | ]. simpl in Ho. rewrite Ho.
      split; [ | split ].
      * rewrite <- Ho. destruct Hinv' as (_ & _ & H3).
        apply (H3 Ingredient). apply Hn. left.
      * apply Hrs. left.
      * apply Hrs. right. left.
  - intros Hcheese st.
    destruct (ww_process_product U product_doc st) as (rs & Ho & Hs).
    exists rs. split; [ exact Ho | ].
    intros r Hr Habout.
    unfold record_full in Hs. rewrite Hcode in Hs.
    pose proof (elem_of_sublist _ _ _ Hr Hs) as Hfull.
    assert (Hp : parsed_of U product_doc = parsed)
      by (unfold parsed_of; rewrite Hparsed; reflexivity).
    apply (product_full_about U _ _ proxy) in Hfull; [ | exact Habout ].
    rewrite Hp in Hfull.
    destruct Hfull as [Hin | (a & Ha & He & Heq)].
    + apply (parsed_no_colon U _ _ _ Hparsed Hin).
      apply proxy_colon. apply (explicit_known U product_doc), Hmilk.
    + apply proxy_inj in Heq. subst a.
      rewrite (explained_by_cheese U parsed Hcheese) in He. discriminate He.
Qed.

Lemma proxy_synthesis_witness :
  (exists st',
     generate_csv_data unicode_u5317 [cheese_record; milk_tag_record]
       (start None) = Ok tt st'
     /\ NodeRow (py "en:milk_source_for_7") (PStr []) Ingredient ∈ out st'
     /\ RelRow HAS_INGREDIENT (py "7") Product (py "en:milk_source_for_7")
          Ingredient ∈ out st'
     /\ RelRow IS_ALLERGEN (py "en:milk_source_for_7") Ingredient
          (py "en:milk") Allergen ∈ out st')
  /\ (exists rs,
        out (final (process_product unicode_u5317 cheese_record (start None)))
        = rs
        /\ forall r, r ∈ rs ->
             ~ about_ingredient (py "en:milk_source_for_8") r).
Proof.
  assert (Hp7 : parse_ingredients_from_text unicode_u5317
                  (ingredients_text milk_tag_record)
                = inr ({[ py "water"; py "sugar" ]} : gset str))
    by (vm_compute; reflexivity).
  assert (Hp8 : parse_ingredients_from_text unicode_u5317
                  (ingredients_text cheese_record)
                = inr ({[ py "cheese"; py "salt" ]} : gset str))
    by (vm_compute; reflexivity).
  split.
  - destruct (proxy_synthesis unicode_u5317 milk_tag_record (py "7")
                {[ py "water"; py "sugar" ]} eq_refl Hp7
                ltac:(apply (bool_decide_unpack _); vm_compute; exact I))
      as [H _].
    destruct H as [_ H].
    { apply no_pattern_matches. vm_compute. reflexivity. }
    apply (H [cheese_record; milk_tag_record]).
    + right. left.
    + intros d Hd. apply elem_of_cons in Hd as [-> | Hd];
        [ eexists; exact Hp8 | ].
      apply list_elem_of_singleton in Hd. subst d. eexists. exact Hp7.
  - destruct (proxy_synthesis unicode_u5317 cheese_record (py "8")
                {[ py "cheese"; py "salt" ]} eq_refl Hp8
                ltac:(apply (bool_decide_unpack _); vm_compute; exact I))
      as [_ H].
    destruct (H ltac:(apply (bool_decide_unpack _); vm_compute; exact I)
                (start None)) as (rs & Ho & Hrs).
    exists rs. split; [ exact Ho | exact Hrs ].
Defined.

(** ** Suitability *)

Section Labels.

Context (U : unicode).

Lemma strip_strip (s : str) : strip U (strip U s) = strip U s.
Proof. destruct (strip_ok U s) as [H1 H2]. apply strip_fixed; assumption. Qed.


Lemma split_tags_elem (data s : str) :
  PStr s ∈ split_tags U data
  <-> s <> [] /\ exists piece, piece ∈ split_on 44 data /\ s = strip U piece.
Proof.
  unfold split_tags. rewrite list_elem_of_fmap. split.
  - intros (t & Heq & Ht). inversion Heq; subst t.
    apply list_elem_of_filter in Ht as [Hne Ht].
    apply list_elem_of_fmap in Ht as (piece & -> & Hp).
    split.
    + intros E. rewrite E in Hne. exact Hne.
    + exists piece. split; [ exact Hp | reflexivity ].
  - intros (Hne & piece & Hp & ->). exists (strip U piece).
    split; [ reflexivity | ].
    apply list_elem_of_filter. split.
    + destruct (strip U piece); [ contradiction | exact I ].
    + apply list_elem_of_fmap. exists piece. split; [ reflexivity | exact Hp ].
Qed.




End Labels.




(** The record of the specification's end-to-end example, labelled
    ["en:vegan"] and with milk among its ingredients, gets both the
    conflict of milk with vegan and the suitability for vegan. *)
Lemma vegan_label_with_milk (U : unicode) :
  let rows :=
    out (final (generate_csv_data U [spec_example_record] (start None))) in
  count (is_rel CONFLICTS_WITH_DIET (py "milk") (py "vegan")) rows = 1%nat
  /\ count (is_rel IS_SUITABLE_FOR (py "123") (py "vegan")) rows = 1%nat.
Proof. split; vm_compute; reflexivity. Qed.

(** ** Repeated tags *)

Section Repeated.

Context (U : unicode).

Lemma count_product_full_other (P : row -> bool) (product_doc : doc)
    (code : str) :
  (forall p r, about_ingredient p r -> P r = false) ->
  (forall name, P (NodeRow code name Product) = false) ->
  count P (product_full U product_doc code)
  = (count P (map (trace_row code)
                (elements (processed_traces_allergens U product_doc)))
     + count P (map (label_row code)
                  (elements (suitable_diet_prefs_for_product U product_doc))))%nat.
Proof.
  intros Habout Hnode. unfold product_full. rewrite !count_app.
  assert (H1 : count P [NodeRow code (product_name_of product_doc code) Product]
               = O).
  { unfold count. simpl. rewrite Hnode. reflexivity. }
  assert (H2 : count P (flat_map (ingredient_full U code)
                          (elements (parsed_of U product_doc))) = O).
  { apply count_flat_map_none. intros ing _. apply count_none. intros r Hr.
    eapply Habout, ingredient_full_about, Hr. }
  assert (H3 : count P (flat_map (proxy_full U code (parsed_of U product_doc))
                          (elements (explicit_product_allergens U product_doc)))
               = O).
  { apply count_flat_map_none. intros a _. apply count_none. intros r Hr.
    eapply Habout, proxy_full_about, Hr. }
  rewrite H1, H2, H3. reflexivity.
Qed.

Lemma is_rel_not_about (rel : reltype) (f t p : str) (r : row) :
  rel = MAY_CONTAIN_ALLERGEN \/ rel = IS_SUITABLE_FOR ->
  about_ingredient p r -> is_rel rel f t r = false.
Proof.
  intros Hrel Hr.
  destruct r as [| id name lbl | rel' f' fl t' tl]; try reflexivity.
  unfold is_rel. destruct (bool_decide_reflect (rel' = rel)) as [-> | Hne];
    [ | reflexivity ].
  destruct Hrel as [-> | ->]; simpl in Hr; contradiction.
Qed.

Lemma count_traces (product_doc : doc) (code c a : str) :
  (count (is_rel MAY_CONTAIN_ALLERGEN c a) (product_full U product_doc code)
   <= 1)%nat.
Proof.
  rewrite count_product_full_other.
  - rewrite (count_map_rel _ (label_row code)) by reflexivity.
    rewrite Nat.add_0_r.
    apply (count_map_once _ _ _ a); [ apply NoDup_elements | ].
    intros x Hx. unfold trace_row, is_rel.
    rewrite (bool_decide_eq_false_2 (x = a)) by exact Hx.
    apply andb_false_r.
  - intros p r. apply is_rel_not_about. left. reflexivity.
  - reflexivity.
Qed.

Lemma count_labels (product_doc : doc) (code c diet_name : str) :
  (count (is_rel IS_SUITABLE_FOR c diet_name) (product_full U product_doc code)
   <= 1)%nat.
Proof.
  rewrite count_product_full_other.
  - rewrite (count_map_rel _ (trace_row code)) by reflexivity.
    apply (count_map_once _ _ _ diet_name); [ apply NoDup_elements | ].
    intros x Hx. unfold label_row, is_rel.
    rewrite (bool_decide_eq_false_2 (x = diet_name)) by exact Hx.
    apply andb_false_r.
  - intros p r. apply is_rel_not_about. right. reflexivity.
  - reflexivity.
Qed.

Lemma count_proxy_full (P : row -> bool) (code : str) (parsed : gset str)
    (a : str) :
  let proxy := proxy_ingredient_name a code in
  (P (NodeRow proxy (PStr []) Ingredient) = false
   /\ P (RelRow HAS_INGREDIENT code Product proxy Ingredient) = false)
  \/ (P (NodeRow proxy (PStr []) Ingredient) = false
      /\ P (RelRow IS_ALLERGEN proxy Ingredient a Allergen) = false)
  \/ (P (RelRow HAS_INGREDIENT code Product proxy Ingredient) = false
      /\ P (RelRow IS_ALLERGEN proxy Ingredient a Allergen) = false) ->
  (count P (proxy_full U code parsed a) <= 1)%nat.
Proof.
  intros proxy H. unfold proxy_full, count.
  destruct (is_explained_by_ingredient U parsed a); [ simpl; lia | ].
  cbv zeta. fold proxy. simpl.
  destruct H as [[-> ->] | [[-> ->] | [-> ->]]];
    repeat match goal with |- context [if ?b then _ else _] => destruct b end;
    simpl; lia.
Qed.

(** The rows of dietary conflict: one per ingredient and preference. *)
Lemma count_conflict_full (ing ing' dp : str) (l : list (str * gset str)) :
  NoDup (map fst l) ->
  (count (is_rel CONFLICTS_WITH_DIET ing dp)
     (flat_map
        (fun '(diet_pref_name, conflicting) =>
           if is_conflicting_ingredient U ing' conflicting
           then [RelRow CONFLICTS_WITH_DIET ing' Ingredient diet_pref_name
                   DietaryPreference]
           else []) l) <= 1)%nat.
Proof.
  intros Hnd.
  assert (Hnone : forall l',
    dp ∉ map fst l' ->
    count (is_rel CONFLICTS_WITH_DIET ing dp)
      (flat_map
         (fun '(diet_pref_name, conflicting) =>
            if is_conflicting_ingredient U ing' conflicting
            then [RelRow CONFLICTS_WITH_DIET ing' Ingredient diet_pref_name
                    DietaryPreference]
            else []) l') = O).
  { intros l' Hdp. apply count_flat_map_none. intros [d c] Hin.
    apply count_none. intros r Hr.
    destruct (is_conflicting_ingredient U ing' c); [ | inversion Hr ].
    apply list_elem_of_singleton in Hr. subst r. unfold is_rel.
    rewrite (bool_decide_eq_false_2 (d = dp)); [ apply andb_false_r | ].
    intros ->. apply Hdp. apply list_elem_of_In, in_map_iff.
    exists (dp, c). split; [ reflexivity | apply list_elem_of_In, Hin ]. }
  induction l as [| [d c] l IH]; [ unfold count; simpl; lia | ].
  cbn [flat_map]. rewrite count_app. cbn [map fst] in Hnd.
  apply NoDup_cons in Hnd as [Hd Hnd].
  destruct (decide (d = dp)) as [-> | Hne].
  - rewrite (Hnone l Hd).
    destruct (is_conflicting_ingredient U ing' c); unfold count; simpl;
      [ destruct (_ && _); simpl; lia | lia ].
  - specialize (IH Hnd).
    assert (count (is_rel CONFLICTS_WITH_DIET ing dp)
              (if is_conflicting_ingredient U ing' c
               then [RelRow CONFLICTS_WITH_DIET ing' Ingredient d
                       DietaryPreference]
               else []) = O) as ->; [ | exact IH ].
    destruct (is_conflicting_ingredient U ing' c); [ | reflexivity ].
    unfold count, is_rel. simpl.
    rewrite (bool_decide_eq_false_2 (d = dp)) by exact Hne.
    rewrite andb_false_r. reflexivity.
Qed.

Lemma conflict_keys_nodup : NoDup (map fst DIETARY_CONFLICT_MAP).
Proof. apply (bool_decide_unpack _). vm_compute. exact I. Qed.

Lemma count_conflicts (product_doc : doc) (code ing dp : str) :
  (count (is_rel CONFLICTS_WITH_DIET ing dp) (product_full U product_doc code)
   <= 1)%nat.
Proof.
  set (P := is_rel CONFLICTS_WITH_DIET ing dp).
  assert (HP : forall r, P r = true -> about_ingredient ing r).
  { intros [| id name lbl | [] f fl t tl]; simpl; intros H;
      try discriminate H.
    apply andb_true_iff in H as [H _]. apply bool_decide_eq_true in H.
    exact H. }
  assert (Hno : forall p r, about_ingredient p r -> p <> ing -> P r = false).
  { intros p r Hr Hne. destruct (P r) eqn:E; [ | reflexivity ].
    exfalso. apply Hne. exact (about_ingredient_unique _ _ _ Hr (HP r E)). }
  unfold product_full. rewrite !count_app.
  assert (H1 : count P [NodeRow code (product_name_of product_doc code) Product]
               = O) by reflexivity.
  assert (H3 : count P (flat_map (proxy_full U code (parsed_of U product_doc))
                          (elements (explicit_product_allergens U product_doc)))
               = O).
  { apply count_flat_map_none. intros a _. apply count_none. intros r Hr.
    apply proxy_full_shape in Hr as (_ & [-> | [-> | ->]]); reflexivity. }
  rewrite H1, H3, !count_map_rel by reflexivity.
  rewrite !Nat.add_0_r. simpl.
  etrans.
  { apply (count_flat_map_once P _ _ ing); [ apply NoDup_elements | ].
    intros x _ Hx. apply count_none. intros r Hr.
    apply ingredient_full_about in Hr. exact (Hno x r Hr Hx). }
  unfold ingredient_full. rewrite !count_app.
  assert (H4 : count P [NodeRow ing (PStr []) Ingredient;
                        RelRow HAS_INGREDIENT code Product ing Ingredient] = O)
    by reflexivity.
  assert (H5 : count P (allergen_full U ing) = O).
  { apply count_none. intros r Hr.
    apply allergen_full_shape in Hr as (a & _ & ->). reflexivity. }
  rewrite H4, H5. simpl.
  apply count_conflict_full, conflict_keys_nodup.
Qed.

End Repeated.

(** Among the rows a record writes there is at most one
    CONFLICTS_WITH_DIET row per ingredient and preference, however many
    patterns justify it. *)
Lemma conflict_rows_once (U : unicode) (product_doc : doc) (ing dp : str)
    (st : state) :
  exists rs,
    out (final (process_product U product_doc st)) = out st ++ rs
    /\ (count (is_rel CONFLICTS_WITH_DIET ing dp) rs <= 1)%nat.
Proof.
  destruct (ww_process_product U product_doc st) as (rs & Ho & Hs).
  exists rs. split; [ exact Ho | ].
  etrans; [ apply count_sublist, Hs | ].
  unfold record_full. destruct (accepted_code U _) as [code |].
  - apply count_conflicts.
  - unfold count. simpl. lia.
Qed.


(** C10.  Among the rows an accepted record writes, whatever the outcome
    and however often a tag is repeated in its tag fields, there is at
    most one MAY_CONTAIN_ALLERGEN row per allergen, at most one
    IS_SUITABLE_FOR row per preference and, for each allergen of the
    catalog, at most one proxy node row, one HAS_INGREDIENT row to the
    proxy and one IS_ALLERGEN row from it. *)
Theorem repeated_tags_collapse (U : unicode) (product_doc : doc)
    (code a diet_name : str) (st : state) :
  accepted_code U (get product_doc "code") = Some code ->
  a ∈ KNOWN_ALLERGENS ->
  let proxy := proxy_ingredient_name a code in
  exists rs,
    out (final (process_product U product_doc st)) = out st ++ rs
    /\ (count (is_rel MAY_CONTAIN_ALLERGEN code a) rs <= 1)%nat
    /\ (count (is_rel IS_SUITABLE_FOR code diet_name) rs <= 1)%nat
    /\ (count (is_node Ingredient proxy) rs <= 1)%nat
    /\ (count (is_rel HAS_INGREDIENT code proxy) rs <= 1)%nat
    /\ (count (is_rel IS_ALLERGEN proxy a) rs <= 1)%nat.
Proof.
  intros Hcode Ha proxy.
  destruct (ww_process_product U product_doc st) as (rs & Ho & Hs).
  unfold record_full in Hs. rewrite Hcode in Hs.
  exists rs. split; [ exact Ho | ].
  assert (Hle : forall P n,
            (count P (product_full U product_doc code) <= n)%nat ->
            (count P rs <= n)%nat).
  { intros P n H. etrans; [ apply count_sublist, Hs | exact H ]. }
  split; [ apply Hle, count_traces | ].
  split; [ apply Hle, count_labels | ].
  assert (Hproxy : forall P,
            (forall r, P r = true -> about_ingredient proxy r) ->
            (count P (proxy_full U code (parsed_of U product_doc) a) <= 1)%nat ->
            (count P rs <= 1)%nat).
  { intros P HP H. apply Hle.
    etrans; [ exact (count_product_full_proxy U P product_doc code a Ha HP)
            | exact H ]. }
  split; [ | split ].
  - apply Hproxy.
    + clear. intros [| id name [] | rel f fl t tl]; simpl; intros H;
        try discriminate H.
      apply bool_decide_eq_true in H. exact H.
    + apply count_proxy_full. right. right. split; reflexivity.
  - apply Hproxy.
    + clear. intros [| id name lbl | [] f fl t tl]; simpl; intros H;
        try discriminate H.
      apply andb_true_iff in H as [_ H].
      apply bool_decide_eq_true in H. exact H.
    + apply count_proxy_full. right. left. split; reflexivity.
  - apply Hproxy.
    + clear. intros [| id name lbl | [] f fl t tl]; simpl; intros H;
        try discriminate H.
      apply andb_true_iff in H as [H _].
      apply bool_decide_eq_true in H. exact H.
    + apply count_proxy_full. left. split; reflexivity.
Qed.

Lemma repeated_tags_collapse_witness :
  exists rs,
    out (final (process_product unicode_u5317 repeated_tags_record
                  (start None))) = rs
    /\ (count (is_rel MAY_CONTAIN_ALLERGEN (py "9") (py "en:milk")) rs <= 1)%nat
    /\ (count (is_rel IS_SUITABLE_FOR (py "9") (py "vegan")) rs <= 1)%nat
    /\ (count (is_node Ingredient (py "en:milk_source_for_9")) rs <= 1)%nat
    /\ (count (is_rel HAS_INGREDIENT (py "9") (py "en:milk_source_for_9")) rs
        <= 1)%nat
    /\ (count (is_rel IS_ALLERGEN (py "en:milk_source_for_9") (py "en:milk")) rs
        <= 1)%nat.
Proof.
  exact (repeated_tags_collapse unicode_u5317 repeated_tags_record
           (py "9") (py "en:milk") (py "vegan") (start None) eq_refl
           ltac:(apply (bool_decide_unpack _); vm_compute; exact I)).
Defined.

(** The record with every tag repeated writes each of these rows once. *)
Lemma repeated_tags_example (U : unicode) :
  let rows :=
    out (final (process_product U repeated_tags_record (start None))) in
  count (is_rel MAY_CONTAIN_ALLERGEN (py "9") (py "en:nuts")) rows = 1%nat
  /\ count (is_rel IS_SUITABLE_FOR (py "9") (py "vegan")) rows = 1%nat
  /\ count (is_node Ingredient (py "en:milk_source_for_9")) rows = 1%nat
  /\ count (is_rel HAS_INGREDIENT (py "9") (py "en:milk_source_for_9")) rows
     = 1%nat
  /\ count (is_rel IS_ALLERGEN (py "en:milk_source_for_9") (py "en:milk")) rows
     = 1%nat.
Proof. repeat split; vm_compute; reflexivity. Qed.

(** ** The log and the counters of a run *)

Section Tracks.

Lemma tracks_ret {A} (a : A) : tracks (mret a) 0 0 [].
Proof.
  intros st a' st' H. inversion H; subst.
  rewrite !Nat.add_0_r, app_nil_r. repeat split.
Qed.

Lemma tracks_bind {A B} (m : M A) (k : A -> M B) (dp1 ds1 dp2 ds2 : nat)
    (l1 l2 : list logmsg) :
  tracks m dp1 ds1 l1 -> (forall a, tracks (k a) dp2 ds2 l2) ->
  tracks (m ≫= k) (dp1 + dp2) (ds1 + ds2) (l1 ++ l2).
Proof.
  intros H1 H2 st b st' H. unfold mbind, M_bind in H.
  destruct (m st) as [a s1 | e s1] eqn:Hm; [ | discriminate ].
  destruct (H1 _ _ _ Hm) as (Hp1 & Hs1 & Hl1).
  destruct (H2 a _ _ _ H) as (Hp2 & Hs2 & Hl2).
  rewrite Hp2, Hs2, Hl2, Hp1, Hs1, Hl1, app_assoc.
  repeat split; lia.
Qed.

Lemma tracks_then {A B} (m : M A) (k : A -> M B) (dp ds : nat)
    (l : list logmsg) :
  tracks m 0 0 [] -> (forall a, tracks (k a) dp ds l) ->
  tracks (m ≫= k) dp ds l.
Proof. intros H1 H2. exact (tracks_bind m k 0 0 dp ds [] l H1 H2). Qed.

Lemma tracks_first {A B} (m : M A) (k : A -> M B) (dp ds : nat)
    (l : list logmsg) :
  tracks m dp ds l -> (forall a, tracks (k a) 0 0 []) ->
  tracks (m ≫= k) dp ds l.
Proof.
  intros H1 H2. pose proof (tracks_bind m k dp ds 0 0 l [] H1 H2) as H.
  rewrite !Nat.add_0_r, app_nil_r in H. exact H.
Qed.

Lemma tracks_read_bind {A B} (f : state -> A) (k : A -> M B) (dp ds : nat)
    (l : list logmsg) :
  (forall a, tracks (k a) dp ds l) -> tracks (read f ≫= k) dp ds l.
Proof. intros H st b st' Hm. exact (H (f st) st b st' Hm). Qed.

Lemma tracks_lift_bind {A B} (r : exn + A) (k : A -> M B) (dp ds : nat)
    (l : list logmsg) :
  (forall a, tracks (k a) dp ds l) -> tracks (lift r ≫= k) dp ds l.
Proof.
  intros H. destruct r as [e | a]; [ intros st b st' Hm; discriminate Hm | ].
  exact (H a).
Qed.

Lemma tracks_when (b : bool) (m : M unit) :
  tracks m 0 0 [] -> tracks (when b m) 0 0 [].
Proof. destruct b; intros H; [ exact H | apply tracks_ret ]. Qed.

Lemma tracks_for_each {A} (l : list A) (body : A -> M unit) :
  (forall x, tracks (body x) 0 0 []) -> tracks (for_each l body) 0 0 [].
Proof.
  intros H. induction l as [| x l IH]; [ apply tracks_ret | ].
  simpl. apply tracks_then; [ apply H | intros _; exact IH ].
Qed.

Lemma tracks_update (f : state -> state) (dp ds : nat) (l : list logmsg) :
  (forall st,
     processed_count (f st) = (processed_count st + dp)%nat
     /\ missing_code_skipped (f st) = (missing_code_skipped st + ds)%nat
     /\ log (f st) = log st ++ l) ->
  tracks (update f) dp ds l.
Proof. intros H st a st' Hm. inversion Hm; subst. apply H. Qed.

Lemma tracks_writerow (r : row) : tracks (writerow r) 0 0 [].
Proof.
  intros st a st' H. unfold writerow in H.
  destruct (quota st) as [[| n] |]; inversion H; subst; simpl;
    rewrite !Nat.add_0_r, app_nil_r; repeat split.
Qed.

Lemma tracks_logging (m : logmsg) : tracks (logging m) 0 0 [m].
Proof.
  apply tracks_update. intros st. simpl. rewrite !Nat.add_0_r. repeat split.
Qed.

End Tracks.

Section TracksEngine.

Context (U : unicode).

Lemma tracks_write_ingredient_node (name : str) :
  tracks (write_ingredient_node name) 0 0 [].
Proof.
  apply tracks_read_bind. intros seen. apply tracks_when.
  apply tracks_then; [ apply tracks_writerow | intros _ ].
  apply tracks_update. intros st. simpl.
  rewrite !Nat.add_0_r, app_nil_r. repeat split.
Qed.

Lemma tracks_ingredient_rows (product_code ing_name : str) :
  tracks (ingredient_rows U product_code ing_name) 0 0 [].
Proof.
  unfold ingredient_rows.
  apply tracks_then; [ apply tracks_write_ingredient_node | intros _ ].
  apply tracks_then; [ apply tracks_writerow | intros _ ].
  apply tracks_then; [ | intros _ ].
  - apply tracks_for_each. intros [pat a].
    apply tracks_when, tracks_when, tracks_writerow.
  - apply tracks_for_each. intros [diet conflicts].
    apply tracks_when, tracks_writerow.
Qed.

Lemma tracks_proxy_rows (product_code : str) (parsed : gset str)
    (allergen_name : str) :
  tracks (proxy_rows U product_code parsed allergen_name) 0 0 [].
Proof.
  unfold proxy_rows. apply tracks_when. cbv zeta.
  apply tracks_then; [ apply tracks_write_ingredient_node | intros _ ].
  apply tracks_then; [ apply tracks_writerow | intros _ ].
  apply tracks_writerow.
Qed.

Lemma tracks_accepted_product (product_doc : doc) (product_code : str) :
  tracks (accepted_product U product_doc product_code) 1 0 [].
Proof.
  unfold accepted_product. cbv zeta.
  apply tracks_then; [ apply tracks_writerow | intros _ ].
  apply tracks_lift_bind. intros parsed.
  apply tracks_then;
    [ apply tracks_for_each, tracks_ingredient_rows | intros _ ].
  apply tracks_then; [ apply tracks_for_each, tracks_proxy_rows | intros _ ].
  apply tracks_then;
    [ apply tracks_for_each; intros x; apply tracks_writerow | intros _ ].
  apply tracks_then;
    [ apply tracks_for_each; intros x; apply tracks_writerow | intros _ ].
  apply tracks_update. intros st. simpl. rewrite Nat.add_0_r, app_nil_r.
  repeat split. lia.
Qed.

Lemma tracks_process_product (product_doc : doc) :
  tracks (process_product U product_doc)
    (if is_accepted U product_doc then 1 else 0)
    (if is_accepted U product_doc then 0 else 1)
    (if is_accepted U product_doc then []
     else [WARNING_skipping (get product_doc "_id")]).
Proof.
  unfold process_product, is_accepted.
  destruct (accepted_code U (get product_doc "code")) as [code |].
  - apply tracks_accepted_product.
  - apply (tracks_bind _ _ 0 0 0 1 [_] []); [ apply tracks_logging | intros _ ].
    apply tracks_update. intros st. simpl. rewrite Nat.add_0_r, app_nil_r.
    repeat split. lia.
Qed.

Lemma tracks_records (products_cursor : list doc) :
  tracks (for_each products_cursor (process_product U))
    (length (accepted_records U products_cursor))
    (length (rejected_records U products_cursor))
    (map (fun d => WARNING_skipping (get d "_id"))
       (rejected_records U products_cursor)).
Proof.
  induction products_cursor as [| d rest IH]; [ apply tracks_ret | ].
  unfold accepted_records, rejected_records in *.
  cbn [for_each List.filter].
  pose proof (tracks_process_product d) as H.
  destruct (is_accepted U d); cbn [negb length map].
  - apply (tracks_bind _ _ 1 0 _ _ [] _); [ exact H | intros _; exact IH ].
  - apply (tracks_bind _ _ 0 1 _ _ [_] _); [ exact H | intros _; exact IH ].
Qed.

(** A fresh run whose sink takes the 19 rows of the header and the
    catalogs reaches the loop over the records in [catalog_state]. *)
Lemma write_tsv_records (products_cursor : list doc) (n : nat)
    (q : option nat) (a : unit) (st' : state) :
  fits q 19 = true ->
  write_tsv U products_cursor (logged (INFO_found n) (start q)) = Ok a st' ->
  exists st6,
    for_each products_cursor (process_product U) (catalog_state n q)
    = Ok tt st6
    /\ processed_count st' = processed_count st6
    /\ missing_code_skipped st' = missing_code_skipped st6
    /\ log st'
       = log st6 ++ closing (processed_count st6) (missing_code_skipped st6).
Proof.
  intros Hfit H. unfold write_tsv in H.
  set (rest := for_each products_cursor (process_product U) ≫= _) in H.
  assert (E : forall rest' : M unit,
    (writerow HeaderRow ;;
     for_each (elements KNOWN_ALLERGENS)
       (fun allergen_name =>
          seen ← read written_allergens;
          when (negb (bool_decide (allergen_name ∈ seen)))
            (writerow (NodeRow allergen_name (PStr []) Allergen) ;;
             add_written_allergen allergen_name)) ;;
     n ← read (fun st => size (written_allergens st)) ;
     logging (INFO_allergen_nodes n) ;;
     for_each (map fst DIETARY_PREFERENCES_MAP)
       (fun diet_name =>
          seen ← read written_diet_prefs;
          when (negb (bool_decide (diet_name ∈ seen)))
            (writerow (NodeRow diet_name (PStr []) DietaryPreference) ;;
             add_written_diet_pref diet_name)) ;;
     n ← read (fun st => size (written_diet_prefs st)) ;
     logging (INFO_diet_nodes n) ;;
     rest') (logged (INFO_found n) (start q))
    = rest' (catalog_state n q)).
  { intros rest'. destruct q as [k |].
    - unfold fits in Hfit. apply Nat.leb_le in Hfit.
      replace k with (19 + (k - 19))%nat by lia.
      generalize (k - 19)%nat. clear. intros k.
      unfold catalog_state, debit. cbn [fmap option_fmap option_map].
      replace (19 + k - 19)%nat with k by lia.
      vm_compute. reflexivity.
    - vm_compute. reflexivity. }
  rewrite (E rest) in H. subst rest. unfold mbind, M_bind in H.
  destruct (for_each products_cursor (process_product U) (catalog_state n q))
    as [[] st6 | e st6] eqn:Hrec; [ | discriminate H ].
  exists st6. split; [ reflexivity | ].
  unfold read, logging, update, closing in *.
  destruct (missing_code_skipped st6 =? 0)%nat eqn:Hk;
    simpl in H; rewrite Hk in H; simpl in H; inversion H; subst; simpl;
    repeat split.
  rewrite <- app_assoc. reflexivity.
Qed.

End TracksEngine.

Section RunFacts.

Context (U : unicode).

Lemma first_nodes_catalog : first_nodes [] catalog_rows = catalog_rows.
Proof. vm_compute. reflexivity. Qed.

Lemma expected_rows_catalog (products_cursor : list doc) :
  products_cursor <> [] ->
  expected_rows U products_cursor
  = catalog_rows
    ++ first_nodes (node_keys catalog_rows) (records_rows U products_cursor).
Proof.
  intros H. unfold expected_rows.
  destruct products_cursor as [| d rest]; [ contradiction | ].
  rewrite first_nodes_app, first_nodes_catalog, app_nil_r. reflexivity.
Qed.

Lemma fits_le (q : option nat) (a b : nat) :
  (a <= b)%nat -> fits q b = true -> fits q a = true.
Proof.
  destruct q as [n |]; [ | reflexivity ]. simpl. intros Hab H.
  apply Nat.leb_le in H. apply Nat.leb_le. lia.
Qed.

Lemma fits_catalog (products_cursor : list doc) (q : option nat) :
  products_cursor <> [] ->
  fits q (length (expected_rows U products_cursor)) = true ->
  fits q 19 = true.
Proof.
  intros Hne. apply fits_le.
  rewrite (expected_rows_catalog _ Hne), length_app.
  change (length catalog_rows) with 19%nat. lia.
Qed.

Lemma last_closing (l : list logmsg) (p k : nat) :
  last (l ++ closing p k)
  = Some (if (k =? 0)%nat then INFO_finished p else WARNING_skipped k).
Proof.
  unfold closing. destruct (k =? 0)%nat.
  - apply last_snoc.
  - change (INFO_finished p :: [WARNING_skipped k])
      with ([INFO_finished p] ++ [WARNING_skipped k]).
    rewrite app_assoc. apply last_snoc.
Qed.

(** A run that completes: the result, the log and the counters. *)
Lemma run_completes (products_cursor : list doc) (q : option nat) :
  products_cursor <> [] ->
  completes U products_cursor q = true ->
  exists st',
    generate_csv_data U products_cursor (start q) = Ok tt st'
    /\ log st' = run_log U products_cursor
    /\ processed_count st' = length (accepted_records U products_cursor)
    /\ missing_code_skipped st' = length (rejected_records U products_cursor)
    /\ out st' = expected_rows U products_cursor.
Proof.
  intros Hne Hc. unfold completes in Hc.
  apply andb_true_iff in Hc as [Hfit Hhalt].
  apply negb_true_iff in Hhalt.
  pose proof (output_rows U products_cursor q) as Hout.
  rewrite (take_quota_fits _ _ Hfit) in Hout.
  unfold generate_csv_data in *.
  destruct products_cursor as [| d rest]; [ contradiction | ].
  set (docs := d :: rest) in *.
  change ((length docs =? 0)%nat) with false in *. cbv iota in *.
  change ((logging (INFO_found (length docs)) ;; try_logged (write_tsv U docs))
            (start q))
    with (try_logged (write_tsv U docs)
            (logged (INFO_found (length docs)) (start q))) in *.
  pose proof (emits_write_tsv U docs _ []
                (agrees_start q (INFO_found (length docs)))) as H.
  cbv zeta in H.
  change (quota (logged (INFO_found (length docs)) (start q))) with q in H.
  unfold expected_rows in Hfit. fold docs in Hfit.
  change (match docs with [] => [] | _ => ?x end) with x in Hfit.
  rewrite Hfit, Hhalt in H. destruct H as (a & st' & Hw & _).
  unfold try_logged in *. rewrite Hw in *. destruct a. cbn [final] in Hout.
  destruct (write_tsv_records U docs _ q tt st'
              (fits_catalog docs q Hne Hfit) Hw)
    as (st6 & Hrec & Hp & Hs & Hl).
  destruct (tracks_records U docs _ _ _ Hrec) as (Hp6 & Hs6 & Hl6).
  exists st'. split; [ reflexivity | ].
  rewrite Hp, Hs, Hl, Hp6, Hs6, Hl6.
  split; [ | split; [ reflexivity | split; [ reflexivity | exact Hout ] ] ].
  unfold run_log. rewrite <- app_assoc. reflexivity.
Qed.

(** The last message of a run. *)
Lemma run_last_message (products_cursor : list doc) (q : option nat) :
  exists st',
    generate_csv_data U products_cursor (start q) = Ok tt st'
    /\ last (log st') = Some (verdict U products_cursor q).
Proof.
  destruct products_cursor as [| d rest].
  { eexists. split; reflexivity. }
  set (docs := d :: rest).
  assert (Hne : docs <> []) by discriminate.
  unfold verdict. fold docs.
  change (match docs with [] => INFO_no_products | _ => ?x end) with x.
  destruct (fits q (length (expected_rows U docs))) eqn:Hfit; cbn [negb].
  - destruct (existsb (unparsable U) docs) eqn:Hhalt.
    + unfold generate_csv_data.
      change ((length docs =? 0)%nat) with false. cbv iota.
      pose proof (emits_write_tsv U docs _ []
                    (agrees_start q (INFO_found (length docs)))) as H.
      cbv zeta in H.
      change (quota (logged (INFO_found (length docs)) (start q)))
        with q in H.
      unfold expected_rows in Hfit. fold docs in Hfit.
      change (match docs with [] => [] | _ => ?x end) with x in Hfit.
      rewrite Hfit, Hhalt in H. destruct H as (st' & Hw & _).
      exists (logged ERROR_unexpected st'). split; [ | apply last_snoc ].
      change ((logging (INFO_found (length docs)) ;;
               try_logged (write_tsv U docs)) (start q))
        with (try_logged (write_tsv U docs)
                (logged (INFO_found (length docs)) (start q))).
      unfold try_logged. rewrite Hw. reflexivity.
    + destruct (run_completes docs q Hne) as (st' & Hg & Hl & _).
      { unfold completes. rewrite Hfit, Hhalt. reflexivity. }
      exists st'. split; [ exact Hg | ].
      rewrite Hl. unfold run_log. rewrite !app_assoc. apply last_closing.
  - unfold generate_csv_data.
    change ((length docs =? 0)%nat) with false. cbv iota.
    pose proof (emits_write_tsv U docs _ []
                  (agrees_start q (INFO_found (length docs)))) as H.
    cbv zeta in H.
    change (quota (logged (INFO_found (length docs)) (start q))) with q in H.
    unfold expected_rows in Hfit. fold docs in Hfit.
    change (match docs with [] => [] | _ => ?x end) with x in Hfit.
    rewrite Hfit in H. destruct H as (st' & Hw & _).
    exists (logged ERROR_writing st'). split; [ | apply last_snoc ].
    change ((logging (INFO_found (length docs)) ;;
             try_logged (write_tsv U docs)) (start q))
      with (try_logged (write_tsv U docs)
              (logged (INFO_found (length docs)) (start q))).
    unfold try_logged. rewrite Hw. reflexivity.
Qed.

Lemma records_rows_stop (pre post : list doc) (product_doc : doc) :
  unparsable U product_doc = true ->
  records_rows U (pre ++ product_doc :: post)
  = records_rows U (pre ++ [product_doc]).
Proof.
  intros H. induction pre as [| d pre IH].
  - simpl. unfold unparsable in H.
    destruct (accepted_code U (get product_doc "code")); [ | discriminate ].
    destruct (parse_ingredients_from_text U _); [ reflexivity | discriminate ].
  - simpl. rewrite IH. reflexivity.
Qed.

Lemma unparsable_value (product_doc : doc) (code : str) :
  accepted_code U (get product_doc "code") = Some code ->
  truthy (ingredients_text product_doc) = true ->
  (forall s, ingredients_text product_doc <> PStr s) ->
  unparsable U product_doc = true.
Proof.
  intros Hc Ht Hs. unfold unparsable, parse_ingredients_from_text.
  rewrite Hc, Ht. cbn [negb].
  destruct (ingredients_text product_doc); try reflexivity.
  exfalso. eapply Hs. reflexivity.
Qed.

End RunFacts.


(** A write failure leaves a prefix of the complete output: a sink that
    takes [n] rows holds the first [n] rows a sink that never fails would
    hold, for every list of records. *)
Theorem partial_output_is_prefix (U : unicode) (products_cursor : list doc)
    (n : nat) :
  out (final (generate_csv_data U products_cursor (start (Some n))))
  = take n (out (final (generate_csv_data U products_cursor (start None)))).
Proof. rewrite !output_rows. reflexivity. Qed.

(** [generate_csv_data] always returns, and its last log message tells
    the outcome: no products, a write error, an unexpected error (an
    ingredient text that is not a string), or the summary of a completed
    run. *)
Theorem last_message_is_verdict (U : unicode) (products_cursor : list doc)
    (q : option nat) :
  exists st',
    generate_csv_data U products_cursor (start q) = Ok tt st'
    /\ last (log st') = Some (verdict U products_cursor q).
Proof. apply run_last_message. Qed.

(** The log and the counters of a completed run: every record is either
    processed or skipped with a warning, and the closing messages give
    the two counts. *)
Theorem completed_run_log (U : unicode) (products_cursor : list doc)
    (q : option nat) :
  products_cursor <> [] ->
  completes U products_cursor q = true ->
  exists st',
    generate_csv_data U products_cursor (start q) = Ok tt st'
    /\ log st' = run_log U products_cursor
    /\ processed_count st' = length (accepted_records U products_cursor)
    /\ missing_code_skipped st' = length (rejected_records U products_cursor)
    /\ (processed_count st' + missing_code_skipped st'
        = length products_cursor)%nat.
Proof.
  intros Hne Hc.
  destruct (run_completes U products_cursor q Hne Hc)
    as (st' & Hg & Hl & Hp & Hs & _).
  exists st'. repeat (split; [ assumption | ]).
  rewrite Hp, Hs. unfold accepted_records, rejected_records. clear.
  induction products_cursor as [| d rest IH]; [ reflexivity | ].
  simpl. destruct (is_accepted U d); simpl; lia.
Qed.

(** Once an accepted record has an ingredient text that is true and not
    a string, no later record is processed: the rows are those of the
    run that ends with this record, and the run ends with an error
    message. *)
Theorem unparsable_record_stops (U : unicode) (pre post : list doc)
    (product_doc : doc) (code : str) (q : option nat) :
  accepted_code U (get product_doc "code") = Some code ->
  truthy (ingredients_text product_doc) = true ->
  (forall s, ingredients_text product_doc <> PStr s) ->
  out (final (generate_csv_data U (pre ++ product_doc :: post) (start q)))
  = out (final (generate_csv_data U (pre ++ [product_doc]) (start q)))
  /\ exists st',
       generate_csv_data U (pre ++ product_doc :: post) (start q) = Ok tt st'
       /\ (last (log st') = Some ERROR_writing
           \/ last (log st') = Some ERROR_unexpected).
Proof.
  intros Hc Ht Hs.
  pose proof (unparsable_value U product_doc code Hc Ht Hs) as Hu.
  split.
  - rewrite !output_rows.
    rewrite !expected_rows_catalog by (destruct pre; discriminate).
    rewrite (records_rows_stop U pre post _ Hu). reflexivity.
  - destruct (run_last_message U (pre ++ product_doc :: post) q)
      as (st' & Hg & Hl).
    exists st'. split; [ exact Hg | ]. rewrite Hl. unfold verdict.
    destruct (pre ++ product_doc :: post) as [| d l] eqn:E.
    { destruct pre; discriminate E. }
    rewrite <- E. destruct (fits q _); [ right | left; reflexivity ].
    cbn [negb]. rewrite existsb_app. simpl. rewrite Hu, orb_true_r.
    reflexivity.
Qed.

(** ** The shape of the rows *)

Section Shape.

Context (U : unicode).

Lemma parsed_of_nonempty (product_doc : doc) (x : str) :
  x ∈ parsed_of U product_doc -> x <> [].
Proof.
  unfold parsed_of, parse_ingredients_from_text.
  destruct (negb (truthy (ingredients_text product_doc)));
    [ intros H; apply elem_of_empty in H; contradiction | ].
  destruct (ingredients_text product_doc);
    try (intros H; apply elem_of_empty in H; contradiction).
  intros H. apply parse_text_normalized in H as [y Hy].
  apply normalize_Some in Hy as [Hne _]. exact Hne.
Qed.

Lemma known_nonempty (a : str) : a ∈ KNOWN_ALLERGENS -> a <> [].
Proof.
  intros Ha ->. apply known_allergen_colon in Ha. inversion Ha.
Qed.

Lemma proxy_nonempty (a code : str) : proxy_ingredient_name a code <> [].
Proof.
  unfold proxy_ingredient_name. destruct a; discriminate.
Qed.

Lemma accepted_nonempty (v : pyval) (code : str) :
  accepted_code U v = Some code -> v = PStr code /\ code <> [].
Proof.
  unfold accepted_code. destruct v; try discriminate.
  destruct s as [| c s]; [ discriminate | ].
  destruct (_ || _); [ discriminate | ].
  intros H. inversion H; subst. split; [ reflexivity | discriminate ].
Qed.

Lemma py_or_truthy (a b : pyval) :
  truthy b = true -> truthy (py_or a b) = true.
Proof.
  intros Hb. unfold py_or. destruct (truthy a) eqn:Ha; assumption.
Qed.

Lemma product_name_truthy (product_doc : doc) (code : str) :
  truthy (product_name_of product_doc code) = true.
Proof.
  unfold product_name_of. do 4 apply py_or_truthy. reflexivity.
Qed.

Lemma conflict_full_key (ing_name : str) (r : row) :
  r ∈ conflict_full U ing_name ->
  exists dp conflicting,
    (dp, conflicting) ∈ DIETARY_CONFLICT_MAP
    /\ is_conflicting_ingredient U ing_name conflicting = true
    /\ r = RelRow CONFLICTS_WITH_DIET ing_name Ingredient dp
             DietaryPreference.
Proof.
  unfold conflict_full. intros H.
  apply list_elem_of_In, in_flat_map in H as ([dp conflicting] & Hin & H).
  destruct (is_conflicting_ingredient U ing_name conflicting) eqn:Hc;
    [ | inversion H ].
  simpl in H. destruct H as [<- | []]. exists dp, conflicting.
  split; [ apply list_elem_of_In, Hin | split; [ exact Hc | reflexivity ] ].
Qed.

Lemma product_full_well_formed (product_doc : doc) (code : str) (r : row) :
  accepted_code U (get product_doc "code") = Some code ->
  r ∈ product_full U product_doc code -> well_formed r.
Proof.
  intros Hc H. apply accepted_nonempty in Hc as [_ Hcode].
  unfold product_full in H.
  apply elem_of_app in H as [H | H].
  { apply list_elem_of_singleton in H as ->.
    split; [ exact Hcode | apply product_name_truthy ]. }
  apply elem_of_app in H as [H | H].
  { apply list_elem_of_In, in_flat_map in H as (ing & Hing & H).
    apply list_elem_of_In, elem_of_elements, parsed_of_nonempty in Hing.
    apply list_elem_of_In in H. unfold ingredient_full in H.
    apply elem_of_app in H as [H | H].
    - apply elem_of_cons in H as [-> | H]; [ split; [ exact Hing | reflexivity ] | ].
      apply list_elem_of_singleton in H as ->.
      split; [ reflexivity | split; assumption ].
    - apply elem_of_app in H as [H | H].
      + apply allergen_full_shape in H as (a & Ha & ->).
        split; [ reflexivity | split; assumption ].
      + apply conflict_full_key in H as (dp & conflicting & Hdp & _ & ->).
        split; [ reflexivity | split; [ exact Hing | ] ].
        unfold valid_id. rewrite <- conflict_keys.
        apply list_elem_of_fmap. exists (dp, conflicting).
        split; [ reflexivity | exact Hdp ]. }
  apply elem_of_app in H as [H | H].
  { apply list_elem_of_In, in_flat_map in H as (a & Ha & H).
    apply list_elem_of_In, elem_of_elements, explicit_known in Ha.
    apply list_elem_of_In, proxy_full_shape in H as [_ [-> | [-> | ->]]].
    - split; [ apply proxy_nonempty | reflexivity ].
    - split; [ reflexivity | split; [ exact Hcode | apply proxy_nonempty ] ].
    - split; [ reflexivity | split; [ apply proxy_nonempty | exact Ha ] ]. }
  apply elem_of_app in H as [H | H].
  - apply list_elem_of_fmap in H as (a & -> & Ha).
    apply elem_of_elements, traces_known in Ha.
    split; [ reflexivity | split; assumption ].
  - apply list_elem_of_fmap in H as (x & -> & Hx).
    apply elem_of_elements, suitable_keys in Hx.
    split; [ reflexivity | split; assumption ].
Qed.

Lemma elem_catalog (lbl : label) (l : list str) (r : row) :
  r ∈ flat_map (fun a => [NodeRow a (PStr []) lbl]) l ->
  exists a, a ∈ l /\ r = NodeRow a (PStr []) lbl.
Proof.
  induction l as [| x l IH]; intros H; [ inversion H | ].
  cbn [flat_map app] in H. apply elem_of_cons in H as [-> | H].
  - exists x. split; [ left | reflexivity ].
  - destruct (IH H) as (a & Ha & ->). exists a.
    split; [ right; exact Ha | reflexivity ].
Qed.

Lemma elem_records (products_cursor : list doc) (r : row) :
  r ∈ flat_map (record_full U) products_cursor ->
  exists d, d ∈ products_cursor /\ r ∈ record_full U d.
Proof.
  induction products_cursor as [| x l IH]; intros H; [ inversion H | ].
  cbn [flat_map] in H. apply elem_of_app in H as [H | H].
  - exists x. split; [ left | exact H ].
  - destruct (IH H) as (d & Hd & Hr). exists d.
    split; [ right; exact Hd | exact Hr ].
Qed.

Lemma run_full_well_formed (products_cursor : list doc) (r : row) :
  r ∈ run_full U products_cursor -> well_formed r.
Proof.
  unfold run_full. intros H.
  apply elem_of_app in H as [H | H].
  { apply list_elem_of_singleton in H as ->. exact I. }
  apply elem_of_app in H as [H | H].
  { apply elem_catalog in H as (a & Ha & ->).
    apply elem_of_elements in Ha. split; [ exact Ha | reflexivity ]. }
  apply elem_of_app in H as [H | H].
  { apply elem_catalog in H as (a & Ha & ->).
    split; [ exact Ha | reflexivity ]. }
  apply elem_records in H as (d & _ & H). unfold record_full in H.
  destruct (accepted_code U (get d "code")) as [code |] eqn:Hc;
    [ | inversion H ].
  exact (product_full_well_formed d code r Hc H).
Qed.

End Shape.

(** Every row of every run is well formed, whatever the records and
    wherever a write fails: a relationship joins the two kinds of node of
    its type, an allergen or a dietary preference it names is one of the
    catalogs, no identifier is empty, and a node row carries a name if
    and only if it is a Product row. *)
Theorem rows_well_formed (U : unicode) (products_cursor : list doc)
    (q : option nat) :
  Forall well_formed
    (out (final (generate_csv_data U products_cursor (start q)))).
Proof.
  apply Forall_forall. intros r Hr.
  destruct (ww_generate_csv_data U products_cursor (start q))
    as (rs & Ho & Hs).
  simpl in Ho. rewrite Ho in Hr.
  apply (run_full_well_formed U products_cursor).
  exact (elem_of_sublist _ _ _ Hr Hs).
Qed.

(** ** The rows of a completed run *)

Section CompleteRun.

Context (U : unicode).

Lemma elem_first_nodes (seen : list (label * str)) (l : list row) (r : row) :
  node_key r = None -> r ∈ first_nodes seen l <-> r ∈ l.
Proof.
  intros Hk. split.
  - intros H. exact (elem_of_sublist _ _ _ H (first_nodes_sublist seen l)).
  - revert seen. induction l as [| x l IH]; intros seen H; [ inversion H | ].
    cbn [first_nodes]. apply elem_of_cons in H as [<- | H].
    + rewrite Hk. left.
    + destruct (node_key x) as [k |].
      * destruct (bool_decide (k ∈ seen)); [ apply IH, H | right; apply IH, H ].
      * right. apply IH, H.
Qed.

(** The relationship rows of a run on a sink that never fails, with
    records that parse: those of the accepted records. *)
Lemma rel_rows_complete (products_cursor : list doc) (rel : reltype)
    (f : str) (fl : label) (t : str) (tl : label) :
  (forall d, d ∈ products_cursor -> parses U d) ->
  RelRow rel f fl t tl
  ∈ out (final (generate_csv_data U products_cursor (start None)))
  <-> exists d code,
        d ∈ products_cursor
        /\ accepted_code U (get d "code") = Some code
        /\ RelRow rel f fl t tl ∈ product_full U d code.
Proof.
  intros Hp. destruct products_cursor as [| d0 rest].
  { split; [ intros H; inversion H | intros (d & _ & H & _); inversion H ]. }
  rewrite (complete_rows U (d0 :: rest)) by (discriminate || exact Hp).
  rewrite elem_first_nodes by reflexivity.
  unfold run_full. split.
  - intros H.
    apply elem_of_app in H as [H | H];
      [ apply list_elem_of_singleton in H; discriminate H | ].
    apply elem_of_app in H as [H | H];
      [ apply elem_catalog in H as (a & _ & H); discriminate H | ].
    apply elem_of_app in H as [H | H];
      [ apply elem_catalog in H as (a & _ & H); discriminate H | ].
    apply elem_records in H as (d & Hd & H). unfold record_full in H.
    destruct (accepted_code U (get d "code")) as [code |] eqn:Hc;
      [ | inversion H ].
    exists d, code. repeat split; assumption.
  - intros (d & code & Hd & Hc & H).
    apply (record_full_run U (d0 :: rest) d _ Hd).
    unfold record_full. rewrite Hc. exact H.
Qed.

Lemma table_allergens_known (pat : regex) (a : str) :
  (pat, a) ∈ INGREDIENT_TO_ALLERGEN_MAP -> a ∈ KNOWN_ALLERGENS.
Proof.
  assert (H : forallb (fun '(_, a) => bool_decide (a ∈ KNOWN_ALLERGENS))
                INGREDIENT_TO_ALLERGEN_MAP = true)
    by (vm_compute; reflexivity).
  intros Hin. apply list_elem_of_In in Hin.
  pose proof (proj1 (forallb_forall _ _) H (pat, a) Hin) as Ha.
  apply bool_decide_eq_true in Ha. exact Ha.
Qed.

Lemma allergen_full_iff (ing_name ing a : str) :
  RelRow IS_ALLERGEN ing Ingredient a Allergen ∈ allergen_full U ing_name
  <-> ing = ing_name
      /\ exists pat,
           (pat, a) ∈ INGREDIENT_TO_ALLERGEN_MAP
           /\ re_search U true pat ing_name = true.
Proof.
  unfold allergen_full. split.
  - intros H. apply list_elem_of_In, in_flat_map in H as ([pat a'] & Hin & H).
    destruct (re_search U true pat ing_name) eqn:Hs; [ | inversion H ].
    destruct (bool_decide (a' ∈ KNOWN_ALLERGENS)); [ | inversion H ].
    simpl in H. destruct H as [H | []]. inversion H; subst.
    split; [ reflexivity | ]. exists pat.
    split; [ apply list_elem_of_In, Hin | exact Hs ].
  - intros (-> & pat & Hin & Hs).
    apply list_elem_of_In, in_flat_map. exists (pat, a).
    split; [ apply list_elem_of_In, Hin | ].
    rewrite Hs, (bool_decide_eq_true_2 _ (table_allergens_known _ _ Hin)).
    left. reflexivity.
Qed.

Lemma conflicting_iff (ing_name : str) (conflicting : gset str) :
  is_conflicting_ingredient U ing_name conflicting = true
  <-> exists pat a,
        (pat, a) ∈ INGREDIENT_TO_ALLERGEN_MAP
        /\ re_search U true pat ing_name = true
        /\ a ∈ conflicting.
Proof.
  unfold is_conflicting_ingredient. rewrite existsb_exists. split.
  - intros ([pat a] & Hin & H). apply andb_true_iff in H as [Hs Ha].
    apply bool_decide_eq_true in Ha. exists pat, a.
    split; [ apply list_elem_of_In, Hin | split; assumption ].
  - intros (pat & a & Hin & Hs & Ha). exists (pat, a).
    split; [ apply list_elem_of_In, Hin | ].
    rewrite Hs. apply bool_decide_eq_true_2, Ha.
Qed.

Lemma conflict_full_iff (ing_name ing diet : str) :
  RelRow CONFLICTS_WITH_DIET ing Ingredient diet DietaryPreference
  ∈ conflict_full U ing_name
  <-> ing = ing_name
      /\ exists conflicting,
           (diet, conflicting) ∈ DIETARY_CONFLICT_MAP
           /\ is_conflicting_ingredient U ing_name conflicting = true.
Proof.
  split.
  - intros H. apply conflict_full_key in H as (dp & conflicting & Hin & Hc & H).
    inversion H; subst. split; [ reflexivity | ].
    exists conflicting. split; assumption.
  - intros (-> & conflicting & Hin & Hc). unfold conflict_full.
    apply list_elem_of_In, in_flat_map. exists (diet, conflicting).
    split; [ apply list_elem_of_In, Hin | ]. rewrite Hc. left. reflexivity.
Qed.

(** The relationship rows of a record that start at an ingredient. *)
Lemma product_full_ingredient_rel (product_doc : doc) (code : str)
    (rel : reltype) (f t : str) (tl : label) :
  RelRow rel f Ingredient t tl ∈ product_full U product_doc code ->
  (f ∈ parsed_of U product_doc
   /\ RelRow rel f Ingredient t tl
      ∈ allergen_full U f ++ conflict_full U f)
  \/ (exists a,
        a ∈ explicit_product_allergens U product_doc
        /\ f = proxy_ingredient_name a code
        /\ rel = IS_ALLERGEN /\ t = a /\ tl = Allergen).
Proof.
  unfold product_full. intros H.
  apply elem_of_app in H as [H | H];
    [ apply list_elem_of_singleton in H; discriminate H | ].
  apply elem_of_app in H as [H | H].
  { left. apply list_elem_of_In, in_flat_map in H as (ing & Hing & H).
    apply list_elem_of_In, elem_of_elements in Hing.
    apply list_elem_of_In in H. unfold ingredient_full in H.
    apply elem_of_app in H as [H | H].
    { apply elem_of_cons in H as [H | H]; [ discriminate H | ].
      apply list_elem_of_singleton in H. discriminate H. }
    assert (f = ing) as ->.
    { apply elem_of_app in H as [H | H].
      - apply allergen_full_shape in H as (a & _ & H). inversion H.
        reflexivity.
      - apply conflict_full_shape in H as (dp & H). inversion H.
        reflexivity. }
    split; assumption. }
  apply elem_of_app in H as [H | H].
  { right. apply list_elem_of_In, in_flat_map in H as (a & Ha & H).
    apply list_elem_of_In, elem_of_elements in Ha.
    apply list_elem_of_In, proxy_full_shape in H as [_ [H | [H | H]]];
      try discriminate H.
    inversion H; subst. exists a. repeat split. exact Ha. }
  apply elem_of_app in H as [H | H];
    apply list_elem_of_fmap in H as (x & H & _); discriminate H.
Qed.

Lemma ingredient_full_product (product_doc : doc) (code ing : str) (r : row) :
  ing ∈ parsed_of U product_doc ->
  r ∈ ingredient_full U code ing -> r ∈ product_full U product_doc code.
Proof.
  intros Hing Hr. unfold product_full.
  apply elem_of_app. right. apply elem_of_app. left.
  apply list_elem_of_In, in_flat_map. exists ing.
  split; apply list_elem_of_In; [ apply elem_of_elements, Hing | exact Hr ].
Qed.

Lemma proxy_full_product (product_doc : doc) (code a : str) (r : row) :
  a ∈ explicit_product_allergens U product_doc ->
  r ∈ proxy_full U code (parsed_of U product_doc) a ->
  r ∈ product_full U product_doc code.
Proof.
  intros Ha Hr. unfold product_full.
  apply elem_of_app. right. apply elem_of_app. right.
  apply elem_of_app. left.
  apply list_elem_of_In, in_flat_map. exists a.
  split; apply list_elem_of_In; [ apply elem_of_elements, Ha | exact Hr ].
Qed.

Lemma explained_iff (parsed : gset str) (allergen_name : str) :
  is_explained_by_ingredient U parsed allergen_name = true
  <-> exists ing pat,
        ing ∈ parsed
        /\ (pat, allergen_name) ∈ INGREDIENT_TO_ALLERGEN_MAP
        /\ re_search U true pat ing = true.
Proof.
  unfold is_explained_by_ingredient. rewrite existsb_exists. split.
  - intros (ing & Hing & H). apply existsb_exists in H as ([pat a] & Hin & H).
    apply andb_true_iff in H as [Hs Ha]. apply bool_decide_eq_true in Ha.
    subst a. exists ing, pat.
    split; [ apply elem_of_elements, list_elem_of_In, Hing | ].
    split; [ apply list_elem_of_In, Hin | exact Hs ].
  - intros (ing & pat & Hing & Hin & Hs). exists ing.
    split; [ apply list_elem_of_In, elem_of_elements, Hing | ].
    apply existsb_exists. exists (pat, allergen_name).
    split; [ apply list_elem_of_In, Hin | ].
    rewrite Hs. apply bool_decide_eq_true_2. reflexivity.
Qed.

End CompleteRun.

(** Every explicit allergen of an accepted record is linked to its
    product: on a sink that never fails, with records that parse, some
    ingredient the record refers to (a parsed one that a pattern of the
    allergen matches, or else the proxy) has a HAS_INGREDIENT row from
    the product and an IS_ALLERGEN row to the allergen. *)
Theorem explicit_allergen_linked (U : unicode) (products_cursor : list doc)
    (product_doc : doc) (code allergen_name : str) :
  (forall d, d ∈ products_cursor -> parses U d) ->
  product_doc ∈ products_cursor ->
  accepted_code U (get product_doc "code") = Some code ->
  allergen_name ∈ explicit_product_allergens U product_doc ->
  let rows :=
    out (final (generate_csv_data U products_cursor (start None))) in
  exists ing,
    refers_to_ingredient U product_doc code ing
    /\ RelRow HAS_INGREDIENT code Product ing Ingredient ∈ rows
    /\ RelRow IS_ALLERGEN ing Ingredient allergen_name Allergen ∈ rows.
Proof.
  intros Hp Hd Hc Ha. cbv zeta.
  destruct (is_explained_by_ingredient U (parsed_of U product_doc)
              allergen_name) eqn:He.
  - apply explained_iff in He as (ing & pat & Hing & Hin & Hs).
    exists ing. split; [ left; exact Hing | ].
    split; apply (rel_rows_complete U _ _ _ _ _ _ Hp);
      exists product_doc, code; (split; [ exact Hd | split; [ exact Hc | ] ]);
      apply (ingredient_full_product U _ _ ing _ Hing); unfold ingredient_full.
    + right. left.
    + apply elem_of_app. right. apply elem_of_app. left.
      apply allergen_full_iff. split; [ reflexivity | ].
      exists pat. split; assumption.
  - exists (proxy_ingredient_name allergen_name code).
    split; [ right; exists allergen_name; repeat split; assumption | ].
    split; apply (rel_rows_complete U _ _ _ _ _ _ Hp);
      exists product_doc, code; (split; [ exact Hd | split; [ exact Hc | ] ]);
      apply (proxy_full_product U _ _ allergen_name _ Ha);
      unfold proxy_full; rewrite He.
    + right. left.
    + right. right. left.
Qed.

Lemma explicit_allergen_linked_witness :
  let rows :=
    out (final (generate_csv_data unicode_u5317
                  [cheese_record; milk_tag_record] (start None))) in
  (exists ing,
     RelRow HAS_INGREDIENT (py "8") Product ing Ingredient ∈ rows
     /\ RelRow IS_ALLERGEN ing Ingredient (py "en:milk") Allergen ∈ rows)
  /\ (exists ing,
        RelRow HAS_INGREDIENT (py "7") Product ing Ingredient ∈ rows
        /\ RelRow IS_ALLERGEN ing Ingredient (py "en:milk") Allergen ∈ rows).
Proof.
  cbv zeta.
  assert (Hp : forall d, d ∈ [cheese_record; milk_tag_record] ->
                 parses unicode_u5317 d).
  { intros d Hd.
    repeat (apply elem_of_cons in Hd as [-> | Hd];
            [ eexists; vm_compute; reflexivity | ]).
    inversion Hd. }
  split.
  - destruct (explicit_allergen_linked unicode_u5317
                [cheese_record; milk_tag_record] cheese_record (py "8")
                (py "en:milk") Hp (list_elem_of_here _ _) eq_refl)
      as (ing & _ & H1 & H2).
    + apply (bool_decide_unpack _). vm_compute. exact I.
    + exists ing. split; assumption.
  - destruct (explicit_allergen_linked unicode_u5317
                [cheese_record; milk_tag_record] milk_tag_record (py "7")
                (py "en:milk") Hp
                (list_elem_of_further _ _ _ (list_elem_of_here _ _)) eq_refl)
      as (ing & _ & H1 & H2).
    + apply (bool_decide_unpack _). vm_compute. exact I.
    + exists ing. split; assumption.
Defined.

(** Conflicts follow the allergens of parsed ingredients: on a sink that
    never fails, with records that parse, an ingredient has a
    CONFLICTS_WITH_DIET row to a preference exactly when it is not a
    proxy and has an IS_ALLERGEN row to an allergen of the conflict set
    of the preference.  A proxy ingredient never conflicts. *)
Theorem conflicts_follow_allergens (U : unicode) (products_cursor : list doc)
    (ing diet : str) :
  (forall d, d ∈ products_cursor -> parses U d) ->
  let rows :=
    out (final (generate_csv_data U products_cursor (start None))) in
  RelRow CONFLICTS_WITH_DIET ing Ingredient diet DietaryPreference ∈ rows
  <-> ~ is_proxy ing
      /\ exists conflicting a,
           (diet, conflicting) ∈ DIETARY_CONFLICT_MAP
           /\ a ∈ conflicting
           /\ RelRow IS_ALLERGEN ing Ingredient a Allergen ∈ rows.
Proof.
  intros Hp. cbv zeta. rewrite (rel_rows_complete U _ _ _ _ _ _ Hp). split.
  - intros (d & code & Hd & Hc & H).
    apply product_full_ingredient_rel in H
      as [[Hing H] | (a & _ & _ & Hrel & _)]; [ | discriminate Hrel ].
    split.
    { intros (a & c & Ha & ->).
      exact (parsed_of_no_colon U d _ Hing (proxy_colon a c Ha)). }
    apply elem_of_app in H as [H | H];
      [ apply allergen_full_shape in H as (a & _ & H); discriminate H | ].
    apply conflict_full_iff in H as (_ & conflicting & Hin & Hcf).
    apply conflicting_iff in Hcf as (pat & a & Hpat & Hs & Ha).
    exists conflicting, a. split; [ exact Hin | split; [ exact Ha | ] ].
    apply (rel_rows_complete U _ _ _ _ _ _ Hp). exists d, code.
    split; [ exact Hd | split; [ exact Hc | ] ].
    apply (ingredient_full_product U _ _ ing _ Hing). unfold ingredient_full.
    apply elem_of_app. right. apply elem_of_app. left.
    apply allergen_full_iff. split; [ reflexivity | ].
    exists pat. split; assumption.
  - intros (Hnp & conflicting & a & Hin & Ha & H).
    apply (rel_rows_complete U _ _ _ _ _ _ Hp) in H
      as (d & code & Hd & Hc & H).
    apply product_full_ingredient_rel in H
      as [[Hing H] | (a' & Ha' & -> & _)].
    + apply elem_of_app in H as [H | H];
        [ | apply conflict_full_shape in H as (dp & H); discriminate H ].
      apply allergen_full_iff in H as (_ & pat & Hpat & Hs).
      exists d, code. split; [ exact Hd | split; [ exact Hc | ] ].
      apply (ingredient_full_product U _ _ ing _ Hing). unfold ingredient_full.
      apply elem_of_app. right. apply elem_of_app. right.
      apply conflict_full_iff. split; [ reflexivity | ].
      exists conflicting. split; [ exact Hin | ].
      apply conflicting_iff. exists pat, a. repeat split; assumption.
    + exfalso. apply Hnp. exists a', code.
      split; [ exact (explicit_known U d a' Ha') | reflexivity ].
Qed.

Lemma conflicts_follow_allergens_witness :
  let rows :=
    out (final (generate_csv_data unicode_u5317
                  [spec_example_record; milk_tag_record] (start None))) in
  RelRow CONFLICTS_WITH_DIET (py "milk") Ingredient (py "lactose_free")
    DietaryPreference ∈ rows
  /\ RelRow CONFLICTS_WITH_DIET (py "en:milk_source_for_7") Ingredient
       (py "lactose_free") DietaryPreference ∉ rows.
Proof.
  cbv zeta.
  assert (Hp : forall d, d ∈ [spec_example_record; milk_tag_record] ->
                 parses unicode_u5317 d).
  { intros d Hd.
    repeat (apply elem_of_cons in Hd as [-> | Hd];
            [ eexists; vm_compute; reflexivity | ]).
    inversion Hd. }
  split.
  - apply (conflicts_follow_allergens unicode_u5317 _ _ _ Hp). split.
    + intros (a & c & Ha & H).
      apply (proxy_colon a c) in Ha. rewrite <- H in Ha.
      apply (bool_decide_pack _) in Ha. vm_compute in Ha. exact Ha.
    + exists (list_to_set (map py ["en:milk"; "en:lactose"])), (py "en:milk").
      split; [ right; right; right; left | split ].
      * apply (bool_decide_unpack _). vm_compute. exact I.
      * vm_compute. repeat constructor.
  - intros H.
    apply (conflicts_follow_allergens unicode_u5317 _ _ _ Hp) in H as [H _].
    apply H. exists (py "en:milk"), (py "7").
    split; [ apply (bool_decide_unpack _); vm_compute; exact I | reflexivity ].
Defined.

(** ** Reading the tag fields *)

Section KnownTags.

Context (U : unicode).

(** What the loops over allergen tags collect: the cleaned strings that
    are known allergens. *)
Lemma add_known_iff (l : list pyval) (acc : gset str) (x : str) :
  x ∈ fold_left (add_known U) l acc
  <-> x ∈ acc
      \/ (x ∈ KNOWN_ALLERGENS
          /\ exists s, PStr s ∈ l /\ x = str_lower U (strip U s)).
Proof.
  revert acc. induction l as [| tag l IH]; intros acc.
  - simpl. split; [ left; assumption | ].
    intros [H | (_ & s & H & _)]; [ exact H | inversion H ].
  - cbn [fold_left]. rewrite IH. unfold add_known, known_tag, clean_tag.
    split.
    + intros [H | (Hk & s & Hs & Hx)].
      * destruct tag as [| | | s | |]; try (left; exact H).
        destruct (str_lower U (strip U s)) as [| c t] eqn:E;
          [ left; exact H | ].
        destruct (decide (c :: t ∈ KNOWN_ALLERGENS)) as [Hk | Hk];
          [ | left; exact H ].
        apply elem_of_union in H as [H | H]; [ | left; exact H ].
        apply elem_of_singleton in H. subst x. right.
        split; [ exact Hk | ]. exists s. split; [ left | congruence ].
      * right. split; [ exact Hk | ]. exists s.
        split; [ right; exact Hs | exact Hx ].
    + intros [H | (Hk & s & Hs & Hx)].
      * left. destruct tag as [| | | s | |]; try exact H.
        destruct (str_lower U (strip U s)); [ exact H | ].
        destruct (decide (_ ∈ KNOWN_ALLERGENS)); [ | exact H ].
        apply elem_of_union. right. exact H.
      * apply elem_of_cons in Hs as [<- | Hs].
        -- left. pose proof (known_nonempty x Hk) as Hne.
           destruct (str_lower U (strip U s)) as [| c t] eqn:E;
             [ congruence | ].
           subst x. rewrite decide_True by exact Hk.
           apply elem_of_union. left. apply elem_of_singleton. reflexivity.
        -- right. split; [ exact Hk | ]. exists s.
           split; [ exact Hs | exact Hx ].
Qed.

Lemma raw_strings (l : list pyval) (s : str) :
  s ∈ omap (fun tag => match tag with PStr s => Some s | _ => None end) l
  <-> PStr s ∈ l.
Proof.
  rewrite list_elem_of_omap. split.
  - intros (v & Hv & Hs). destruct v; try discriminate.
    inversion Hs; subst. exact Hv.
  - intros H. exists (PStr s). split; [ exact H | reflexivity ].
Qed.

Lemma explicit_allergens_read (product_doc : doc) (a : str) :
  a ∈ explicit_product_allergens U product_doc
  <-> a ∈ KNOWN_ALLERGENS
      /\ exists tag,
           tag ∈ raw_tags "allergens_tags" product_doc
           /\ a = str_lower U (strip U tag).
Proof.
  unfold explicit_product_allergens, raw_tags, get_or.
  destruct (product_doc !! py "allergens_tags") as [v |];
    cbn [default from_option id].
  - destruct v as [| b | n | s | l | t];
      try (split; [ intros H; apply elem_of_empty in H; contradiction
                  | intros (_ & tag & H & _); inversion H ]).
    + rewrite add_known_iff. split.
      * intros [H | (Hk & t & Ht & Hx)];
          [ apply elem_of_empty in H; contradiction | ].
        split; [ exact Hk | ]. exists t. split; [ | exact Hx ].
        apply list_elem_of_fmap in Ht as (p & Hp & Hin).
        inversion Hp; subst. exact Hin.
      * intros (Hk & t & Ht & Hx). right. split; [ exact Hk | ].
        exists t. split; [ | exact Hx ].
        apply list_elem_of_fmap. exists t. split; [ reflexivity | exact Ht ].
    + rewrite add_known_iff. split.
      * intros [H | (Hk & t & Ht & Hx)];
          [ apply elem_of_empty in H; contradiction | ].
        split; [ exact Hk | ]. exists t.
        split; [ apply raw_strings, Ht | exact Hx ].
      * intros (Hk & t & Ht & Hx). right. split; [ exact Hk | ].
        exists t. split; [ apply raw_strings, Ht | exact Hx ].
  - cbn [fold_left].
    split; [ intros H; apply elem_of_empty in H; contradiction
           | intros (_ & tag & H & _); inversion H ].
Qed.

Lemma traces_read (product_doc : doc) (a : str) :
  a ∈ processed_traces_allergens U product_doc
  <-> a ∈ KNOWN_ALLERGENS
      /\ exists tag,
           tag ∈ raw_tags "traces_tags" product_doc
           /\ a = str_lower U (strip U tag).
Proof.
  unfold processed_traces_allergens, raw_tags, get_or.
  destruct (product_doc !! py "traces_tags") as [v |];
    cbn [default from_option id].
  - destruct v as [| b | n | s | l | t]; cbn [tag_list];
      try (split; [ intros H; apply elem_of_empty in H; contradiction
                  | intros (_ & tag & H & _); inversion H ]).
    + rewrite add_known_iff. split.
      * intros [H | (Hk & t & Ht & Hx)];
          [ apply elem_of_empty in H; contradiction | ].
        apply split_tags_elem in Ht as (_ & piece & Hp & ->).
        rewrite strip_strip in Hx.
        split; [ exact Hk | exists piece; split; assumption ].
      * intros (Hk & piece & Hp & Hx). right. split; [ exact Hk | ].
        exists (strip U piece). rewrite strip_strip.
        split; [ | exact Hx ].
        apply split_tags_elem. split; [ | exists piece; split; trivial ].
        intros E. rewrite E in Hx. apply (known_nonempty a Hk).
        rewrite Hx. reflexivity.
    + rewrite add_known_iff. split.
      * intros [H | (Hk & t & Ht & Hx)];
          [ apply elem_of_empty in H; contradiction | ].
        split; [ exact Hk | ]. exists t.
        split; [ apply raw_strings, Ht | exact Hx ].
      * intros (Hk & t & Ht & Hx). right. split; [ exact Hk | ].
        exists t. split; [ apply raw_strings, Ht | exact Hx ].
  - cbn [tag_list fold_left].
    split; [ intros H; apply elem_of_empty in H; contradiction
           | intros (_ & tag & H & _); inversion H ].
Qed.

Lemma product_full_trace (product_doc : doc) (code c a : str) :
  trace_row c a ∈ product_full U product_doc code
  <-> c = code /\ a ∈ processed_traces_allergens U product_doc.
Proof.
  unfold product_full, trace_row. split.
  - intros H.
    apply elem_of_app in H as [H | H];
      [ apply list_elem_of_singleton in H; discriminate H | ].
    apply elem_of_app in H as [H | H].
    { apply list_elem_of_In, in_flat_map in H as (ing & _ & H).
      apply list_elem_of_In, ingredient_full_shape in H
        as [H | [H | [(x & _ & H) | (x & H)]]]; discriminate H. }
    apply elem_of_app in H as [H | H].
    { apply list_elem_of_In, in_flat_map in H as (x & _ & H).
      apply list_elem_of_In, proxy_full_shape in H as [_ [H | [H | H]]];
        discriminate H. }
    apply elem_of_app in H as [H | H].
    + apply list_elem_of_fmap in H as (x & H & Hx). inversion H; subst.
      split; [ reflexivity | apply elem_of_elements, Hx ].
    + apply list_elem_of_fmap in H as (x & H & _). discriminate H.
  - intros [-> Ha]. do 3 (apply elem_of_app; right).
    apply elem_of_app. left. apply list_elem_of_fmap. exists a.
    split; [ reflexivity | apply elem_of_elements, Ha ].
Qed.

End KnownTags.

(** How the tag fields are read.  The explicit allergens of a record and
    its trace allergens are the known allergens among its tags, each tag
    taken without the white space around it and in lower case; the tags
    are the strings of the list the field holds, or the pieces between
    the commas when it holds a string.  Tags that are not known
    allergens, and values that are not strings, are dropped. *)
Theorem allergen_tags_read (U : unicode) (product_doc : doc) (a : str) :
  (a ∈ explicit_product_allergens U product_doc
   <-> a ∈ KNOWN_ALLERGENS
       /\ exists tag,
            tag ∈ raw_tags "allergens_tags" product_doc
            /\ a = str_lower U (strip U tag))
  /\ (a ∈ processed_traces_allergens U product_doc
      <-> a ∈ KNOWN_ALLERGENS
          /\ exists tag,
               tag ∈ raw_tags "traces_tags" product_doc
               /\ a = str_lower U (strip U tag)).
Proof.
  split; [ apply explicit_allergens_read | apply traces_read ].
Qed.

(** The MAY_CONTAIN_ALLERGEN rows of a run on a sink that never fails,
    with records that parse: a product has a row to an allergen exactly
    when the allergen is known and a trace tag of an accepted record with
    that code, cleaned, is the allergen. *)
Theorem may_contain_rows (U : unicode) (products_cursor : list doc)
    (code a : str) :
  (forall d, d ∈ products_cursor -> parses U d) ->
  let rows :=
    out (final (generate_csv_data U products_cursor (start None))) in
  RelRow MAY_CONTAIN_ALLERGEN code Product a Allergen ∈ rows
  <-> a ∈ KNOWN_ALLERGENS
      /\ exists d tag,
           d ∈ products_cursor
           /\ accepted_code U (get d "code") = Some code
           /\ tag ∈ raw_tags "traces_tags" d
           /\ a = str_lower U (strip U tag).
Proof.
  intros Hp. cbv zeta. rewrite (rel_rows_complete U _ _ _ _ _ _ Hp). split.
  - intros (d & c & Hd & Hc & H).
    apply (product_full_trace U d c code a) in H as [-> H].
    apply traces_read in H as (Hk & tag & Ht & Hx).
    split; [ exact Hk | ]. exists d, tag. repeat split; assumption.
  - intros (Hk & d & tag & Hd & Hc & Ht & Hx). exists d, code.
    split; [ exact Hd | split; [ exact Hc | ] ].
    apply (product_full_trace U d code code a). split; [ reflexivity | ].
    apply traces_read. split; [ exact Hk | ]. exists tag. split; assumption.
Qed.

Lemma may_contain_rows_witness :
  let rows :=
    out (final (generate_csv_data unicode_u5317 mixed_records (start None)))
  in
  RelRow MAY_CONTAIN_ALLERGEN (py "77") Product (py "en:nuts") Allergen ∈ rows
  /\ (RelRow MAY_CONTAIN_ALLERGEN (py "77") Product (py "en:unknown") Allergen
      ∉ rows).
Proof.
  cbv zeta.
  assert (Hp : forall d, d ∈ mixed_records -> parses unicode_u5317 d).
  { intros d Hd. unfold mixed_records in Hd.
    repeat (apply elem_of_cons in Hd as [-> | Hd];
            [ eexists; vm_compute; reflexivity | ]).
    inversion Hd. }
  split.
  - apply (may_contain_rows unicode_u5317 mixed_records _ _ Hp).
    split; [ apply (bool_decide_unpack _); vm_compute; exact I | ].
    eexists _, (py " En:Nuts ").
    split; [ right; right; left | ].
    split; [ reflexivity | split; [ | reflexivity ] ].
    apply (bool_decide_unpack _). vm_compute. exact I.
  - intros H.
    apply (may_contain_rows unicode_u5317 mixed_records _ _ Hp) in H
      as [H _].
    apply (bool_decide_pack _) in H. vm_compute in H. exact H.
Defined.

(** ** The header and the catalogs *)

Section Catalogs.

Context (U : unicode).




End Catalogs.



Lemma completed_run_log_witness :
  exists st',
    generate_csv_data unicode_u5317 mixed_records (start None) = Ok tt st'
    /\ log st'
       = [ INFO_found 3; INFO_allergen_nodes 14; INFO_diet_nodes 4;
           WARNING_skipping PNone; INFO_finished 2; WARNING_skipped 1 ]
    /\ processed_count st' = 2%nat
    /\ missing_code_skipped st' = 1%nat.
Proof.
  destruct (completed_run_log unicode_u5317 mixed_records None)
    as (st' & Hg & Hl & Hp & Hs & _);
    [ discriminate | vm_compute; reflexivity | ].
  exists st'. split; [ exact Hg | ].
  split; [ rewrite Hl; vm_compute; reflexivity | ].
  split; [ rewrite Hp | rewrite Hs ]; vm_compute; reflexivity.
Defined.

Lemma unparsable_record_stops_witness :
  out (final (generate_csv_data unicode_u5317
                [wheat_flour_record; number_text_record; milk_tag_record]
                (start None)))
  = out (final (generate_csv_data unicode_u5317
                  [wheat_flour_record; number_text_record] (start None)))
  /\ exists st',
       generate_csv_data unicode_u5317
         [wheat_flour_record; number_text_record; milk_tag_record]
         (start None)
       = Ok tt st'
       /\ (last (log st') = Some ERROR_writing
           \/ last (log st') = Some ERROR_unexpected).
Proof.
  apply (unparsable_record_stops unicode_u5317 [wheat_flour_record]
           [milk_tag_record] number_text_record (py "5") None).
  - reflexivity.
  - reflexivity.
  - intros s H. vm_compute in H. discriminate H.
Defined.

(** ** The splitter on lists of plain names *)

Section PlainNames.

Context (U : unicode).

Lemma plain_char_facts (c : char) :
  plain_char c = true ->
  is_ascii c = true /\ ascii_upper c = false /\ name_char U c = true
  /\ is_space U c = false /\ c <> 44 /\ c <> 58 /\ c <> 40 /\ c <> 41
  /\ c <> 37 /\ c <> 226.
Proof.
  unfold plain_char, in_range. intros H.
  assert (Hc : (97 <= c /\ c <= 122) \/ (48 <= c /\ c <= 57) \/ c = 95
               \/ c = 45).
  { apply orb_true_iff in H as [H | H]; [ | right; right; right ].
    - apply orb_true_iff in H as [H | H]; [ | right; right; left ].
      + apply orb_true_iff in H as [H | H];
          apply andb_true_iff in H as [H1 H2];
          apply N.leb_le in H1; apply N.leb_le in H2;
          [ left | right; left ]; split; assumption.
      + apply N.eqb_eq, H.
    - apply N.eqb_eq, H. }
  clear H.
  assert (Ha : is_ascii c = true) by (apply N.ltb_lt; lia).
  assert (Hw : is_word U c = true \/ c = 45).
  { unfold is_word. rewrite Ha. unfold ascii_alnum, in_range.
    destruct Hc as [[H1 H2] | [[H1 H2] | [-> | ->]]].
    - left. apply N.leb_le in H1. apply N.leb_le in H2.
      rewrite H1, H2. reflexivity.
    - left. apply N.leb_le in H1. apply N.leb_le in H2.
      rewrite H1, H2. simpl. rewrite !orb_true_r. reflexivity.
    - left. reflexivity.
    - right. reflexivity. }
  split; [ exact Ha | ]. split.
  { unfold ascii_upper, in_range. apply andb_false_iff.
    destruct (N.leb_spec c 90) as [Hle | Hgt]; [ | right; reflexivity ].
    left. apply N.leb_gt. lia. }
  split.
  { unfold name_char. destruct Hw as [-> | ->]; [ reflexivity | ].
    rewrite orb_true_r. reflexivity. }
  split.
  { unfold is_space. rewrite Ha. unfold ascii_space, in_range.
    destruct (N.leb_spec 9 c), (N.leb_spec c 13), (N.leb_spec 28 c),
      (N.leb_spec c 31), (N.eqb_spec c 32); simpl; try reflexivity; lia. }
  repeat split; lia.
Qed.

(** The characters of a plain name. *)
Lemma plain_from_chars (b : bool) (s : str) (c : char) :
  plain_from b s = true -> c ∈ s -> plain_char c = true \/ c = 32.
Proof.
  revert b. induction s as [| d s IH]; intros b H Hc; [ inversion Hc | ].
  cbn [plain_from] in H. apply elem_of_cons in Hc as [-> | Hc].
  - destruct (N.eqb_spec d 32) as [-> | _]; [ right; reflexivity | ].
    apply andb_true_iff in H as [H _]. left. exact H.
  - destruct (d =? 32); apply andb_true_iff in H as [_ H];
      exact (IH _ H Hc).
Qed.

Lemma plain_from_tidy (b : bool) (s : str) :
  plain_from b s = true -> tidy U s = true.
Proof.
  revert b. induction s as [| c s IH]; intros b H; [ reflexivity | ].
  cbn [plain_from] in H. cbn [tidy].
  destruct (N.eqb_spec c 32) as [-> | Hne].
  - apply andb_true_iff in H as [_ H]. rewrite (IH _ H), andb_true_r.
    rewrite is_space_32. cbn [negb orb andb].
    destruct s as [| d s']; [ reflexivity | ].
    cbn [plain_from] in H.
    destruct (N.eqb_spec d 32) as [-> | Hd]; [ discriminate H | ].
    apply andb_true_iff in H as [H _].
    apply plain_char_facts in H as (_ & _ & _ & -> & _). reflexivity.
  - apply andb_true_iff in H as [Hc H]. rewrite (IH _ H), andb_true_r.
    apply plain_char_facts in Hc as (_ & _ & _ & -> & _). reflexivity.
Qed.

Lemma plain_from_last (b : bool) (s : str) :
  plain_from b s = true -> s <> [] -> head_ok U (rev s).
Proof.
  revert b. induction s as [| c s IH]; intros b H Hne; [ contradiction | ].
  cbn [plain_from] in H. simpl rev.
  destruct s as [| d s'].
  - simpl. destruct (N.eqb_spec c 32) as [-> | _].
    + apply andb_true_iff in H as [_ H]. discriminate H.
    + apply andb_true_iff in H as [H _].
      apply plain_char_facts in H as (_ & _ & _ & H & _). exact H.
  - assert (Hs : plain_from (c =? 32) (d :: s') = true)
      by (destruct (c =? 32); apply andb_true_iff in H as [_ H]; exact H).
    specialize (IH _ Hs ltac:(discriminate)).
    destruct (rev (d :: s')) as [| e t] eqn:E.
    + apply (f_equal (@length _)) in E. rewrite length_rev in E.
      discriminate E.
    + exact IH.
Qed.

Lemma plain_name_facts (s : str) :
  plain_name s = true ->
  s <> [] /\ all_ascii s /\ no_upper s
  /\ (forall c, c ∈ s -> name_char U c = true)
  /\ tidy U s = true /\ head_ok U s /\ head_ok U (rev s)
  /\ (forall c, c ∈ s ->
        c <> 44 /\ c <> 58 /\ c <> 40 /\ c <> 41 /\ c <> 37 /\ c <> 226).
Proof.
  unfold plain_name. intros H.
  assert (Hne : s <> []) by (intros ->; discriminate H).
  assert (Hc : forall c, c ∈ s ->
            is_ascii c = true /\ ascii_upper c = false
            /\ name_char U c = true
            /\ c <> 44 /\ c <> 58 /\ c <> 40 /\ c <> 41 /\ c <> 37
            /\ c <> 226).
  { intros c Hin. destruct (plain_from_chars _ _ _ H Hin) as [Hp | ->].
    - apply plain_char_facts in Hp
        as (H1 & H2 & H3 & _ & H5 & H6 & H7 & H8 & H9 & H10).
      repeat split; assumption.
    - repeat split; discriminate. }
  split; [ exact Hne | ].
  split; [ apply Forall_forall; intros c Hin; apply Hc, Hin | ].
  split; [ apply Forall_forall; intros c Hin; apply Hc, Hin | ].
  split; [ intros c Hin; apply Hc, Hin | ].
  split; [ exact (plain_from_tidy _ _ H) | ].
  split.
  { destruct s as [| c s']; [ exact I | ]. cbn [plain_from] in H. simpl.
    destruct (N.eqb_spec c 32) as [-> | _]; [ discriminate H | ].
    apply andb_true_iff in H as [H _].
    apply plain_char_facts in H as (_ & _ & _ & H & _). exact H. }
  split; [ exact (plain_from_last _ _ H Hne) | ].
  intros c Hin. apply Hc, Hin.
Qed.

(** The normalizer leaves a plain name as it is. *)
Lemma normalize_plain (s : str) :
  plain_name s = true -> normalize_ingredient_name U s = Some s.
Proof.
  intros H.
  apply plain_name_facts in H as (Hne & Ha & Hu & Hch & Ht & Hh & Hl & _).
  unfold normalize_ingredient_name.
  destruct s as [| c s']; [ contradiction | ].
  cbv zeta. set (s := c :: s') in *.
  rewrite (lower_fixed U _ Ha Hu), (unidecode_ascii U _ Ha).
  rewrite (bracketed_no_match U _ Hch).
  rewrite re_sub_not_name_char, (filter_all _ _ Hch).
  rewrite re_sub_spaces, (collapse_tidy U _ Ht).
  rewrite (strip_fixed U _ Hh Hl). reflexivity.
Qed.

Lemma rmatch_Lit icase p prev c s k :
  rmatch U icase (Lit p) prev (c :: s) k
  = if char_eq U icase p c then k (Some c) s else None.
Proof. reflexivity. Qed.

Lemma rmatch_NotAhead icase r prev s k :
  rmatch U icase (NotAhead r) prev s k
  = match rmatch U icase r prev s (fun p' s' => Some (p', s')) with
    | Some _ => None
    | None => k prev s
    end.
Proof. reflexivity. Qed.

(** A pattern that consumes a character matches only where the
    character occurs. *)
Lemma requires_char (c : char) (r : regex) :
  requires c r = true ->
  forall prev s k x, rmatch U false r prev s k = Some x -> c ∈ s.
Proof.
  induction r as [ | p | | neg items | r1 IH1 r2 IH2 | r1 IH1 r2 IH2
                 | greedy r1 IH1 | r1 IH1 | | ];
    intros Hr prev s k x H; try discriminate Hr.
  - simpl in Hr, H. apply N.eqb_eq in Hr. subst p.
    destruct s as [| d s]; [ discriminate H | ].
    unfold char_eq in H. destruct (N.eqb_spec d c) as [-> | _];
      [ left | discriminate H ].
  - simpl in Hr. rewrite rmatch_Cat in H.
    apply orb_true_iff in Hr as [Hr | Hr].
    + exact (IH1 Hr _ _ _ _ H).
    + apply rmatch_suffix in H as (p' & s' & [pre ->] & H).
      apply elem_of_app. right. exact (IH2 Hr _ _ _ _ H).
Qed.

Lemma re_sub_absent (c : char) (r : regex) (rep s : str) :
  requires c r = true -> c ∉ s -> re_sub U r rep s = s.
Proof.
  intros Hr Hc. apply sub_from_no_match. intros p t [pre ->].
  unfold match_here.
  destruct (rmatch U false r p t _) as [x |] eqn:E; [ | reflexivity ].
  exfalso. apply Hc. apply elem_of_app. right.
  exact (requires_char c r Hr _ _ _ _ E).
Qed.

Lemma split_head_absent (a : char) (sep s : str) :
  a ∉ s -> split_head (a :: sep) s = s.
Proof.
  induction s as [| c s IH]; intros H; [ reflexivity | ].
  cbn [split_head starts_with].
  destruct (N.eqb_spec a c) as [-> | _]; [ exfalso; apply H; left | ].
  f_equal. apply IH. intros Hin. apply H. right. exact Hin.
Qed.

(** The cleaning of a fragment leaves a plain name as it is. *)
Lemma clean_item_plain (s : str) :
  plain_name s = true -> clean_item U s = s.
Proof.
  intros H.
  apply plain_name_facts in H as (_ & _ & _ & _ & _ & Hh & Hl & Hc).
  unfold clean_item, dash_separator.
  change (py ":") with [58].
  rewrite (split_head_absent 58 [] s) by (intros Hin; apply Hc in Hin; tauto).
  rewrite (split_head_absent 226 _ s) by (intros Hin; apply Hc in Hin; tauto).
  rewrite (strip_fixed U _ Hh Hl).
  rewrite (re_sub_absent 40 re_paren_percent [] s eq_refl)
    by (intros Hin; apply Hc in Hin; tauto).
  rewrite !(strip_fixed U _ Hh Hl).
  rewrite (re_sub_absent 37 re_bare_percent [] s eq_refl)
    by (intros Hin; apply Hc in Hin; tauto).
  apply (strip_fixed U _ Hh Hl).
Qed.

Lemma collect_plain (l : list str) (acc : gset str) :
  Forall (fun s => plain_name s = true) l ->
  fold_left
    (fun (normalized_ingredients : gset str) item =>
       match normalize_ingredient_name U (clean_item U item) with
       | Some normalized => {[ normalized ]} ∪ normalized_ingredients
       | None => normalized_ingredients
       end) l acc
  = list_to_set l ∪ acc.
Proof.
  intros H. revert acc. induction H as [| s l Hs Hl IH]; intros acc.
  - simpl. symmetry. apply (left_id_L ∅ (∪)).
  - cbn [fold_left]. rewrite (clean_item_plain s Hs), (normalize_plain s Hs).
    rewrite IH. cbn [list_to_set].
    rewrite (assoc_L (∪)), (comm_L (∪) (list_to_set l) {[ s ]}).
    reflexivity.
Qed.

(** A greedy repetition of a one-character test takes the longest run,
    in front of a continuation that accepts wherever it is tried. *)
Lemma star_loop_greedy_accept
    (step : option char -> str -> cont -> option (option char * str))
    (P : char -> bool) (k : cont) :
  (forall prev s k',
     step prev s k' =
     match s with
     | c :: s' => if P c then k' (Some c) s' else None
     | [] => None
     end) ->
  forall (n : nat) (prev : option char) (s : str),
    (length s <= n)%nat ->
    (forall p t, t `suffix_of` s -> k p t = Some (p, t)) ->
    exists p', star_loop step true k n prev s = Some (p', drop_while P s).
Proof.
  intros Hstep. induction n as [| n IH]; intros prev s Hn Hk.
  - destruct s as [| c s]; [ | simpl in Hn; lia ].
    exists prev. rewrite star_loop_O. apply Hk. reflexivity.
  - rewrite star_loop_S. cbv zeta. rewrite Hstep.
    destruct s as [| c s].
    + exists prev. apply Hk. reflexivity.
    + cbn [drop_while]. destruct (P c) eqn:Hc.
      * assert (Hlt : (length s <? length (c :: s))%nat = true)
          by (apply Nat.ltb_lt; simpl; lia).
        rewrite Hlt.
        destruct (IH (Some c) s) as [p' Hp']; [ simpl in Hn; lia | | ].
        { intros p t Ht. apply Hk. apply suffix_cons_r. exact Ht. }
        rewrite Hp'. exists p'. reflexivity.
      * exists prev. apply Hk. reflexivity.
Qed.

(** Where no closing parenthesis follows, a comma and the white space
    after it are a separator. *)
Lemma top_comma_here (prev : option char) (t : str) :
  41 ∉ t ->
  exists p',
    match_here U false re_top_comma prev (44 :: t)
    = Some (p', drop_while (is_space U) t).
Proof.
  intros H41. unfold match_here, re_top_comma.
  rewrite rmatch_Cat, rmatch_Lit. unfold char_eq. rewrite N.eqb_refl.
  rewrite rmatch_Cat, rmatch_Star.
  destruct (star_loop_greedy_accept
              (rmatch U false (Cls false [CSpace]))
              (is_space U)
              (fun p' s' =>
                 rmatch U false
                   (NotAhead
                      (Cat (Star true (Cls true [CChar 40; CChar 41]))
                         (Lit 41)))
                   p' s' (fun p'' s'' => Some (p'', s'')))
              ) with (n := length t) (prev := Some 44) (s := t)
    as [p' Hp'].
  - intros p s k'. rewrite rmatch_Cls. destruct s as [| c s]; [ reflexivity | ].
    unfold cls_match. simpl. rewrite orb_false_r. reflexivity.
  - lia.
  - intros p s [pre ->]. rewrite rmatch_NotAhead.
    destruct (rmatch U false
                (Cat (Star true (Cls true [CChar 40; CChar 41])) (Lit 41))
                p s (fun p' s' => Some (p', s'))) as [x |] eqn:E;
      [ | reflexivity ].
    exfalso. apply H41. apply elem_of_app. right.
    refine (requires_char 41 _ _ _ _ _ _ E). reflexivity.
  - exists p'. exact Hp'.
Qed.

Lemma top_comma_not_here (prev : option char) (s : str) :
  head s <> Some 44 -> match_here U false re_top_comma prev s = None.
Proof.
  intros H. unfold match_here, re_top_comma. rewrite rmatch_Cat.
  cbn [rmatch]. destruct s as [| c s]; [ reflexivity | ].
  unfold char_eq. destruct (N.eqb_spec c 44) as [-> | _]; [ | reflexivity ].
  exfalso. apply H. reflexivity.
Qed.

Lemma split_from_S (r : regex) (n : nat) (prev : option char)
    (cur s : str) :
  split_from U r (S n) prev cur s
  = match match_here U false r prev s with
    | Some (p', s') =>
        if (length s' <? length s)%nat
        then rev cur :: split_from U r n p' [] s'
        else
          match s with
          | [] => [rev cur]
          | c :: t => split_from U r n (Some c) (c :: cur) t
          end
    | None =>
        match s with
        | [] => [rev cur]
        | c :: t => split_from U r n (Some c) (c :: cur) t
        end
    end.
Proof. reflexivity. Qed.

(** The scan of [re.split] over a piece without a comma. *)
Lemma split_from_piece (w : str) :
  44 ∉ w ->
  forall (m : nat) (prev : option char) (cur rest : str),
    exists prev',
      split_from U re_top_comma (length w + m) prev cur (w ++ rest)
      = split_from U re_top_comma m prev' (rev w ++ cur) rest.
Proof.
  induction w as [| c w IH]; intros H m prev cur rest.
  - exists prev. reflexivity.
  - cbn [length Nat.add app split_from].
    rewrite top_comma_not_here
      by (simpl; intros E; inversion E; subst; apply H; left).
    destruct (IH (fun Hin => H (list_elem_of_further _ _ _ Hin))
                m (Some c) (c :: cur) rest) as [prev' E].
    exists prev'. rewrite E. simpl rev. rewrite <- app_assoc. reflexivity.
Qed.

Lemma join_chars (l : list str) (c : char) :
  Forall (fun s => plain_name s = true) l ->
  c ∈ join (py ", ") l -> c <> 41.
Proof.
  intros H. induction H as [| s l Hs Hl IH]; intros Hc; [ inversion Hc | ].
  cbn [join] in Hc. apply plain_name_facts in Hs as (_ & _ & _ & _ & _ & _ & _ & Hch).
  destruct l as [| s2 l'].
  - apply Hch in Hc. tauto.
  - apply elem_of_app in Hc as [Hc | Hc]; [ apply Hch in Hc; tauto | ].
    apply elem_of_app in Hc as [Hc | Hc]; [ | exact (IH Hc) ].
    change (py ", ") with [44; 32] in Hc.
    apply elem_of_cons in Hc as [-> | Hc]; [ discriminate | ].
    apply list_elem_of_singleton in Hc as ->. discriminate.
Qed.

Lemma join_head (s : str) (l : list str) :
  plain_name s = true ->
  drop_while (is_space U) (join (py ", ") (s :: l)) = join (py ", ") (s :: l).
Proof.
  intros H. apply plain_name_facts in H as (Hne & _ & _ & _ & _ & Hh & _).
  destruct s as [| c s']; [ contradiction | ].
  simpl in Hh.
  assert (E : exists t, join (py ", ") ((c :: s') :: l) = c :: t).
  { destruct l; cbn [join]; eexists; reflexivity. }
  destruct E as [t ->]. simpl. rewrite Hh. reflexivity.
Qed.

(** [re.split] gives back the names that were joined. *)
Lemma split_join (l : list str) :
  Forall (fun s => plain_name s = true) l -> l <> [] ->
  forall (m : nat) (prev : option char),
    split_from U re_top_comma (S (length (join (py ", ") l) + m)) prev []
      (join (py ", ") l)
    = l.
Proof.
  intros H. induction H as [| s l Hs Hl IH]; intros Hne m prev;
    [ contradiction | ].
  pose proof (plain_name_facts s Hs) as (_ & _ & _ & _ & _ & _ & _ & Hch).
  assert (H44 : 44 ∉ s) by (intros Hin; apply Hch in Hin; tauto).
  destruct l as [| s2 l'].
  - cbn [join].
    destruct (split_from_piece s H44 (S m) prev [] []) as [prev' E].
    rewrite app_nil_r in E.
    replace (S (length s + m)) with (length s + S m)%nat by lia.
    rewrite E. rewrite split_from_S.
    rewrite top_comma_not_here by discriminate.
    rewrite app_nil_r, rev_involutive. reflexivity.
  - set (J := join (py ", ") (s2 :: l')) in *.
    assert (EJ : join (py ", ") (s :: s2 :: l') = s ++ 44 :: 32 :: J)
      by reflexivity.
    rewrite EJ.
    rewrite length_app. cbn [length].
    replace (S (length s + S (S (length J)) + m))
      with (length s + S (S (S (length J + m))))%nat by lia.
    destruct (split_from_piece s H44 (S (S (S (length J + m)))) prev []
                (44 :: 32 :: J)) as [prev' E].
    rewrite E. rewrite app_nil_r. rewrite split_from_S.
    assert (H41 : 41 ∉ 32 :: J).
    { intros Hin. apply elem_of_cons in Hin as [Hin | Hin];
        [ discriminate Hin | ].
      exact (join_chars (s2 :: l') 41 Hl Hin eq_refl). }
    destruct (top_comma_here prev' (32 :: J) H41) as [p' Hm].
    rewrite Hm. cbn [drop_while]. rewrite is_space_32.
    inversion Hl as [| ? ? Hs2 Hl']; subst.
    unfold J. rewrite (join_head s2 l' Hs2). fold J.
    assert (Hlt : (length J <? length (44%N :: 32%N :: J))%nat = true)
      by (apply Nat.ltb_lt; simpl; lia).
    rewrite Hlt, rev_involutive. f_equal.
    replace (S (S (length J + m))) with (S (length J + S m))%nat by lia.
    apply IH. discriminate.
Qed.

(** The splitter gives back the names that were joined. *)
Lemma parse_join (l : list str) :
  Forall (fun s => plain_name s = true) l ->
  parse_ingredients_from_text U (PStr (join (py ", ") l))
  = inr (list_to_set l).
Proof.
  intros H. unfold parse_ingredients_from_text, parse_text.
  destruct l as [| s l'].
  { reflexivity. }
  assert (Hne : join (py ", ") (s :: l') <> []).
  { inversion H as [| ? ? Hs _]; subst.
    apply plain_name_facts in Hs as (Hs & _).
    destruct s; [ contradiction | ]. destruct l'; discriminate. }
  destruct (join (py ", ") (s :: l')) as [| c t] eqn:E; [ contradiction | ].
  cbn [truthy negb]. rewrite <- E. f_equal.
  unfold collect_ingredients, re_split.
  pose proof (split_join (s :: l') H ltac:(discriminate) O None) as Hsp.
  rewrite Nat.add_0_r in Hsp. rewrite Hsp.
  rewrite (collect_plain _ ∅ H). apply (right_id_L ∅ (∪)).
Qed.

End PlainNames.

(** The splitter gives back what was joined: for every list of plain
    names (words of lower-case letters, digits, underscores and hyphens,
    one space between two words), parsing the names joined by a comma and
    a space returns the set of the names. *)
Theorem parse_joined_names (U : unicode) (names : list str) :
  Forall (fun s => plain_name s = true) names ->
  parse_ingredients_from_text U (PStr (join (py ", ") names))
  = inr (list_to_set names).
Proof. apply parse_join. Qed.

Lemma parse_joined_names_witness :
  parse_ingredients_from_text unicode_u5317
    (PStr (py "wheat flour, e-330, salt, salt"))
  = inr (list_to_set (map py ["wheat flour"; "e-330"; "salt"; "salt"])).
Proof.
  apply (parse_joined_names unicode_u5317
           (map py ["wheat flour"; "e-330"; "salt"; "salt"])).
  repeat constructor.
Defined.

(** ** The names the normalizer gives *)

Section NormalizerRange.

Context (U : unicode).

Lemma tidy_space (s : str) (c : char) :
  tidy U s = true -> c ∈ s -> is_space U c = true -> c = 32.
Proof.
  induction s as [| d s IH]; intros Ht Hc Hs; [ inversion Hc | ].
  cbn [tidy] in Ht. apply andb_true_iff in Ht as [Hd Ht].
  apply elem_of_cons in Hc as [-> | Hc]; [ | exact (IH Ht Hc Hs) ].
  rewrite Hs in Hd. cbn [negb orb] in Hd.
  apply andb_true_iff in Hd as [Hd _]. apply N.eqb_eq, Hd.
Qed.

Lemma ascii_name_char (c : char) :
  is_ascii c = true -> ascii_upper c = false -> name_char U c = true ->
  plain_char c = true \/ is_space U c = true.
Proof.
  unfold name_char, is_word, plain_char, ascii_alnum, ascii_upper.
  intros Ha Hu Hn. rewrite Ha in Hn. rewrite Hu in Hn.
  destruct (is_space U c); [ right; reflexivity | left ].
  rewrite orb_false_r in Hn.
  destruct (in_range 97 122 c); [ reflexivity | ].
  destruct (in_range 48 57 c); [ reflexivity | ].
  destruct (c =? 95); [ reflexivity | ].
  destruct (c =? 45); [ reflexivity | discriminate Hn ].
Qed.

Lemma plain_from_intro (b : bool) (s : str) :
  (forall c, c ∈ s -> plain_char c = true \/ c = 32) ->
  tidy U s = true ->
  (b = true -> s <> [] /\ head_ok U s) ->
  (s <> [] -> head_ok U (rev s)) ->
  plain_from b s = true.
Proof.
  revert b. induction s as [| c s IH]; intros b Hc Ht Hb Hl.
  - destruct b; [ | reflexivity ].
    destruct (Hb eq_refl) as [H _]. contradiction.
  - cbn [plain_from]. cbn [tidy] in Ht.
    apply andb_true_iff in Ht as [Hd Ht].
    assert (Hlast : s <> [] -> head_ok U (rev s)).
    { intros Hne. specialize (Hl ltac:(discriminate)).
      simpl rev in Hl. destruct (rev s) as [| e t] eqn:E.
      - apply (f_equal (@length _)) in E. rewrite length_rev in E.
        destruct s; [ contradiction | discriminate E ].
      - exact Hl. }
    destruct (N.eqb_spec c 32) as [-> | Hne].
    + rewrite is_space_32 in Hd. cbn [negb orb andb] in Hd.
      apply andb_true_iff. split.
      * destruct b; [ | reflexivity ].
        destruct (Hb eq_refl) as [_ H]. simpl in H.
        rewrite is_space_32 in H. discriminate H.
      * apply IH; [ intros d Hin; apply Hc; right; exact Hin | exact Ht | | exact Hlast ].
        intros _. destruct s as [| d s'].
        -- specialize (Hl ltac:(discriminate)). simpl in Hl.
           rewrite is_space_32 in Hl. discriminate Hl.
        -- split; [ discriminate | ]. simpl.
           apply negb_true_iff in Hd. exact Hd.
    + apply andb_true_iff. split.
      * destruct (Hc c ltac:(left)) as [H | H]; [ exact H | contradiction ].
      * apply IH; [ intros d Hin; apply Hc; right; exact Hin | exact Ht | | exact Hlast ].
        intros H. discriminate H.
Qed.

(** On an ASCII text the normalizer gives a plain name. *)
Lemma normalize_ascii_plain (s t : str) :
  all_ascii s -> normalize_ingredient_name U s = Some t ->
  plain_name t = true.
Proof.
  intros Ha H.
  destruct (normalize_ascii U s t Ha H) as [Hta Htu].
  pose proof (fun c => normalize_name_chars U s t c H) as Hch.
  apply normalize_Some in H as [Hne Ht].
  assert (Htidy : tidy U t = true)
    by (rewrite Ht; apply tidy_strip, tidy_collapse).
  assert (Hok : head_ok U t /\ head_ok U (rev t))
    by (rewrite Ht; apply strip_ok).
  apply plain_from_intro.
  - intros c Hc.
    destruct (ascii_name_char c) as [Hp | Hs];
      [ exact (proj1 (Forall_forall _ _) Hta c Hc)
      | exact (proj1 (Forall_forall _ _) Htu c Hc)
      | exact (Hch c Hc) | left; exact Hp | right ].
    exact (tidy_space t c Htidy Hc Hs).
  - exact Htidy.
  - intros _. split; [ exact Hne | apply Hok ].
  - intros _. apply Hok.
Qed.

Lemma drop_while_all (P : char -> bool) (s : str) :
  (forall c, c ∈ s -> P c = true) -> drop_while P s = [].
Proof.
  induction s as [| c s IH]; intros H; [ reflexivity | ].
  simpl. rewrite (H c) by left. apply IH. intros d Hd. apply H. right.
  exact Hd.
Qed.

Lemma strip_blank (s : str) :
  (forall c, c ∈ s -> is_space U c = true) -> strip U s = [].
Proof.
  intros H. unfold strip, lstrip. rewrite (drop_while_all _ _ H).
  reflexivity.
Qed.

(** A text without a word character and without a hyphen has no name. *)
Lemma normalize_blank (s : str) :
  all_ascii s ->
  (forall c, c ∈ s -> is_word U c = false /\ c <> 45) ->
  normalize_ingredient_name U s = None.
Proof.
  intros Ha Hc. unfold normalize_ingredient_name.
  destruct s as [| c0 s0]; [ reflexivity | ].
  cbv zeta. set (s := c0 :: s0) in *.
  assert (Hu : no_upper s).
  { apply Forall_forall. intros c Hin.
    destruct (Hc c Hin) as [Hw _].
    pose proof (proj1 (Forall_forall _ _) Ha c Hin) as Hasc.
    unfold is_word in Hw. rewrite Hasc in Hw.
    unfold ascii_alnum, ascii_upper in *.
    destruct (in_range 65 90 c); [ | reflexivity ].
    rewrite orb_true_r in Hw. discriminate Hw. }
  rewrite (lower_fixed U _ Ha Hu), (unidecode_ascii U _ Ha).
  rewrite re_sub_not_name_char, re_sub_spaces.
  rewrite strip_blank; [ reflexivity | ].
  intros c Hin. apply collapse_elem in Hin as [Hin | ->];
    [ | apply is_space_32 ].
  apply list_elem_of_In, filter_In in Hin as [Hin Hn].
  apply list_elem_of_In, re_sub_chars in Hin as [Hin | Hin];
    [ | inversion Hin ].
  destruct (Hc c Hin) as [Hw H45].
  unfold name_char in Hn. rewrite Hw in Hn.
  destruct (is_space U c); [ reflexivity | ].
  simpl in Hn. apply N.eqb_eq in Hn. contradiction.
Qed.

End NormalizerRange.

(** The names the normalizer gives on ASCII texts are the plain names:
    every name it returns for an ASCII text is plain (words of lower-case
    letters, digits, underscores and hyphens, one space between two
    words), and it returns every plain name, for that name itself. *)
Theorem normalizer_range (U : unicode) (t : str) :
  (forall s, all_ascii s -> normalize_ingredient_name U s = Some t ->
     plain_name t = true)
  /\ (plain_name t = true -> normalize_ingredient_name U t = Some t).
Proof.
  split.
  - intros s Ha H. exact (normalize_ascii_plain U s t Ha H).
  - apply normalize_plain.
Qed.

(** A text that has no name: the normalizer returns [None] for every
    ASCII text without a letter, a digit, an underscore or a hyphen
    (punctuation, brackets and blanks only), the empty text included. *)
Theorem normalize_without_name (U : unicode) (s : str) :
  all_ascii s ->
  (forall c, c ∈ s -> is_word U c = false /\ c <> 45) ->
  normalize_ingredient_name U s = None.
Proof.
  intros Ha Hc. exact (normalize_blank U s Ha Hc).
Qed.

Lemma normalize_without_name_witness :
  normalize_ingredient_name unicode_u5317 (py " (%) ... ") = None.
Proof.
  apply (normalize_without_name unicode_u5317 (py " (%) ... ")).
  - repeat constructor.
  - intros c Hc. vm_compute in Hc.
    repeat (apply elem_of_cons in Hc as [-> | Hc];
            [ split; [ reflexivity | discriminate ] | ]).
    inversion Hc.
Defined.

Lemma normalizer_range_witness :
  plain_name (py "wheat flour") = true
  /\ normalize_ingredient_name unicode_u5317 (py "Wheat  Flour (organic)")
     = Some (py "wheat flour").
Proof.
  split.
  - apply (proj1 (normalizer_range unicode_u5317 (py "wheat flour"))
             (py "Wheat  Flour (organic)")).
    + repeat constructor.
    + reflexivity.
  - reflexivity.
Defined.

(** ** Percentages *)

Section Percentages.

Context (U : unicode).

Lemma rmatch_Alt icase r1 r2 prev s k :
  rmatch U icase (Alt r1 r2) prev s k
  = match rmatch U icase r1 prev s k with
    | Some x => Some x
    | None => rmatch U icase r2 prev s k
    end.
Proof. reflexivity. Qed.

Lemma sub_from_S (r : regex) (rep : str) (n : nat) (prev : option char)
    (s : str) :
  sub_from U r rep (S n) prev s
  = match match_here U false r prev s with
    | Some (p', s') =>
        if (length s' <? length s)%nat then rep ++ sub_from U r rep n p' s'
        else
          match s with
          | [] => rep
          | c :: t => rep ++ c :: sub_from U r rep n (Some c) t
          end
    | None =>
        match s with
        | [] => []
        | c :: t => c :: sub_from U r rep n (Some c) t
        end
    end.
Proof. reflexivity. Qed.

Lemma step_space (prev : option char) (s : str) (k : cont) :
  rmatch U false (Cls false [CSpace]) prev s k
  = match s with
    | c :: s' => if is_space U c then k (Some c) s' else None
    | [] => None
    end.
Proof.
  rewrite rmatch_Cls. destruct s as [| c s]; [ reflexivity | ].
  unfold cls_match. simpl. rewrite orb_false_r. reflexivity.
Qed.

Lemma step_digit (prev : option char) (s : str) (k : cont) :
  rmatch U false (Cls false [CDigit]) prev s k
  = match s with
    | c :: s' => if is_digit U c then k (Some c) s' else None
    | [] => None
    end.
Proof.
  rewrite rmatch_Cls. destruct s as [| c s]; [ reflexivity | ].
  unfold cls_match. simpl. rewrite orb_false_r. reflexivity.
Qed.

(** A greedy repetition over a class takes the whole run when what
    follows matches after it. *)
Lemma star_loop_greedy_through
    (step : option char -> str -> cont -> option (option char * str))
    (P : char -> bool) (k : cont) (rest : str) (x : option char * str) :
  (forall prev s k',
     step prev s k' =
     match s with
     | c :: s' => if P c then k' (Some c) s' else None
     | [] => None
     end) ->
  (forall p, k p rest = Some x) ->
  match rest with c :: _ => P c = false | [] => True end ->
  forall (run : str) (n : nat) (prev : option char),
    (length (run ++ rest) <= n)%nat ->
    (forall c, c ∈ run -> P c = true) ->
    star_loop step true k n prev (run ++ rest) = Some x.
Proof.
  intros Hstep Hk Hrest. induction run as [| c run IH]; intros n prev Hn Hrun.
  - cbn [app]. destruct n as [| n].
    + rewrite star_loop_O. apply Hk.
    + rewrite star_loop_S. cbv zeta. rewrite Hstep.
      destruct rest as [| d t]; [ apply Hk | ].
      rewrite Hrest. apply Hk.
  - cbn [app]. destruct n as [| n]; [ simpl in Hn; lia | ].
    rewrite star_loop_S. cbv zeta. rewrite Hstep.
    rewrite (Hrun c) by left.
    assert (Hlt : (length (run ++ rest) <? length (c :: run ++ rest))%nat
                  = true) by (apply Nat.ltb_lt; simpl; lia).
    rewrite Hlt.
    rewrite IH; [ reflexivity | simpl in Hn; lia | ].
    intros d Hd. apply Hrun. right. exact Hd.
Qed.

Lemma digit_facts (c : char) :
  ascii_digit c = true ->
  is_digit U c = true /\ is_space U c = false
  /\ c <> 44 /\ c <> 58 /\ c <> 40 /\ c <> 41 /\ c <> 226.
Proof.
  unfold ascii_digit, in_range. intros H.
  apply andb_true_iff in H as [H1 H2].
  assert (Ha : is_ascii c = true)
    by (apply N.leb_le in H2; apply N.ltb_lt; lia).
  split.
  { unfold is_digit, ascii_digit, in_range. rewrite Ha, H1, H2. reflexivity. }
  apply N.leb_le in H1. apply N.leb_le in H2.
  split.
  { unfold is_space. rewrite Ha. unfold ascii_space, in_range.
    destruct (N.leb_spec 9 c), (N.leb_spec c 13), (N.leb_spec 28 c),
      (N.leb_spec c 31), (N.eqb_spec c 32); simpl; try reflexivity; lia. }
  repeat split; lia.
Qed.

Lemma not_digit (c : char) :
  plain_char c = true -> ascii_digit c = false -> is_digit U c = false.
Proof.
  intros Hp Hd. apply (plain_char_facts U) in Hp as (Ha & _).
  unfold is_digit. rewrite Ha. exact Hd.
Qed.

Lemma number_fails (p : option char) (c : char) (s : str) (k : cont) :
  is_digit U c = false -> rmatch U false re_number p (c :: s) k = None.
Proof.
  intros H. unfold re_number, plus.
  rewrite !rmatch_Cat, step_digit, H. reflexivity.
Qed.

Lemma bare_percent_not_here (p : option char) (c : char) (s : str) :
  is_space U c = false -> is_digit U c = false ->
  match_here U false re_bare_percent p (c :: s) = None.
Proof.
  intros Hs Hd. unfold match_here, re_bare_percent, re_ws.
  rewrite rmatch_Cat, rmatch_Star. cbn [length].
  rewrite star_loop_S. cbv zeta. rewrite step_space, Hs.
  rewrite rmatch_Cat. apply number_fails. exact Hd.
Qed.

Lemma bare_percent_not_after_space (p : option char) (c : char) (s : str) :
  is_space U c = false -> is_digit U c = false ->
  match_here U false re_bare_percent p (32 :: c :: s) = None.
Proof.
  intros Hs Hd. unfold match_here, re_bare_percent, re_ws.
  rewrite rmatch_Cat, rmatch_Star. cbn [length].
  rewrite star_loop_S. cbv zeta. rewrite step_space, is_space_32.
  match goal with
  | |- context [ (?a <? ?b)%nat ] =>
      replace (a <? b)%nat with true
        by (symmetry; apply Nat.ltb_lt; simpl; lia)
  end.
  rewrite star_loop_S. cbv zeta. rewrite step_space, Hs.
  rewrite rmatch_Cat, number_fails by exact Hd.
  rewrite rmatch_Cat. apply number_fails. reflexivity.
Qed.

(** No percentage starts inside a name without digits. *)
Lemma bare_percent_inside (b : bool) (t rest : str) (p : option char) :
  plain_from b t = true ->
  (forall c, c ∈ t -> ascii_digit c = false) ->
  t <> [] ->
  match_here U false re_bare_percent p (t ++ rest) = None.
Proof.
  intros H Hd Hne. destruct t as [| c t]; [ contradiction | ].
  cbn [plain_from] in H. destruct (N.eqb_spec c 32) as [-> | Hc].
  - apply andb_true_iff in H as [_ H].
    destruct t as [| c2 t]; [ discriminate H | ].
    cbn [plain_from] in H.
    destruct (N.eqb_spec c2 32) as [-> | Hc2]; [ discriminate H | ].
    apply andb_true_iff in H as [H _].
    pose proof (plain_char_facts U c2 H) as (_ & _ & _ & Hs & _).
    cbn [app]. apply bare_percent_not_after_space; [ exact Hs | ].
    apply not_digit; [ exact H | ]. apply Hd. right. left.
  - apply andb_true_iff in H as [H _].
    pose proof (plain_char_facts U c H) as (_ & _ & _ & Hs & _).
    cbn [app]. apply bare_percent_not_here; [ exact Hs | ].
    apply not_digit; [ exact H | ]. apply Hd. left.
Qed.

Lemma plain_from_suffix (t1 t2 : str) :
  forall b, plain_from b (t1 ++ t2) = true ->
            exists b', plain_from b' t2 = true.
Proof.
  induction t1 as [| c t1 IH]; intros b H.
  - exists b. exact H.
  - cbn [app plain_from] in H. destruct (c =? 32).
    + apply andb_true_iff in H as [_ H]. exact (IH _ H).
    + apply andb_true_iff in H as [_ H]. exact (IH _ H).
Qed.

(** The scan of [re.sub] over a stretch where nothing matches. *)
Lemma sub_from_skip (r : regex) (rep : str) (rest : str) :
  forall (t : str) (m : nat) (prev : option char),
    (forall t1 t2 p, t = t1 ++ t2 -> t2 <> [] ->
       match_here U false r p (t2 ++ rest) = None) ->
    exists prev',
      sub_from U r rep (length t + m) prev (t ++ rest)
      = t ++ sub_from U r rep m prev' rest.
Proof.
  induction t as [| c t IH]; intros m prev H.
  - exists prev. reflexivity.
  - cbn [length Nat.add]. rewrite sub_from_S.
    rewrite (H [] (c :: t) prev eq_refl) by discriminate.
    cbn [app].
    destruct (IH m (Some c)) as [prev' E].
    { intros t1 t2 p -> Hne. apply (H (c :: t1) t2 p eq_refl Hne). }
    exists prev'. rewrite E. reflexivity.
Qed.

Lemma digits_facts (d : str) :
  digits d = true ->
  exists c d', d = c :: d' /\ ascii_digit c = true
               /\ forall e, e ∈ d' -> ascii_digit e = true.
Proof.
  destruct d as [| c d']; [ discriminate | ].
  unfold digits. cbn [forallb]. intros H.
  apply andb_true_iff in H as [Hc Hd].
  exists c, d'. split; [ reflexivity | ]. split; [ exact Hc | ].
  intros e He. rewrite forallb_forall in Hd. apply Hd.
  apply list_elem_of_In. exact He.
Qed.

Lemma percent_tail_match (p : option char) :
  rmatch U false
    (Cat re_ws (Cat (Lit 37) (Cat re_ws EndS))) p [37]
    (fun p' s' => Some (p', s'))
  = Some (Some 37, []).
Proof. reflexivity. Qed.

(** The pattern of a percentage matches the text of one, to its end. *)
Lemma bare_percent_match (prev : option char) (whole : str)
    (fraction : option str) :
  digits whole = true ->
  match fraction with Some f => digits f = true | None => True end ->
  match_here U false re_bare_percent prev (percent_text whole fraction)
  = Some (Some 37, []).
Proof.
  intros Hw Hf.
  apply digits_facts in Hw as (c1 & w' & -> & Hc1 & Hw').
  pose proof (digit_facts c1 Hc1) as (Hd1 & Hs1 & _).
  unfold match_here, re_bare_percent, re_ws.
  rewrite rmatch_Cat, rmatch_Star.
  change (percent_text (c1 :: w') fraction)
    with ([32] ++ (c1 :: w'
                   ++ match fraction with
                      | Some f => py "." ++ f
                      | None => []
                      end ++ py "%")).
  apply (star_loop_greedy_through _ (is_space U)).
  - apply step_space.
  - intros p. rewrite rmatch_Cat. unfold re_number, plus.
    rewrite !rmatch_Cat, step_digit, Hd1, rmatch_Star.
    apply (star_loop_greedy_through _ (is_digit U)).
    + apply step_digit.
    + intros q. destruct fraction as [f |].
      * apply digits_facts in Hf as (c2 & f' & -> & Hc2 & Hf').
        pose proof (digit_facts c2 Hc2) as (Hd2 & _).
        unfold opt. rewrite rmatch_Alt.
        change (py "." ++ c2 :: f') with (46 :: c2 :: f').
        cbn [app].
        rewrite !rmatch_Cat, rmatch_Lit. unfold char_eq.
        rewrite N.eqb_refl. cbv beta.
        rewrite !rmatch_Cat, step_digit, Hd2, rmatch_Star.
        rewrite (star_loop_greedy_through _ (is_digit U) _ [37]
                   (Some 37, [])).
        -- reflexivity.
        -- apply step_digit.
        -- intros q'. apply percent_tail_match.
        -- reflexivity.
        -- reflexivity.
        -- intros e He. apply digit_facts. apply Hf'. exact He.
      * reflexivity.
    + destruct fraction as [f |]; reflexivity.
    + reflexivity.
    + intros e He. apply digit_facts. apply Hw'. exact He.
  - exact Hs1.
  - reflexivity.
  - intros e He. apply list_elem_of_singleton in He as ->.
    apply is_space_32.
Qed.

(** [re.sub] takes the percentage off the name. *)
Lemma re_sub_percent (name whole : str) (fraction : option str) :
  plain_name name = true ->
  (forall c, c ∈ name -> ascii_digit c = false) ->
  digits whole = true ->
  match fraction with Some f => digits f = true | None => True end ->
  re_sub U re_bare_percent [] (name ++ percent_text whole fraction) = name.
Proof.
  intros Hn Hd Hw Hf. unfold re_sub. rewrite length_app.
  replace (S (length name + length (percent_text whole fraction)))
    with (length name + S (length (percent_text whole fraction)))%nat by lia.
  destruct (sub_from_skip re_bare_percent [] (percent_text whole fraction)
              name (S (length (percent_text whole fraction))) None)
    as [prev' E].
  { intros t1 t2 p -> Hne.
    destruct (plain_from_suffix t1 t2 _ Hn) as [b Hb].
    apply (bare_percent_inside b); [ exact Hb | | exact Hne ].
    intros c Hc. apply Hd. apply elem_of_app. right. exact Hc. }
  rewrite E, sub_from_S, (bare_percent_match prev' whole fraction Hw Hf).
  assert (Hlt : (length (@nil char)
                 <? length (percent_text whole fraction))%nat = true)
    by (apply Nat.ltb_lt; unfold percent_text; simpl; lia).
  rewrite Hlt. cbn [app].
  destruct (length (percent_text whole fraction)) as [| k];
    [ apply app_nil_r | ].
  rewrite sub_from_S.
  change (match_here U false re_bare_percent (Some 37) []) with
    (@None (option char * str)).
  apply app_nil_r.
Qed.

Lemma percent_text_chars (whole : str) (fraction : option str) (c : char) :
  digits whole = true ->
  match fraction with Some f => digits f = true | None => True end ->
  c ∈ percent_text whole fraction ->
  c <> 44 /\ c <> 58 /\ c <> 40 /\ c <> 41 /\ c <> 226.
Proof.
  intros Hw Hf Hc.
  assert (Hdig : forall d, digits d = true -> c ∈ d -> ascii_digit c = true).
  { intros d Hd Hin. apply digits_facts in Hd as (e & d' & -> & He & Hd').
    apply elem_of_cons in Hin as [-> | Hin]; [ exact He | exact (Hd' _ Hin) ]. }
  unfold percent_text in Hc.
  apply elem_of_app in Hc as [Hc | Hc].
  { apply list_elem_of_singleton in Hc as ->. repeat split; discriminate. }
  apply elem_of_app in Hc as [Hc | Hc].
  { apply (Hdig _ Hw) in Hc. apply digit_facts in Hc. tauto. }
  apply elem_of_app in Hc as [Hc | Hc].
  - destruct fraction as [f |]; [ | inversion Hc ].
    apply elem_of_app in Hc as [Hc | Hc].
    + apply list_elem_of_singleton in Hc as ->. repeat split; discriminate.
    + apply (Hdig _ Hf) in Hc. apply digit_facts in Hc. tauto.
  - apply list_elem_of_singleton in Hc as ->. repeat split; discriminate.
Qed.

Lemma percent_text_last (whole : str) (fraction : option str) :
  exists body, percent_text whole fraction = body ++ [37].
Proof.
  exists (py " " ++ whole
          ++ match fraction with Some f => py "." ++ f | None => [] end).
  unfold percent_text. rewrite <- !app_assoc. reflexivity.
Qed.

(** What the items are made of. *)
Lemma item_facts (item : str * option (str * option str)) :
  item_ok item = true ->
  plain_name (fst item) = true
  /\ item_text item <> []
  /\ head_ok U (item_text item)
  /\ head_ok U (rev (item_text item))
  /\ (forall c, c ∈ item_text item ->
        c <> 44 /\ c <> 58 /\ c <> 40 /\ c <> 41 /\ c <> 226).
Proof.
  destruct item as [name share]. unfold item_ok. cbn [fst snd].
  intros H. apply andb_true_iff in H as [Hn H].
  pose proof (plain_name_facts U name Hn)
    as (Hne & _ & _ & _ & _ & Hh & Hl & Hc).
  split; [ exact Hn | ].
  destruct share as [[whole fraction] |]; cbn [item_text].
  - apply andb_true_iff in H as [H Hf].
    apply andb_true_iff in H as [_ Hw].
    assert (Hf' : match fraction with
                  | Some f => digits f = true
                  | None => True
                  end) by (destruct fraction; [ exact Hf | exact I ]).
    split.
    { destruct name; [ contradiction | discriminate ]. }
    split.
    { destruct name; [ contradiction | exact Hh ]. }
    split.
    { destruct (percent_text_last whole fraction) as [body ->].
      rewrite app_assoc, rev_app_distr. reflexivity. }
    intros c Hin. apply elem_of_app in Hin as [Hin | Hin].
    + apply Hc in Hin. tauto.
    + exact (percent_text_chars whole fraction c Hw Hf' Hin).
  - split; [ exact Hne | ]. split; [ exact Hh | ]. split; [ exact Hl | ].
    intros c Hin. apply Hc in Hin. tauto.
Qed.

(** The cleaning of a fragment takes the percentage off the name. *)
Lemma clean_item_text (item : str * option (str * option str)) :
  item_ok item = true -> clean_item U (item_text item) = fst item.
Proof.
  intros Hok.
  pose proof (item_facts item Hok) as (Hn & _ & Hh & Hl & Hc).
  destruct item as [name share]. cbn [fst] in *.
  destruct share as [[whole fraction] |];
    [ | exact (clean_item_plain U name Hn) ].
  unfold item_ok in Hok. cbn [fst snd] in Hok.
  apply andb_true_iff in Hok as [_ Hok].
  apply andb_true_iff in Hok as [Hok Hf].
  apply andb_true_iff in Hok as [Hd Hw].
  assert (Hf' : match fraction with
                | Some f => digits f = true
                | None => True
                end) by (destruct fraction; [ exact Hf | exact I ]).
  cbn [item_text] in *.
  set (s := name ++ percent_text whole fraction) in *.
  unfold clean_item, dash_separator.
  change (py ":") with [58].
  rewrite (split_head_absent 58 [] s) by (intros Hin; apply Hc in Hin; tauto).
  rewrite (split_head_absent 226 _ s)
    by (intros Hin; apply Hc in Hin; tauto).
  rewrite (strip_fixed U _ Hh Hl).
  rewrite (re_sub_absent U 40 re_paren_percent [] s eq_refl)
    by (intros Hin; apply Hc in Hin; tauto).
  rewrite !(strip_fixed U _ Hh Hl).
  unfold s. rewrite (re_sub_percent name whole fraction Hn); try assumption.
  - pose proof (plain_name_facts U name Hn) as (_ & _ & _ & _ & _ & Hh' & Hl' & _).
    apply (strip_fixed U _ Hh' Hl').
  - intros c Hin. rewrite forallb_forall in Hd.
    apply negb_true_iff. apply Hd. apply list_elem_of_In. exact Hin.
Qed.

Lemma collect_items (l : list (str * option (str * option str)))
    (acc : gset str) :
  Forall (fun item => item_ok item = true) l ->
  fold_left
    (fun (normalized_ingredients : gset str) item =>
       match normalize_ingredient_name U (clean_item U item) with
       | Some normalized => {[ normalized ]} ∪ normalized_ingredients
       | None => normalized_ingredients
       end) (map item_text l) acc
  = list_to_set (map fst l) ∪ acc.
Proof.
  intros H. revert acc. induction H as [| it l Hit Hl IH]; intros acc.
  - simpl. symmetry. apply (left_id_L ∅ (∪)).
  - cbn [map fold_left]. rewrite (clean_item_text it Hit).
    pose proof (item_facts it Hit) as (Hn & _).
    rewrite (normalize_plain U _ Hn), IH.
    cbn [list_to_set]. rewrite (comm_L (∪) {[ fst it ]} (list_to_set (map fst l))).
    rewrite <- (assoc_L (∪)). reflexivity.
Qed.

Lemma join_pieces_chars (l : list str) (c : char) :
  Forall (fun s => forall c, c ∈ s -> c <> 44 /\ c <> 41) l ->
  c ∈ join (py ", ") l -> c <> 41.
Proof.
  intros H. induction H as [| s l Hs Hl IH]; intros Hc; [ inversion Hc | ].
  cbn [join] in Hc. destruct l as [| s2 l'].
  - apply Hs in Hc. tauto.
  - apply elem_of_app in Hc as [Hc | Hc]; [ apply Hs in Hc; tauto | ].
    apply elem_of_app in Hc as [Hc | Hc]; [ | exact (IH Hc) ].
    change (py ", ") with [44; 32] in Hc.
    apply elem_of_cons in Hc as [-> | Hc]; [ discriminate | ].
    apply list_elem_of_singleton in Hc as ->. discriminate.
Qed.

Lemma join_pieces_head (s : str) (l : list str) :
  s <> [] -> head_ok U s ->
  drop_while (is_space U) (join (py ", ") (s :: l)) = join (py ", ") (s :: l).
Proof.
  intros Hne Hh. destruct s as [| c s']; [ contradiction | ].
  simpl in Hh.
  assert (E : exists t, join (py ", ") ((c :: s') :: l) = c :: t).
  { destruct l; cbn [join]; eexists; reflexivity. }
  destruct E as [t ->]. simpl. rewrite Hh. reflexivity.
Qed.

(** [re.split] gives back the pieces that were joined, when no piece holds
    a comma or a closing parenthesis, is empty or starts with white
    space. *)
Lemma split_join_pieces (l : list str) :
  Forall (fun s => forall c, c ∈ s -> c <> 44 /\ c <> 41) l ->
  Forall (fun s => s <> [] /\ head_ok U s) l ->
  l <> [] ->
  forall (m : nat) (prev : option char),
    split_from U re_top_comma (S (length (join (py ", ") l) + m)) prev []
      (join (py ", ") l)
    = l.
Proof.
  intros H. induction H as [| s l Hs Hl IH]; intros Hh Hne m prev;
    [ contradiction | ].
  assert (H44 : 44 ∉ s) by (intros Hin; apply Hs in Hin; tauto).
  destruct l as [| s2 l'].
  - cbn [join].
    destruct (split_from_piece U s H44 (S m) prev [] []) as [prev' E].
    rewrite app_nil_r in E.
    replace (S (length s + m)) with (length s + S m)%nat by lia.
    rewrite E. rewrite split_from_S.
    rewrite top_comma_not_here by discriminate.
    rewrite app_nil_r, rev_involutive. reflexivity.
  - set (J := join (py ", ") (s2 :: l')) in *.
    assert (EJ : join (py ", ") (s :: s2 :: l') = s ++ 44 :: 32 :: J)
      by reflexivity.
    rewrite EJ.
    rewrite length_app. cbn [length].
    replace (S (length s + S (S (length J)) + m))
      with (length s + S (S (S (length J + m))))%nat by lia.
    destruct (split_from_piece U s H44 (S (S (S (length J + m)))) prev []
                (44 :: 32 :: J)) as [prev' E].
    rewrite E. rewrite app_nil_r. rewrite split_from_S.
    assert (H41 : 41 ∉ 32 :: J).
    { intros Hin. apply elem_of_cons in Hin as [Hin | Hin];
        [ discriminate Hin | ].
      exact (join_pieces_chars (s2 :: l') 41 Hl Hin eq_refl). }
    destruct (top_comma_here U prev' (32 :: J) H41) as [p' Hm].
    rewrite Hm. cbn [drop_while]. rewrite is_space_32.
    inversion Hh as [| ? ? _ Hh']; subst.
    inversion Hh' as [| ? ? [Hne2 Hh2] _]; subst.
    unfold J. rewrite (join_pieces_head s2 l' Hne2 Hh2). fold J.
    assert (Hlt : (length J <? length (44%N :: 32%N :: J))%nat = true)
      by (apply Nat.ltb_lt; simpl; lia).
    rewrite Hlt, rev_involutive. f_equal.
    replace (S (S (length J + m))) with (S (length J + S m))%nat by lia.
    apply IH; [ exact Hh' | discriminate ].
Qed.

Lemma parse_items (l : list (str * option (str * option str))) :
  Forall (fun item => item_ok item = true) l ->
  parse_ingredients_from_text U (PStr (join (py ", ") (map item_text l)))
  = inr (list_to_set (map fst l)).
Proof.
  intros H. unfold parse_ingredients_from_text, parse_text.
  destruct l as [| it l'].
  { reflexivity. }
  assert (Hne : join (py ", ") (map item_text (it :: l')) <> []).
  { inversion H as [| ? ? Hit _]; subst.
    apply item_facts in Hit as (_ & Hit & _). cbn [map].
    destruct (item_text it); [ contradiction | ].
    destruct (map item_text l'); discriminate. }
  destruct (join (py ", ") (map item_text (it :: l'))) as [| c t] eqn:E;
    [ contradiction | ].
  cbn [truthy negb]. rewrite <- E. f_equal.
  unfold collect_ingredients, re_split.
  pose proof (split_join_pieces (map item_text (it :: l'))) as Hsp.
  rewrite <- (Nat.add_0_r (length _)).
  rewrite Hsp.
  - rewrite (collect_items _ ∅ H). apply (right_id_L ∅ (∪)).
  - apply Forall_map. eapply Forall_impl; [ exact H | ].
    intros x Hx c' Hc'. apply item_facts in Hx as (_ & _ & _ & _ & Hx).
    apply Hx in Hc'. tauto.
  - apply Forall_map. eapply Forall_impl; [ exact H | ].
    intros x Hx. apply item_facts in Hx as (_ & Hx1 & Hx2 & _).
    split; assumption.
  - discriminate.
Qed.

End Percentages.

(** Percentages at the end of an item are taken off: for a list of items,
    each a plain name alone or a plain name without digits followed by a
    space, a number of ASCII digits with or without a decimal fraction,
    and a percent sign, parsing the items joined by a comma and a space
    returns the set of the names. *)
Theorem percentages_dropped (U : unicode)
    (items : list (str * option (str * option str))) :
  Forall (fun item => item_ok item = true) items ->
  parse_ingredients_from_text U (PStr (join (py ", ") (map item_text items)))
  = inr (list_to_set (map fst items)).
Proof. apply parse_items. Qed.

Lemma percentages_dropped_witness :
  parse_ingredients_from_text unicode_u5317
    (PStr (py "wheat flour 62.5%, sugar 30%, salt"))
  = inr (list_to_set (map py ["wheat flour"; "sugar"; "salt"])).
Proof.
  apply (percentages_dropped unicode_u5317
           [ (py "wheat flour", Some (py "62", Some (py "5")));
             (py "sugar", Some (py "30", None));
             (py "salt", None) ]).
  repeat constructor.
Defined.
